(** * adRunner: the simulation core of [src/GameCanvas.tsx]

    A shallow embedding of the per-frame simulation ([update] and the
    functions it calls) together with the properties stated about it.

    Numbers.  A TypeScript [number] is modelled as an exact rational in
    canonical form ([Qc]): arithmetic is the ideal arithmetic of the
    source text, without rounding, [NaN] or infinities.  Quantities the
    source only ever uses as integers (segment counts, the spawn cursor)
    are kept in [Z]. *)

From Stdlib Require Import ZArith QArith Qcanon Qround Lqa Lia.
From Stdlib Require Import List Bool String Permutation.
Import ListNotations.

Local Open Scope Qc_scope.

(** ** Numbers *)

Abbreviation num := Qc (only parsing).

(** Integer and fractional literals of the source. *)
Definition ofZ (z : Z) : num := Q2Qc (inject_Z z).
Definition frac (a : Z) (b : positive) : num := Q2Qc (a # b).

Definition leb (a b : num) : bool := Qle_bool a b.
Definition ltb (a b : num) : bool := negb (Qle_bool b a).

(** [Math.max], [Math.min], [Math.floor]. *)
Definition max (a b : num) : num := if leb a b then b else a.
Definition min (a b : num) : num := if leb a b then a else b.
Definition floorZ (a : num) : Z := Qfloor a.
Definition floor (a : num) : num := ofZ (floorZ a).

(** [v | 0]: truncation toward zero followed by the 32-bit wrap. *)
Definition toInt32 (a : num) : Z :=
  let t := if ltb a 0 then Qceiling a else Qfloor a in
  let m := (t mod 4294967296)%Z in
  if (2147483648 <=? m)%Z then (m - 4294967296)%Z else m.

Declare Scope num_scope.
Delimit Scope num_scope with num.
Notation "a <=? b" := (leb a b) (at level 70, no associativity) : num_scope.
Notation "a <? b" := (ltb a b) (at level 70, no associativity) : num_scope.
Notation "# z" := (ofZ z) (at level 5, format "# z") : num_scope.
Local Open Scope num_scope.

(** ** Geometry *)

Module Rect.
Record t : Set := make { x : num; y : num; w : num; h : num }.
Definition setX (v : num) (r : t) : t := make v (y r) (w r) (h r).
Definition setY (v : num) (r : t) : t := make (x r) v (w r) (h r).
Definition setW (v : num) (r : t) : t := make (x r) (y r) v (h r).
End Rect.

Definition LOGICAL_W : num := #360.
Definition LOGICAL_H : num := #640.

Definition clamp (v a b : num) : num := max a (min b v).
Definition lerp (a b t : num) : num := a + (b - a) * t.

Definition aabb (a b : Rect.t) : bool :=
  (Rect.x a <? Rect.x b + Rect.w b) &&
  (Rect.x b <? Rect.x a + Rect.w a) &&
  (Rect.y a <? Rect.y b + Rect.h b) &&
  (Rect.y b <? Rect.y a + Rect.h a).

(** ** Constants *)

Definition PLAYER_SEGMENT_WIDTH : Z := 10.
Definition BASE_PLAYER_SEGMENT_SPACING : Z := 8.
Definition MIN_PLAYER_SEGMENT_SPACING : Z := 2.
Definition BOSS_INTERVAL : num := #2000.
Definition BOSS_SPAWN_MARGIN : num := #40.
Definition BOSS_WIDTH : num := #90.
Definition BOSS_HEIGHT : num := #90.
Definition MAX_PLAYER_SEGMENTS : Z := 20.
Definition MIN_PLAYER_WIDTH : Z := 32.
Definition OBSTACLE_WIDTH : num := #56.
Definition OBSTACLE_HEIGHT : num := #56.
Definition OBSTACLE_HP_BASE : num := #32.
Definition OBSTACLE_HP_PER_DIST : num := #10.
Definition ATTACK_ITEM_SIZE : num := #22.
Definition ATTACK_ITEM_FALL_SPEED : num := #140.
Definition MAX_ATTACK_BONUS : num := #6.

(** ** The player crowd

    Segment counts are integers: [getPlayerCount] floors its argument and
    every caller of [getCrowdWidth] and [getPlayerSegmentSpacing] passes
    the result of [getPlayerCount]. *)

Definition getPlayerCount (value : num) : Z :=
  let intValue := Z.max 0 (floorZ value) in
  Z.max 1 (Z.min MAX_PLAYER_SEGMENTS intValue).

Definition getPlayerSegmentSpacing (count : Z) : Z :=
  if (count <=? 1)%Z then BASE_PLAYER_SEGMENT_SPACING
  else
    let reduction := ((count - 1) / 4)%Z in
    Z.max MIN_PLAYER_SEGMENT_SPACING (BASE_PLAYER_SEGMENT_SPACING - reduction).

Definition getCrowdWidth (count : Z) : Z :=
  if (count <=? 0)%Z then MIN_PLAYER_WIDTH
  else
    (count * PLAYER_SEGMENT_WIDTH
     + Z.max 0 (count - 1) * getPlayerSegmentSpacing count)%Z.

(** The [x] of every segment, left to right. *)
Definition getPlayerSegmentPositions (player : Rect.t) (count : Z) : list num :=
  let totalSegmentWidth := #(getCrowdWidth count) in
  let segmentStartX :=
    Rect.x player + max 0 ((Rect.w player - totalSegmentWidth) / #2) in
  let spacing := getPlayerSegmentSpacing count in
  map (fun i : nat =>
         segmentStartX + #(Z.of_nat i) * #(PLAYER_SEGMENT_WIDTH + spacing))
      (seq 0 (Z.to_nat count)).

(** ** Gates *)

Inductive GateOpType : Set := add | sub | mul | div.

Module GateOp.
Record t : Set := make { type : GateOpType; amount : num; label : string }.
End GateOp.

Definition applyGate (value : num) (op : GateOp.t) : num :=
  let v :=
    match GateOp.type op with
    | add => value + GateOp.amount op
    | sub => value - GateOp.amount op
    | mul => value * GateOp.amount op
    | div => floor (value / GateOp.amount op)
    end in
  max 0 v.

(** The four operations [spawnGatePair] chooses from. *)
Definition ops : list GateOp.t :=
  [ GateOp.make add #5 "+10";
    GateOp.make mul #2 "×2";
    GateOp.make sub #5 "-5";
    GateOp.make div #2 "÷2" ].

(** ** Entities

    An entity type [Rect & { ... }] of the source is a record holding its
    rectangle and its own fields. *)

Module Gate.
Record t : Set := make { rect : Rect.t; op : GateOp.t; used : bool }.
Definition setY (v : num) (g : t) : t := make (Rect.setY v (rect g)) (op g) (used g).
Definition setUsed (v : bool) (g : t) : t := make (rect g) (op g) v.
End Gate.

Module Enemy.
Record t : Set := make { rect : Rect.t; hp : num; damage : num }.
Definition setY (v : num) (e : t) : t := make (Rect.setY v (rect e)) (hp e) (damage e).
Definition setHp (v : num) (e : t) : t := make (rect e) v (damage e).
End Enemy.

Abbreviation Zombie := Enemy.t (only parsing).
Abbreviation Boss := Enemy.t (only parsing).

Module Obstacle.
Record t : Set := make { rect : Rect.t; hp : num; maxHp : num }.
Definition setY (v : num) (o : t) : t := make (Rect.setY v (rect o)) (hp o) (maxHp o).
Definition setHp (v : num) (o : t) : t := make (rect o) v (maxHp o).
End Obstacle.

Inductive ItemType : Set := attack.

Module Item.
(** [collected] is optional in the source; an absent flag is falsy. *)
Record t : Set :=
  make { rect : Rect.t; type : ItemType; vy : num; bonus : num; collected : bool }.
Definition setY (v : num) (i : t) : t :=
  make (Rect.setY v (rect i)) (type i) (vy i) (bonus i) (collected i).
Definition setCollected (v : bool) (i : t) : t :=
  make (rect i) (type i) (vy i) (bonus i) v.
End Item.

Module Bullet.
Record t : Set :=
  make { rect : Rect.t; vx : num; vy : num; life : num; dmg : num }.
Definition setX (v : num) (b : t) : t :=
  make (Rect.setX v (rect b)) (vx b) (vy b) (life b) (dmg b).
Definition setY (v : num) (b : t) : t :=
  make (Rect.setY v (rect b)) (vx b) (vy b) (life b) (dmg b).
Definition setLife (v : num) (b : t) : t :=
  make (rect b) (vx b) (vy b) v (dmg b).
End Bullet.

(** The text of a floater, kept as the template the source builds it from
    and the number it prints: the score delta with an explicit plus sign
    when it is not negative, a minus sign followed by the bullet damage, and
    the word ATTACK followed by the bonus gained. *)
Inductive FloaterText : Set :=
| SignedDelta (delta : num)
| MinusDmg (dmg : num)
| AttackPlus (gained : num).

Module Floater.
Record t : Set :=
  make { text : FloaterText; x : num; y : num; vy : num; life : num }.
Definition setY (v : num) (f : t) : t := make (text f) (x f) v (vy f) (life f).
Definition setLife (v : num) (f : t) : t := make (text f) (x f) (y f) (vy f) v.
End Floater.

Module HudState.
Record t : Set := make { value : num; dist : num; alive : bool }.
End HudState.

(** ** World state

    The [state] object of [runGame], together with the other variables the
    closure of [update] owns: [player], [hudAccum], the snapshot last handed
    to [setHud], and the number of [Math.random] calls made so far. *)

Record State : Set := mkState {
  time : num;
  dist : num;
  speed : num;
  scoreValue : num;
  alive : bool;
  targetX : num;
  pointerDown : bool;
  gates : list Gate.t;
  zombies : list Zombie;
  bosses : list Boss;
  obstacles : list Obstacle.t;
  items : list Item.t;
  bullets : list Bullet.t;
  floaters : list Floater.t;
  shootCooldown : num;
  lastSeg : Z;
  nextBossDist : num;
  attackBonus : num;
  player : Rect.t;
  hudAccum : num;
  hud : HudState.t;
  randCalls : nat
}.

Definition set_time (v : num) (s : State) : State :=
  mkState v (dist s) (speed s) (scoreValue s) (alive s) (targetX s)
    (pointerDown s) (gates s) (zombies s) (bosses s) (obstacles s) (items s)
    (bullets s) (floaters s) (shootCooldown s) (lastSeg s) (nextBossDist s)
    (attackBonus s) (player s) (hudAccum s) (hud s) (randCalls s).
Definition set_dist (v : num) (s : State) : State :=
  mkState (time s) v (speed s) (scoreValue s) (alive s) (targetX s)
    (pointerDown s) (gates s) (zombies s) (bosses s) (obstacles s) (items s)
    (bullets s) (floaters s) (shootCooldown s) (lastSeg s) (nextBossDist s)
    (attackBonus s) (player s) (hudAccum s) (hud s) (randCalls s).
Definition set_speed (v : num) (s : State) : State :=
  mkState (time s) (dist s) v (scoreValue s) (alive s) (targetX s)
    (pointerDown s) (gates s) (zombies s) (bosses s) (obstacles s) (items s)
    (bullets s) (floaters s) (shootCooldown s) (lastSeg s) (nextBossDist s)
    (attackBonus s) (player s) (hudAccum s) (hud s) (randCalls s).
Definition set_scoreValue (v : num) (s : State) : State :=
  mkState (time s) (dist s) (speed s) v (alive s) (targetX s) (pointerDown
    s) (gates s) (zombies s) (bosses s) (obstacles s) (items s) (bullets s)
    (floaters s) (shootCooldown s) (lastSeg s) (nextBossDist s) (attackBonus
    s) (player s) (hudAccum s) (hud s) (randCalls s).
Definition set_alive (v : bool) (s : State) : State :=
  mkState (time s) (dist s) (speed s) (scoreValue s) v (targetX s)
    (pointerDown s) (gates s) (zombies s) (bosses s) (obstacles s) (items s)
    (bullets s) (floaters s) (shootCooldown s) (lastSeg s) (nextBossDist s)
    (attackBonus s) (player s) (hudAccum s) (hud s) (randCalls s).
Definition set_targetX (v : num) (s : State) : State :=
  mkState (time s) (dist s) (speed s) (scoreValue s) (alive s) v
    (pointerDown s) (gates s) (zombies s) (bosses s) (obstacles s) (items s)
    (bullets s) (floaters s) (shootCooldown s) (lastSeg s) (nextBossDist s)
    (attackBonus s) (player s) (hudAccum s) (hud s) (randCalls s).
Definition set_pointerDown (v : bool) (s : State) : State :=
  mkState (time s) (dist s) (speed s) (scoreValue s) (alive s) (targetX s) v
    (gates s) (zombies s) (bosses s) (obstacles s) (items s) (bullets s)
    (floaters s) (shootCooldown s) (lastSeg s) (nextBossDist s) (attackBonus
    s) (player s) (hudAccum s) (hud s) (randCalls s).
Definition set_gates (v : list Gate.t) (s : State) : State :=
  mkState (time s) (dist s) (speed s) (scoreValue s) (alive s) (targetX s)
    (pointerDown s) v (zombies s) (bosses s) (obstacles s) (items s)
    (bullets s) (floaters s) (shootCooldown s) (lastSeg s) (nextBossDist s)
    (attackBonus s) (player s) (hudAccum s) (hud s) (randCalls s).
Definition set_zombies (v : list Zombie) (s : State) : State :=
  mkState (time s) (dist s) (speed s) (scoreValue s) (alive s) (targetX s)
    (pointerDown s) (gates s) v (bosses s) (obstacles s) (items s) (bullets
    s) (floaters s) (shootCooldown s) (lastSeg s) (nextBossDist s)
    (attackBonus s) (player s) (hudAccum s) (hud s) (randCalls s).
Definition set_bosses (v : list Boss) (s : State) : State :=
  mkState (time s) (dist s) (speed s) (scoreValue s) (alive s) (targetX s)
    (pointerDown s) (gates s) (zombies s) v (obstacles s) (items s) (bullets
    s) (floaters s) (shootCooldown s) (lastSeg s) (nextBossDist s)
    (attackBonus s) (player s) (hudAccum s) (hud s) (randCalls s).
Definition set_obstacles (v : list Obstacle.t) (s : State) : State :=
  mkState (time s) (dist s) (speed s) (scoreValue s) (alive s) (targetX s)
    (pointerDown s) (gates s) (zombies s) (bosses s) v (items s) (bullets s)
    (floaters s) (shootCooldown s) (lastSeg s) (nextBossDist s) (attackBonus
    s) (player s) (hudAccum s) (hud s) (randCalls s).
Definition set_items (v : list Item.t) (s : State) : State :=
  mkState (time s) (dist s) (speed s) (scoreValue s) (alive s) (targetX s)
    (pointerDown s) (gates s) (zombies s) (bosses s) (obstacles s) v
    (bullets s) (floaters s) (shootCooldown s) (lastSeg s) (nextBossDist s)
    (attackBonus s) (player s) (hudAccum s) (hud s) (randCalls s).
Definition set_bullets (v : list Bullet.t) (s : State) : State :=
  mkState (time s) (dist s) (speed s) (scoreValue s) (alive s) (targetX s)
    (pointerDown s) (gates s) (zombies s) (bosses s) (obstacles s) (items s)
    v (floaters s) (shootCooldown s) (lastSeg s) (nextBossDist s)
    (attackBonus s) (player s) (hudAccum s) (hud s) (randCalls s).
Definition set_floaters (v : list Floater.t) (s : State) : State :=
  mkState (time s) (dist s) (speed s) (scoreValue s) (alive s) (targetX s)
    (pointerDown s) (gates s) (zombies s) (bosses s) (obstacles s) (items s)
    (bullets s) v (shootCooldown s) (lastSeg s) (nextBossDist s)
    (attackBonus s) (player s) (hudAccum s) (hud s) (randCalls s).
Definition set_shootCooldown (v : num) (s : State) : State :=
  mkState (time s) (dist s) (speed s) (scoreValue s) (alive s) (targetX s)
    (pointerDown s) (gates s) (zombies s) (bosses s) (obstacles s) (items s)
    (bullets s) (floaters s) v (lastSeg s) (nextBossDist s) (attackBonus s)
    (player s) (hudAccum s) (hud s) (randCalls s).
Definition set_lastSeg (v : Z) (s : State) : State :=
  mkState (time s) (dist s) (speed s) (scoreValue s) (alive s) (targetX s)
    (pointerDown s) (gates s) (zombies s) (bosses s) (obstacles s) (items s)
    (bullets s) (floaters s) (shootCooldown s) v (nextBossDist s)
    (attackBonus s) (player s) (hudAccum s) (hud s) (randCalls s).
Definition set_nextBossDist (v : num) (s : State) : State :=
  mkState (time s) (dist s) (speed s) (scoreValue s) (alive s) (targetX s)
    (pointerDown s) (gates s) (zombies s) (bosses s) (obstacles s) (items s)
    (bullets s) (floaters s) (shootCooldown s) (lastSeg s) v (attackBonus s)
    (player s) (hudAccum s) (hud s) (randCalls s).
Definition set_attackBonus (v : num) (s : State) : State :=
  mkState (time s) (dist s) (speed s) (scoreValue s) (alive s) (targetX s)
    (pointerDown s) (gates s) (zombies s) (bosses s) (obstacles s) (items s)
    (bullets s) (floaters s) (shootCooldown s) (lastSeg s) (nextBossDist s)
    v (player s) (hudAccum s) (hud s) (randCalls s).
Definition set_player (v : Rect.t) (s : State) : State :=
  mkState (time s) (dist s) (speed s) (scoreValue s) (alive s) (targetX s)
    (pointerDown s) (gates s) (zombies s) (bosses s) (obstacles s) (items s)
    (bullets s) (floaters s) (shootCooldown s) (lastSeg s) (nextBossDist s)
    (attackBonus s) v (hudAccum s) (hud s) (randCalls s).
Definition set_hudAccum (v : num) (s : State) : State :=
  mkState (time s) (dist s) (speed s) (scoreValue s) (alive s) (targetX s)
    (pointerDown s) (gates s) (zombies s) (bosses s) (obstacles s) (items s)
    (bullets s) (floaters s) (shootCooldown s) (lastSeg s) (nextBossDist s)
    (attackBonus s) (player s) v (hud s) (randCalls s).
Definition set_hud (v : HudState.t) (s : State) : State :=
  mkState (time s) (dist s) (speed s) (scoreValue s) (alive s) (targetX s)
    (pointerDown s) (gates s) (zombies s) (bosses s) (obstacles s) (items s)
    (bullets s) (floaters s) (shootCooldown s) (lastSeg s) (nextBossDist s)
    (attackBonus s) (player s) (hudAccum s) v (randCalls s).
Definition set_randCalls (v : nat) (s : State) : State :=
  mkState (time s) (dist s) (speed s) (scoreValue s) (alive s) (targetX s)
    (pointerDown s) (gates s) (zombies s) (bosses s) (obstacles s) (items s)
    (bullets s) (floaters s) (shootCooldown s) (lastSeg s) (nextBossDist s)
    (attackBonus s) (player s) (hudAccum s) (hud s) v.

(** ** The canvas

    [resize] reads the window's inner size and device pixel ratio and
    writes the CSS size of the canvas, its backing-store size and the
    scale of the drawing transform.  [devicePixelRatio || 1] takes 1 for
    a ratio of 0.  The quotients and products are exact here; the code
    rounds each to a double before [Math.floor], so a CSS size can come
    out one less than the exact one. *)

Module Canvas.
Record t : Set := make {
  cssW : num; cssH : num; width : num; height : num; transform : num
}.
End Canvas.

Definition resize (ww wh devicePixelRatio : num) : Canvas.t :=
  let scale := min (ww / LOGICAL_W) (wh / LOGICAL_H) in
  let cssW := floor (LOGICAL_W * scale) in
  let cssH := floor (LOGICAL_H * scale) in
  let dpr :=
    max 1 (min #3 (if Qc_eq_bool devicePixelRatio 0 then 1
                   else devicePixelRatio)) in
  Canvas.make cssW cssH (floor (LOGICAL_W * dpr)) (floor (LOGICAL_H * dpr)) dpr.

(** ** Spawning

    [Math.random] is an oracle: the [n]-th call of a run returns [rnd n],
    a number of the interval from 0 (included) to 1 (excluded). *)

Section Simulation.

Variable rnd : nat -> num.

Definition random (s : State) : num * State :=
  (rnd (randCalls s), set_randCalls (S (randCalls s)) s).

Definition makeGate (x y w h : num) (op : GateOp.t) : Gate.t :=
  Gate.make (Rect.make x y w h) op false.

Definition spawnGatePair (y : num) (s : State) : State :=
  let (r1, s) := random s in
  let a := nth (Z.to_nat (toInt32 (r1 * #(Z.of_nat (List.length ops))))) ops
               (GateOp.make add #5 "+10") in
  let (r2, s) := random s in
  let b := nth (Z.to_nat (toInt32 (r2 * #(Z.of_nat (List.length ops))))) ops
               (GateOp.make add #5 "+10") in
  let gateW := #130 in
  let gateH := #44 in
  let verticalSpacing := gateH + #120 in
  let s :=
    set_gates
      (gates s ++ [makeGate (LOGICAL_W * frac 1 4 - gateW / #2) y gateW gateH a])
      s in
  set_gates
    (gates s ++
     [makeGate (LOGICAL_W * frac 3 4 - gateW / #2) (y - verticalSpacing)
               gateW gateH b])
    s.

Definition spawnZombies (y : num) (s : State) : State :=
  let earlyWave := 6%Z in
  let (r, s) := random s in
  let randomBonus := Z.add 3 (toInt32 (r * #6)) in
  let intensity := floorZ (dist s / #800) in
  let count := Z.min 40 (earlyWave + randomBonus + intensity) in
  fold_left
    (fun (s : State) (i : nat) =>
       let (r, s) := random s in
       let zx := #40 + r * (LOGICAL_W - #80) in
       set_zombies
         (zombies s ++
          [Enemy.make
             (Rect.make (zx - #18) (y + #(Z.of_nat i) * #40) #36 #36)
             (#12 + floor (dist s / #200) * #8)
             (#3 + floor (dist s / #1000))])
         s)
    (seq 0 (Z.to_nat count)) s.

Definition spawnObstacle (y : num) (s : State) : State :=
  let hp := OBSTACLE_HP_BASE + floor (dist s / #300) * OBSTACLE_HP_PER_DIST in
  let availableX := max 0 (LOGICAL_W - OBSTACLE_WIDTH - #60) in
  let (r, s) := random s in
  let x := #30 + r * availableX in
  set_obstacles
    (obstacles s ++
     [Obstacle.make (Rect.make x y OBSTACLE_WIDTH OBSTACLE_HEIGHT) hp hp])
    s.

Definition mkAttackItem (centerX topY bonus : num) : Item.t :=
  Item.make
    (Rect.make (centerX - ATTACK_ITEM_SIZE / #2) topY
               ATTACK_ITEM_SIZE ATTACK_ITEM_SIZE)
    attack ATTACK_ITEM_FALL_SPEED bonus false.

Definition spawnAttackItem (centerX topY bonus : num) (s : State) : State :=
  set_items (items s ++ [mkAttackItem centerX topY bonus]) s.

Definition spawnBoss (s : State) : State :=
  let hp := #200 + floor (dist s / #400) * #50 in
  let availableWidth :=
    max 0 (LOGICAL_W - BOSS_SPAWN_MARGIN * #2 - BOSS_WIDTH) in
  let (r, s) := random s in
  let x := BOSS_SPAWN_MARGIN + r * availableWidth in
  let s :=
    set_bosses
      (bosses s ++
       [Enemy.make (Rect.make x (- BOSS_HEIGHT - #120) BOSS_WIDTH BOSS_HEIGHT)
                   hp (#12 + floor (dist s / #800))])
      s in
  set_nextBossDist (nextBossDist s + BOSS_INTERVAL) s.

(** [while (state.dist >= state.nextBossDist) spawnBoss();] with the
    number of iterations left as the decreasing argument. *)
Fixpoint bossLoop (fuel : nat) (s : State) : State :=
  match fuel with
  | O => s
  | S fuel' =>
      if nextBossDist s <=? dist s then bossLoop fuel' (spawnBoss s) else s
  end.

(** Thresholds at or below [dist]: each iteration moves the threshold up
    by [BOSS_INTERVAL]. *)
Definition bossThresholdsCrossed (s : State) : nat :=
  if nextBossDist s <=? dist s
  then Z.to_nat (Z.add (floorZ ((dist s - nextBossDist s) / BOSS_INTERVAL)) 1)
  else O.

Definition ensureBossSpawn (s : State) : State :=
  bossLoop (bossThresholdsCrossed s) s.

Definition spawnSegment (s : State) : State :=
  let segLen := 240%Z in
  let s := set_lastSeg (lastSeg s + 1) s in
  let y := #(-800) - #(lastSeg s) * #segLen in
  let mod3 := Z.rem (lastSeg s) 3 in
  if (mod3 =? 0)%Z then spawnGatePair y s
  else if (mod3 =? 1)%Z then spawnZombies y s
  else spawnObstacle y s.

(** [while (state.lastSeg < needSeg) { ... }], [needSeg] being computed
    once before the loop. *)
Fixpoint spawnLoop (fuel : nat) (needSeg : Z) (s : State) : State :=
  match fuel with
  | O => s
  | S fuel' =>
      if (lastSeg s <? needSeg)%Z then spawnLoop fuel' needSeg (spawnSegment s)
      else s
  end.

Definition ensureSpawns (s : State) : State :=
  let segLen := #240 in
  let needSeg := floorZ ((dist s + #1400) / segLen) in
  spawnLoop (Z.to_nat (needSeg - lastSeg s)) needSeg s.

Definition spawnFloater (text : FloaterText) (x y : num) (s : State) : State :=
  set_floaters (floaters s ++ [Floater.make text x y #(-30) (frac 9 10)]) s.

(** ** Input *)


Definition onPointerDown (logicalX : num) (s : State) : State :=
  set_targetX logicalX (set_pointerDown true s).

Definition onPointerMove (logicalX : num) (s : State) : State :=
  if negb (pointerDown s) then s else set_targetX logicalX s.

Definition onPointerUp (s : State) : State := set_pointerDown false s.

(** ** The simulation step

    A [for ... of] loop whose body updates the element it visits and the
    world becomes [forEach]: the elements are visited in order, each with
    the world the previous iterations left. *)

Fixpoint forEach {A : Type} (body : A -> State -> A * State)
    (l : list A) (s : State) : list A * State :=
  match l with
  | [] => ([], s)
  | a :: rest =>
      let (a', s) := body a s in
      let (rest', s) := forEach body rest s in
      (a' :: rest', s)
  end.

Definition playerCenterX (s : State) : num :=
  Rect.x (player s) + Rect.w (player s) / #2.

Definition hurtPlayer (amount : num) (s : State) : State :=
  if negb (alive s) || (amount <=? 0) then s
  else
    let before := scoreValue s in
    let s := set_scoreValue (max 0 (scoreValue s - amount)) s in
    let delta := scoreValue s - before in
    let s :=
      spawnFloater (SignedDelta delta) (playerCenterX s) (Rect.y (player s)) s in
    if scoreValue s <=? 0 then set_alive false s else s.

(** Body of the scroll loop over [state.bosses]. *)
Definition scrollBoss (dy : num) (boss : Boss) (s : State) : Boss * State :=
  let boss := Enemy.setY (Rect.y (Enemy.rect boss) + dy) boss in
  if (LOGICAL_H <=? Rect.y (Enemy.rect boss) + Rect.h (Enemy.rect boss))
     && alive s
  then (boss, set_alive false s)
  else (boss, s).

(** Body of the gate-crossing loop. *)
Definition crossGate (g : Gate.t) (s : State) : Gate.t * State :=
  if Gate.used g then (g, s)
  else if aabb (player s) (Gate.rect g) then
    let g := Gate.setUsed true g in
    let before := scoreValue s in
    let s := set_scoreValue (applyGate (scoreValue s) (Gate.op g)) s in
    let delta := scoreValue s - before in
    let s :=
      spawnFloater (SignedDelta delta) (playerCenterX s) (Rect.y (player s)) s in
    (g, s)
  else (g, s).

Definition shootAtNearest (dt : num) (s : State) : State :=
  let s := set_shootCooldown (shootCooldown s - dt) s in
  if 0 <? shootCooldown s then s
  else
    let segments :=
      getPlayerSegmentPositions (player s) (getPlayerCount (scoreValue s)) in
    let bulletDamage := #5 + attackBonus s in
    let s :=
      fold_left
        (fun (s : State) (segment : num) =>
           set_bullets
             (bullets s ++
              [Bullet.make
                 (Rect.make (segment + #PLAYER_SEGMENT_WIDTH / #2 - #3)
                            (Rect.y (player s) - #10) #6 #10)
                 0 #(-520) (frac 11 10) bulletDamage])
             s)
        segments s in
    set_shootCooldown (frac 2 25) s.

Definition advanceBullet (dt : num) (b : Bullet.t) : Bullet.t :=
  let b := Bullet.setLife (Bullet.life b - dt) b in
  let b := Bullet.setX (Rect.x (Bullet.rect b) + Bullet.vx b * dt) b in
  Bullet.setY (Rect.y (Bullet.rect b) + Bullet.vy b * dt) b.

(** The loop over one enemy group for one bullet; the flag is [hit]. *)
Fixpoint hitGroup (group : list Enemy.t) (b : Bullet.t) (s : State)
  : list Enemy.t * Bullet.t * State * bool :=
  match group with
  | [] => ([], b, s, false)
  | enemy :: rest =>
      if (Enemy.hp enemy <=? 0) || negb (aabb (Bullet.rect b) (Enemy.rect enemy))
      then
        let '(rest', b, s, hit) := hitGroup rest b s in
        (enemy :: rest', b, s, hit)
      else
        let enemy := Enemy.setHp (Enemy.hp enemy - Bullet.dmg b) enemy in
        let b := Bullet.setLife 0 b in
        let s :=
          spawnFloater (MinusDmg (Bullet.dmg b))
            (Rect.x (Enemy.rect enemy) + Rect.w (Enemy.rect enemy) / #2)
            (Rect.y (Enemy.rect enemy)) s in
        (enemy :: rest, b, s, true)
  end.

Definition obstacleBonus (obstacle : Obstacle.t) : num :=
  max 1 (min MAX_ATTACK_BONUS (floor (Obstacle.maxHp obstacle / #30))).

(** The loop over [state.obstacles] for one bullet. *)
Fixpoint hitObstacles (obs : list Obstacle.t) (b : Bullet.t) (s : State)
  : list Obstacle.t * Bullet.t * State :=
  match obs with
  | [] => ([], b, s)
  | obstacle :: rest =>
      if (Obstacle.hp obstacle <=? 0)
         || negb (aabb (Bullet.rect b) (Obstacle.rect obstacle))
      then
        let '(rest', b, s) := hitObstacles rest b s in
        (obstacle :: rest', b, s)
      else
        let obstacle :=
          Obstacle.setHp (Obstacle.hp obstacle - Bullet.dmg b) obstacle in
        let b := Bullet.setLife 0 b in
        let r := Obstacle.rect obstacle in
        let s :=
          spawnFloater (MinusDmg (Bullet.dmg b))
            (Rect.x r + Rect.w r / #2) (Rect.y r) s in
        let s :=
          if Obstacle.hp obstacle <=? 0 then
            spawnAttackItem (Rect.x r + Rect.w r / #2) (Rect.y r + Rect.h r)
              (obstacleBonus obstacle) s
          else s in
        (obstacle :: rest, b, s)
  end.

(** Body of the collision loop over [state.bullets]: the enemy groups
    [state.zombies] then [state.bosses], then the obstacles. *)
Definition collideBullet (b : Bullet.t) (s : State) : Bullet.t * State :=
  if Bullet.life b <=? 0 then (b, s)
  else
    let '(zs, b, s, hit) := hitGroup (zombies s) b s in
    let s := set_zombies zs s in
    if hit then (b, s)
    else
      let '(bs, b, s, hit) := hitGroup (bosses s) b s in
      let s := set_bosses bs s in
      if hit then (b, s)
      else
        let '(obs, b, s) := hitObstacles (obstacles s) b s in
        (b, set_obstacles obs s).

(** The player against the obstacles; the loop stops at the first
    iteration that finds the player dead. *)
Fixpoint touchObstacles (obs : list Obstacle.t) (s : State) : State :=
  match obs with
  | [] => s
  | obstacle :: rest =>
      if negb (alive s) then s
      else if Obstacle.hp obstacle <=? 0 then touchObstacles rest s
      else if aabb (player s) (Obstacle.rect obstacle)
           then touchObstacles rest (hurtPlayer #1 s)
           else touchObstacles rest s
  end.

(** The player against the zombies, then against the bosses. *)
Definition touchEnemy (s : State) (e : Enemy.t) : State :=
  if Enemy.hp e <=? 0 then s
  else if aabb (player s) (Enemy.rect e) then hurtPlayer (Enemy.damage e) s
  else s.

(** Body of the loop over [state.items]. *)
Definition collectItem (dt dy : num) (item : Item.t) (s : State)
  : Item.t * State :=
  let item := Item.setY (Rect.y (Item.rect item) + dy) item in
  let item := Item.setY (Rect.y (Item.rect item) + Item.vy item * dt) item in
  if Item.collected item then (item, s)
  else if negb (aabb (player s) (Item.rect item)) then (item, s)
  else
    let before := attackBonus s in
    let s :=
      set_attackBonus (min MAX_ATTACK_BONUS (attackBonus s + Item.bonus item)) s in
    let gained := attackBonus s - before in
    let s :=
      if 0 <? gained then
        spawnFloater (AttackPlus gained)
          (Rect.x (Item.rect item) + Rect.w (Item.rect item) / #2)
          (Rect.y (Item.rect item)) s
      else s in
    (Item.setCollected true item, s).

Definition advanceFloater (dt : num) (f : Floater.t) : Floater.t :=
  let f := Floater.setLife (Floater.life f - dt) f in
  Floater.setY (Floater.y f + Floater.vy f * dt) f.

(** The phases of [update], in the order of the source. *)

Definition resizePlayer (s : State) : State :=
  let playerCount := getPlayerCount (scoreValue s) in
  let crowdWidth := max #MIN_PLAYER_WIDTH #(getCrowdWidth playerCount) in
  let playerCenterX := Rect.x (player s) + Rect.w (player s) / #2 in
  let s := set_player (Rect.setW crowdWidth (player s)) s in
  set_player (Rect.setX (playerCenterX - crowdWidth / #2) (player s)) s.

Definition steerPlayer (s : State) : State :=
  let desired :=
    clamp (targetX s - Rect.w (player s) / #2) #18
          (LOGICAL_W - Rect.w (player s) - #18) in
  set_player (Rect.setX (lerp (Rect.x (player s)) desired (frac 9 50)) (player s)) s.

Definition scroll (dy : num) (s : State) : State :=
  let s :=
    set_gates
      (map (fun g => Gate.setY (Rect.y (Gate.rect g) + dy) g) (gates s)) s in
  let s :=
    set_zombies
      (map (fun z => Enemy.setY (Rect.y (Enemy.rect z) + dy) z) (zombies s)) s in
  let (bs, s) := forEach (scrollBoss dy) (bosses s) s in
  let s := set_bosses bs s in
  set_obstacles
    (map (fun o => Obstacle.setY (Rect.y (Obstacle.rect o) + dy) o) (obstacles s))
    s.

Definition crossGates (s : State) : State :=
  let (gs, s) := forEach crossGate (gates s) s in
  set_gates gs s.

Definition advanceBullets (dt : num) (s : State) : State :=
  set_bullets (map (advanceBullet dt) (bullets s)) s.

Definition collideBullets (s : State) : State :=
  let (bs, s) := forEach collideBullet (bullets s) s in
  set_bullets bs s.

Definition touchHazards (s : State) : State :=
  let s := touchObstacles (obstacles s) s in
  let s := fold_left touchEnemy (zombies s) s in
  fold_left touchEnemy (bosses s) s.

Definition collectItems (dt dy : num) (s : State) : State :=
  let (its, s) := forEach (collectItem dt dy) (items s) s in
  set_items its s.

Definition advanceFloaters (dt : num) (s : State) : State :=
  set_floaters (map (advanceFloater dt) (floaters s)) s.

Definition keepGate (g : Gate.t) : bool :=
  (Rect.y (Gate.rect g) <? LOGICAL_H + #100) && negb (Gate.used g).
Definition keepZombie (z : Zombie) : bool :=
  (Rect.y (Enemy.rect z) <? LOGICAL_H + #100) && (0 <? Enemy.hp z).
Definition keepBoss (boss : Boss) : bool :=
  (Rect.y (Enemy.rect boss) <? LOGICAL_H + #200) && (0 <? Enemy.hp boss).
Definition keepObstacle (obs : Obstacle.t) : bool :=
  (Rect.y (Obstacle.rect obs) <? LOGICAL_H + #200) && (0 <? Obstacle.hp obs).
Definition keepItem (item : Item.t) : bool :=
  (Rect.y (Item.rect item) <? LOGICAL_H + #80) && negb (Item.collected item).
Definition keepBullet (b : Bullet.t) : bool :=
  (0 <? Bullet.life b) && (#(-50) <? Rect.y (Bullet.rect b)).
Definition keepFloater (f : Floater.t) : bool := 0 <? Floater.life f.

Definition prune (s : State) : State :=
  let s := set_gates (filter keepGate (gates s)) s in
  let s := set_zombies (filter keepZombie (zombies s)) s in
  let s := set_bosses (filter keepBoss (bosses s)) s in
  let s := set_obstacles (filter keepObstacle (obstacles s)) s in
  let s := set_items (filter keepItem (items s)) s in
  let s := set_bullets (filter keepBullet (bullets s)) s in
  set_floaters (filter keepFloater (floaters s)) s.

Definition publishHud (dt : num) (s : State) : State :=
  let s := set_hudAccum (hudAccum s + dt) s in
  if frac 1 10 <=? hudAccum s then
    let s := set_hudAccum 0 s in
    set_hud (HudState.make (scoreValue s) (floor (dist s)) (alive s)) s
  else s.

Definition update (dt : num) (s : State) : State :=
  if negb (alive s) then s
  else
    let s := resizePlayer s in
    let s := set_time (time s + dt) s in
    let s := set_dist (dist s + speed s * dt) s in
    let s := steerPlayer s in
    let dy := speed s * dt in
    let s := scroll dy s in
    let s := crossGates s in
    let s := shootAtNearest dt s in
    let s := advanceBullets dt s in
    let s := collideBullets s in
    let s := touchHazards s in
    let s := collectItems dt dy s in
    let s := advanceFloaters dt s in
    let s := prune s in
    let s := ensureSpawns s in
    let s := ensureBossSpawn s in
    publishHud dt s.

(** ** The driver *)

(** The [dt] that [loop] hands to [update]. *)
Definition frameDt (now last : num) : num :=
  min (frac 33 1000) ((now - last) / #1000).

(** The world [runGame] builds, before its first call of [ensureSpawns]. *)
Definition initialState : State :=
  {| time := 0; dist := 0; speed := #180; scoreValue := #1; alive := true;
     targetX := LOGICAL_W / #2; pointerDown := false;
     gates := []; zombies := []; bosses := []; obstacles := []; items := [];
     bullets := []; floaters := [];
     shootCooldown := 0; lastSeg := (-1)%Z; nextBossDist := BOSS_INTERVAL;
     attackBonus := 0;
     player :=
       Rect.make (LOGICAL_W / #2 - #16) (LOGICAL_H - #120) #32 #40;
     hudAccum := 0;
     hud := HudState.make #1 0 true;
     randCalls := O |}.

Definition startState : State := ensureSpawns initialState.

(** The worlds a run can be in: the start, then any sequence of frames
    and pointer events. *)
Inductive reachable : State -> Prop :=
| reach_start : reachable startState
| reach_update dt s : reachable s -> reachable (update dt s)
| reach_down lx s : reachable s -> reachable (onPointerDown lx s)
| reach_move lx s : reachable s -> reachable (onPointerMove lx s)
| reach_up s : reachable s -> reachable (onPointerUp s).

End Simulation.

(** * Vocabulary of the statements

    Named values, views of the world and reference functions that the
    properties below are stated with. *)

(** The four gate operations, by name. *)
Definition opAdd5 : GateOp.t := GateOp.make add #5 "+10".

Definition opMul2 : GateOp.t := GateOp.make mul #2 "×2".

Definition opSub5 : GateOp.t := GateOp.make sub #5 "-5".

Definition opDiv2 : GateOp.t := GateOp.make div #2 "÷2".

(** The value a gate computes before the clamp. *)
Definition gateRaw (v : num) (op : GateOp.t) : num :=
  match GateOp.type op with
  | add => v + GateOp.amount op
  | sub => v - GateOp.amount op
  | mul => v * GateOp.amount op
  | div => floor (v / GateOp.amount op)
  end.

(** The counts of the range 1..20, for checks by enumeration. *)
Definition counts : list Z := map Z.of_nat (seq 1 20).

(** The width comparison for one pair of counts, the pair 16, 17 set
    aside. *)
Definition widthStepOk (m n : Z) : bool :=
  implb ((m <? n)%Z && negb ((m =? 16)%Z && (n =? 17)%Z))
        (getCrowdWidth m <? getCrowdWidth n)%Z.

(** The world of the start (score 1), its spawn cursor where the first
    [ensureSpawns] leaves it, the pointer at 90, and one unused gate of
    the left third, carrying "-5", level with the player. *)
Definition gateOverPlayer : Gate.t := makeGate #25 #500 #130 #44 opSub5.

Definition worldAtGate : State :=
  onPointerDown #90 (set_gates [gateOverPlayer] (set_lastSeg 5 initialState)).

(** Where the lane entities are, with the clocks and cursors of the
    spawner. *)
Definition posView (s : State) :=
  (time s, dist s, speed s, lastSeg s, nextBossDist s,
   map Gate.rect (gates s), map Enemy.rect (zombies s),
   map Enemy.rect (bosses s), map Obstacle.rect (obstacles s)).

(** The attack bonus and the items that can raise it. *)
Definition bonusView (s : State) := (attackBonus s, items s).

Definition bothViews (s : State) := (posView s, bonusView s).

(** The first element of [l] that satisfies [p], with what stands before
    and after it. *)
Fixpoint splitFirst {A : Type} (p : A -> bool) (l : list A)
  : option (list A * A * list A) :=
  match l with
  | [] => None
  | a :: rest =>
      if p a then Some ([], a, rest)
      else
        match splitFirst p rest with
        | Some (pre, t, post) => Some (a :: pre, t, post)
        | None => None
        end
  end.

(** What the collision loops test an entity for: hp above 0 and an
    overlap with the bullet. *)
Definition enemyHit (b : Bullet.t) (e : Enemy.t) : bool :=
  (0 <? Enemy.hp e) && aabb (Bullet.rect b) (Enemy.rect e).

Definition obstacleHit (b : Bullet.t) (o : Obstacle.t) : bool :=
  (0 <? Obstacle.hp o) && aabb (Bullet.rect b) (Obstacle.rect o).

(** The entity after the hit, and the floater the hit emits. *)
Definition damageEnemy (b : Bullet.t) (e : Enemy.t) : Enemy.t :=
  Enemy.setHp (Enemy.hp e - Bullet.dmg b) e.

Definition damageObstacle (b : Bullet.t) (o : Obstacle.t) : Obstacle.t :=
  Obstacle.setHp (Obstacle.hp o - Bullet.dmg b) o.

Definition enemyFloater (b : Bullet.t) (e : Enemy.t) : Floater.t :=
  Floater.make (MinusDmg (Bullet.dmg b))
    (Rect.x (Enemy.rect e) + Rect.w (Enemy.rect e) / #2)
    (Rect.y (Enemy.rect e)) #(-30) (frac 9 10).

Definition obstacleFloater (b : Bullet.t) (o : Obstacle.t) : Floater.t :=
  Floater.make (MinusDmg (Bullet.dmg b))
    (Rect.x (Obstacle.rect o) + Rect.w (Obstacle.rect o) / #2)
    (Rect.y (Obstacle.rect o)) #(-30) (frac 9 10).

(** The attack item an obstacle drops: centred under its bottom edge. *)
Definition itemFor (o : Obstacle.t) : Item.t :=
  mkAttackItem
    (Rect.x (Obstacle.rect o) + Rect.w (Obstacle.rect o) / #2)
    (Rect.y (Obstacle.rect o) + Rect.h (Obstacle.rect o))
    (obstacleBonus o).

(** The outcome of one bullet, told by what it finds: the first zombie it
    can hit, else the first boss, else the first obstacle. *)
Definition collideOutcome (b : Bullet.t) (s : State) : Bullet.t * State :=
  if Bullet.life b <=? 0 then (b, s)
  else
    match splitFirst (enemyHit b) (zombies s) with
    | Some (pre, z, post) =>
        (Bullet.setLife 0 b,
         set_zombies (pre ++ damageEnemy b z :: post)
           (set_floaters (floaters s ++ [enemyFloater b z]) s))
    | None =>
        match splitFirst (enemyHit b) (bosses s) with
        | Some (pre, boss, post) =>
            (Bullet.setLife 0 b,
             set_bosses (pre ++ damageEnemy b boss :: post)
               (set_floaters (floaters s ++ [enemyFloater b boss]) s))
        | None =>
            match splitFirst (obstacleHit b) (obstacles s) with
            | Some (pre, o, post) =>
                let s := set_floaters (floaters s ++ [obstacleFloater b o]) s in
                let s :=
                  if Obstacle.hp (damageObstacle b o) <=? 0
                  then set_items (items s ++ [itemFor o]) s
                  else s in
                (Bullet.setLife 0 b,
                 set_obstacles (pre ++ damageObstacle b o :: post) s)
            | None => (b, s)
            end
        end
    end.

(** How many entities changed hp between two versions of a collection. *)
Fixpoint hpChanged (l l' : list num) : nat :=
  match l, l' with
  | a :: r, a' :: r' => (if Qc_eq_bool a a' then 0 else 1) + hpChanged r r'
  | _, _ => 0
  end.

(** The same over the zombies, bosses and obstacles of two worlds. *)
Definition damaged (s s' : State) : nat :=
  hpChanged (map Enemy.hp (zombies s)) (map Enemy.hp (zombies s'))
  + hpChanged (map Enemy.hp (bosses s)) (map Enemy.hp (bosses s'))
  + hpChanged (map Obstacle.hp (obstacles s)) (map Obstacle.hp (obstacles s')).

(** The world of the counterexample: a bullet over two zombies that both
    overlap it, the first one already at hp 0. *)
Definition bulletOverTwo : Bullet.t :=
  Bullet.make (Rect.make #100 #100 #6 #10) 0 #(-520) 1 #5.

Definition deadZombie : Zombie := Enemy.make (Rect.make #90 #95 #36 #36) 0 #3.

Definition liveZombie : Zombie := Enemy.make (Rect.make #95 #90 #36 #36) #12 #3.

Definition worldTwoZombies : State :=
  set_zombies [deadZombie; liveZombie] (set_lastSeg 5 initialState).

(** The items owed for the obstacles that went from hp above 0 to hp 0 or
    less between two versions of the collection: one per such obstacle. *)
Fixpoint drops (os os' : list Obstacle.t) : list Item.t :=
  match os, os' with
  | o :: r, o' :: r' =>
      (if (0 <? Obstacle.hp o) && (Obstacle.hp o' <=? 0)
       then [itemFor o] else [])
      ++ drops r r'
  | _, _ => []
  end.

(** What a collision phase may do to one obstacle: never move it, never
    touch its [maxHp], and leave it alone once its hp is 0 or less. *)
Definition obsStep (o o' : Obstacle.t) : Prop :=
  Obstacle.rect o' = Obstacle.rect o
  /\ Obstacle.maxHp o' = Obstacle.maxHp o
  /\ (Obstacle.hp o <= 0 -> o' = o).

(** An item after the two moves that open the body of the item loop. *)
Definition fallItem (dt dy : num) (item : Item.t) : Item.t :=
  let item := Item.setY (Rect.y (Item.rect item) + dy) item in
  Item.setY (Rect.y (Item.rect item) + Item.vy item * dt) item.

(** The invariant: the bonus is in range and every item on the lane
    carries a bonus of at least 1. *)
Definition bonusOk (s : State) : Prop :=
  0 <= attackBonus s
  /\ attackBonus s <= MAX_ATTACK_BONUS
  /\ Forall (fun it => 1 <= Item.bonus it) (items s).

(** The step of a living player up to the prune, as one function. *)
Definition simulate (dt : num) (s : State) : State :=
  let s1 := resizePlayer s in
  let s2 := set_dist (dist s1 + speed s1 * dt) (set_time (time s1 + dt) s1) in
  let s3 := steerPlayer s2 in
  let dy := speed s3 * dt in
  let s4 := advanceBullets dt (shootAtNearest dt (crossGates (scroll dy s3))) in
  advanceFloaters dt (collectItems dt dy (touchHazards (collideBullets s4))).

(** A world with the bonus at the cap and one uncollected item that the
    next step brings onto the player. *)
Definition itemOverPlayer : Item.t :=
  Item.make (Rect.make #170 #500 #22 #22) attack #140 #2 false.

Definition worldAtCap : State :=
  set_items [itemOverPlayer] (set_attackBonus MAX_ATTACK_BONUS initialState).


(** What the segment spawner reads and writes of the cursors. *)
Definition cursorView (s : State) := (dist s, nextBossDist s).

(** A world a run can be in between two frames: the pointer at 90, the
    score at 1, a live zombie over the player. *)
Definition zombieOverPlayer : Zombie :=
  Enemy.make (Rect.make #150 #530 #36 #36) #12 #3.

Definition worldZombieContact : State :=
  onPointerDown #90 (set_zombies [zombieOverPlayer] (set_lastSeg 5 initialState)).

(** The [desired] of the steering step: where the pointer asks the left
    edge of the crowd to be, kept inside the lane margins. *)
Definition desiredX (s : State) : num :=
  clamp (targetX s - Rect.w (player s) / #2) #18
        (LOGICAL_W - Rect.w (player s) - #18).


(** The bullet [shootAtNearest] fires from the segment whose left edge is
    at [segX], for a player rectangle [p] and a damage value. *)
Definition bulletAt (p : Rect.t) (dmg segX : num) : Bullet.t :=
  Bullet.make
    (Rect.make (segX + #PLAYER_SEGMENT_WIDTH / #2 - #3) (Rect.y p - #10) #6 #10)
    0 #(-520) (frac 11 10) dmg.

(** Where [getPlayerSegmentPositions] starts the row of segments. *)
Definition segmentStartX (p : Rect.t) (count : Z) : num :=
  Rect.x p + max 0 ((Rect.w p - #(getCrowdWidth count)) / #2).

(** The floater [hurtPlayer] and the gate loop emit for a score change. *)
Definition scoreFloater (delta : num) (s : State) : Floater.t :=
  Floater.make (SignedDelta delta) (playerCenterX s) (Rect.y (player s))
    #(-30) (frac 9 10).

(** A boss moved down by [dy] has its bottom edge at or below the lane's
    bottom edge. *)
Definition reachesBottom (dy : num) (boss : Boss) : bool :=
  LOGICAL_H <=? Rect.y (Enemy.rect boss) + dy + Rect.h (Enemy.rect boss).

(** [s'] differs from [s] at most in the score, the alive flag and the
    floaters. *)
Definition onlyScoreChanged (s s' : State) : Prop :=
  s' = set_floaters (floaters s')
         (set_alive (alive s') (set_scoreValue (scoreValue s') s)).

(** What contact damage may do to the world: touch only the score, the
    alive flag and the floaters; leave a dead player's world as it is;
    never raise a score that is not negative nor take it below 0; and
    kill only at a score of 0. *)
Definition hurtStep (s s' : State) : Prop :=
  onlyScoreChanged s s'
  /\ (alive s = false -> s' = s)
  /\ (0 <= scoreValue s -> 0 <= scoreValue s' /\ scoreValue s' <= scoreValue s)
  /\ (alive s = true -> alive s' = false -> scoreValue s' <= 0).

(** The score and the alive flag. *)
Definition lifeView (s : State) := (scoreValue s, alive s).

(** A boss ten units above the bottom edge of the lane. *)
Definition bossAtBottom : Boss := Enemy.make (Rect.make #40 #540 #90 #90) #200 #12.


(** What [Math.random] promises: every draw is in [0, 1). *)
Definition unitRandom (rnd : nat -> num) : Prop :=
  forall k : nat, 0 <= rnd k /\ rnd k < 1.

(** The zombie of row [i] of a wave spawned at [y] and distance [d], its
    column drawn as [r]. *)
Definition waveZombie (r y d : num) (i : nat) : Zombie :=
  Enemy.make
    (Rect.make (#40 + r * (LOGICAL_W - #80) - #18) (y + #(Z.of_nat i) * #40)
               #36 #36)
    (#12 + floor (d / #200) * #8)
    (#3 + floor (d / #1000)).

(** The size of a wave: 6, a draw of 3..8, one more per 800 of distance,
    at most 40. *)
Definition waveSize (r d : num) : Z :=
  Z.min 40 (6 + Z.add 3 (toInt32 (r * #6)) + floorZ (d / #800)).

(** Draws that are all one half. *)
Definition halfRandom : nat -> num := fun _ => frac 1 2.

(** A rectangle moved down by [dy]. *)
Definition shiftRect (dy : num) (r : Rect.t) : Rect.t :=
  Rect.setY (Rect.y r + dy) r.

(** [s'] has what [s] has and possibly more gates, zombies and obstacles
    behind them; bosses, items, bullets, floaters and the player are the
    same. *)
Definition appended (s s' : State) : Prop :=
  (exists g, gates s' = gates s ++ g)
  /\ (exists z, zombies s' = zombies s ++ z)
  /\ (exists o, obstacles s' = obstacles s ++ o)
  /\ bosses s' = bosses s /\ items s' = items s /\ bullets s' = bullets s
  /\ floaters s' = floaters s /\ player s' = player s.

(** The segment index the lookahead of 1400 asks for. *)
Definition needSeg (s : State) : Z := floorZ ((dist s + #1400) / #240).

(** Where segment [k] is spawned. *)
Definition segmentY (k : Z) : num := #(-800) - #k * #240.

(** What only the top level of [update] writes: the clock, the distance,
    the speed and the HUD with its accumulator. *)
Definition outerView (s : State) :=
  (time s, dist s, speed s, hudAccum s, hud s).

(** The snapshot [update] hands to [setHud]. *)
Definition hudSnapshot (s : State) : HudState.t :=
  HudState.make (scoreValue s) (floor (dist s)) (alive s).

(** The start of a run with every draw one half, after one step of six
    seconds: the last row of the first wave is four units over the
    player, the score is 1 and the HUD has just been published. *)
Definition worldBeforeContact : State :=
  update halfRandom #6 (startState halfRandom).

(** A gate the crossing loop acts on: not used yet and under the player
    rectangle [p]. *)
Definition gateTouched (p : Rect.t) (g : Gate.t) : bool :=
  negb (Gate.used g) && aabb p (Gate.rect g).

(** A number with no fractional part. *)
Definition integral (q : num) : Prop := exists z : Z, q = #z.

(** What the score is computed from, beside itself: the operations of the
    gates and the contact damage of zombies and bosses; and the HUD that
    shows it. *)
Definition restView (s : State) :=
  (map Gate.op (gates s), map Enemy.damage (zombies s),
   map Enemy.damage (bosses s), hud s).

Definition scoreView (s : State) := (scoreValue s, restView s).

(** Every number that reaches the score or the HUD is whole. *)
Definition wholeScores (s : State) : Prop :=
  integral (scoreValue s)
  /\ Forall (fun op => In op ops) (map Gate.op (gates s))
  /\ Forall integral (map Enemy.damage (zombies s))
  /\ Forall integral (map Enemy.damage (bosses s))
  /\ integral (HudState.value (hud s))
  /\ integral (HudState.dist (hud s)).

(** The player rectangle and what the pointer handlers write. *)
Definition inputView (s : State) := (player s, targetX s, pointerDown s).

(** Where the crowd stands: at the player's row, 32 to 276 wide, its
    centre at least 34 from either side of the lane. *)
Definition playerInLane (p : Rect.t) : Prop :=
  Rect.y p = #520 /\ Rect.h p = #40
  /\ #32 <= Rect.w p /\ Rect.w p <= #276
  /\ #34 <= Rect.x p + Rect.w p / #2
  /\ Rect.x p + Rect.w p / #2 <= #326.

(** The world a step hands to its bullet collisions: after the resize,
    the clock, the steering, the scroll, the gates, the firing and the
    bullets' move. *)
Definition beforeCollisions (dt : num) (s : State) : State :=
  let s1 := resizePlayer s in
  let s2 := set_dist (dist s1 + speed s1 * dt) (set_time (time s1 + dt) s1) in
  let s3 := steerPlayer s2 in
  advanceBullets dt (shootAtNearest dt (crossGates (scroll (speed s3 * dt) s3))).

(** A world with one obstacle almost destroyed and one bullet that the
    next step of 1/60 brings onto it. *)
Definition obstacleNearEnd : Obstacle.t :=
  Obstacle.make (Rect.make #150 #400 #56 #56) #5 #32.

Definition bulletBelowObstacle : Bullet.t :=
  Bullet.make (Rect.make #170 #460 #6 #10) 0 #(-520) 1 #5.

Definition worldLastHit : State :=
  set_bullets [bulletBelowObstacle]
    (set_obstacles [obstacleNearEnd] (set_lastSeg 5 initialState)).

(** The same bullet already on the obstacle, for the collision phase
    alone. *)
Definition worldOnObstacle : State :=
  set_bullets [Bullet.make (Rect.make #170 #440 #6 #10) 0 #(-520) 1 #5]
    (set_obstacles [obstacleNearEnd] (set_lastSeg 5 initialState)).



(** * Properties *)

(** ** Arithmetic of [num] *)

(** Goals over [num] are sent to [Q], where [lra] decides them. *)
Ltac qc_unfold :=
  unfold floor, ofZ, frac, Qcle, Qclt, Qcminus, Qcdiv, Qcplus,
    Qcmult, Qcopp, Qcinv, Q2Qc;
  cbn [this];
  repeat rewrite Qred_correct.

Ltac inj_consts :=
  repeat match goal with
    | |- context [inject_Z (Zpos ?p)] =>
        change (inject_Z (Zpos p)) with (Qmake (Zpos p) 1)
    | |- context [inject_Z (Zneg ?p)] =>
        change (inject_Z (Zneg p)) with (Qmake (Zneg p) 1)
    | |- context [inject_Z Z0] => change (inject_Z Z0) with (Qmake 0 1)
    end.


Ltac qc_revert :=
  repeat match goal with
    | H : Qcle _ _ |- _ => revert H
    | H : Qclt _ _ |- _ => revert H
    | H : Qle _ _ |- _ => revert H
    | H : Qlt _ _ |- _ => revert H
    end.

Ltac qc_lra :=
  try apply Qc_is_canon;
  qc_revert; qc_unfold; inj_consts; intros; lra.

Lemma leb_le (a b : num) : (a <=? b) = true <-> a <= b.
Proof. unfold leb, Qcle. apply Qle_bool_iff. Qed.

Lemma leb_gt (a b : num) : (a <=? b) = false <-> b < a.
Proof.
  unfold leb, Qclt. split; intro H.
  - apply Qnot_le_lt. intro L. apply Qle_bool_iff in L. congruence.
  - destruct (Qle_bool a b) eqn:E; [|reflexivity].
    apply Qle_bool_iff in E. exfalso. apply (Qlt_not_le _ _ H E).
Qed.

Lemma ltb_lt (a b : num) : (a <? b) = true <-> a < b.
Proof.
  unfold ltb. rewrite negb_true_iff. apply leb_gt.
Qed.

Lemma ltb_ge (a b : num) : (a <? b) = false <-> b <= a.
Proof.
  unfold ltb. rewrite negb_false_iff. apply leb_le.
Qed.

Lemma max_l (a b : num) : b <= a -> max a b = a.
Proof.
  intro H. unfold max. destruct (a <=? b) eqn:E; [|reflexivity].
  apply leb_le in E. apply Qcle_antisym; assumption.
Qed.

Lemma max_r (a b : num) : a <= b -> max a b = b.
Proof.
  intro H. unfold max. apply leb_le in H. rewrite H. reflexivity.
Qed.

Lemma max_lb_l (a b : num) : a <= max a b.
Proof.
  unfold max. destruct (a <=? b) eqn:E.
  - apply leb_le in E. exact E.
  - apply Qcle_refl.
Qed.

Lemma min_l (a b : num) : a <= b -> min a b = a.
Proof.
  intro H. unfold min. apply leb_le in H. rewrite H. reflexivity.
Qed.

Lemma min_r (a b : num) : b <= a -> min a b = b.
Proof.
  intro H. unfold min. destruct (a <=? b) eqn:E; [|reflexivity].
  apply leb_le in E. apply Qcle_antisym; assumption.
Qed.

Lemma min_ub_l (a b : num) : min a b <= a.
Proof.
  unfold min. destruct (a <=? b) eqn:E.
  - apply Qcle_refl.
  - apply leb_gt in E. apply Qclt_le_weak. exact E.
Qed.

Lemma min_ub_r (a b : num) : min a b <= b.
Proof.
  unfold min. destruct (a <=? b) eqn:E.
  - apply leb_le in E. exact E.
  - apply Qcle_refl.
Qed.

Lemma ofZ_le (a b : Z) : (a <= b)%Z -> #a <= #b.
Proof.
  intro H. qc_unfold. rewrite <- Zle_Qle. exact H.
Qed.

Lemma floor_nonneg (a : num) : 0 <= a -> 0 <= floor a.
Proof.
  intro H. change 0 with (#0). apply ofZ_le.
  unfold floorZ. change 0%Z with (Qfloor 0). apply Qfloor_resp_le. exact H.
Qed.

Lemma div_nonneg (a b : num) : 0 <= a -> 0 < b -> 0 <= a / b.
Proof.
  intros Ha Hb. qc_revert. qc_unfold. intros Hb Ha.
  apply Qle_shift_div_l; [exact Hb | lra].
Qed.

Lemma ofZ_pos (z : Z) : (0 < z)%Z -> 0 < #z.
Proof.
  intro H. qc_unfold. change (Qmake 0 1) with (inject_Z 0).
  rewrite <- Zlt_Qlt. exact H.
Qed.

(** ** The gate rule *)

Lemma ops_cases (op : GateOp.t) :
  In op ops -> op = opAdd5 \/ op = opMul2 \/ op = opSub5 \/ op = opDiv2.
Proof.
  unfold ops. simpl. intuition (subst; auto).
Qed.

(** C1.  For a score [v >= 0] and a gate operation [op] of the fixed set
    add 5, sub 5, mul 2, div 2, [applyGate v op] is [v + amount],
    [v - amount], [v * amount] or [floor (v / amount)] according to the
    type of [op], clamped below at 0; the result is never negative (for
    add, mul and div the clamp leaves the value as it is); and
    [applyGate 10 (mul 2) = 20], [applyGate 10 (div 2) = 5],
    [applyGate 3 (div 2) = 1], [applyGate 2 (sub 5) = 0]. *)
Theorem applyGate_spec (v : num) (op : GateOp.t) :
  0 <= v -> In op ops ->
  applyGate v op = max 0 (gateRaw v op)
  /\ 0 <= applyGate v op
  /\ (GateOp.type op <> sub -> applyGate v op = gateRaw v op)
  /\ applyGate #10 opMul2 = #20
  /\ applyGate #10 opDiv2 = #5
  /\ applyGate #3 opDiv2 = #1
  /\ applyGate #2 opSub5 = #0.
Proof.
  intros Hv Hop.
  assert (Hmax : applyGate v op = max 0 (gateRaw v op)) by reflexivity.
  split; [exact Hmax|]. split; [rewrite Hmax; apply max_lb_l|].
  split.
  - intro Hns. rewrite Hmax. apply max_r.
    destruct (ops_cases op Hop) as [E|[E|[E|E]]]; subst op;
      unfold gateRaw, opAdd5, opMul2, opSub5, opDiv2 in *;
      cbn [GateOp.type GateOp.amount] in *; try congruence.
    + qc_lra.
    + qc_lra.
    + apply floor_nonneg. apply div_nonneg; [exact Hv | apply ofZ_pos; lia].
  - repeat split; apply Qc_is_canon; vm_compute; reflexivity.
Qed.

Lemma applyGate_spec_witness :
  applyGate #10 opMul2 = max 0 (gateRaw #10 opMul2)
  /\ 0 <= applyGate #10 opMul2
  /\ (GateOp.type opMul2 <> sub -> applyGate #10 opMul2 = gateRaw #10 opMul2)
  /\ applyGate #10 opMul2 = #20
  /\ applyGate #10 opDiv2 = #5
  /\ applyGate #3 opDiv2 = #1
  /\ applyGate #2 opSub5 = #0.
Proof.
  apply (applyGate_spec #10 opMul2).
  - vm_compute. discriminate.
  - simpl. auto.
Defined.

(** ** Crowd width *)

Lemma getPlayerCount_range (value : num) :
  (1 <= getPlayerCount value <= 20)%Z.
Proof. unfold getPlayerCount, MAX_PLAYER_SEGMENTS. lia. Qed.

Lemma counts_In (n : Z) : (1 <= n <= 20)%Z -> In n counts.
Proof.
  intro H. unfold counts. rewrite <- (Z2Nat.id n) by lia.
  apply in_map. apply in_seq. lia.
Qed.

Lemma widthStepOk_all :
  forallb (fun m => forallb (widthStepOk m) counts) counts = true.
Proof. vm_compute. reflexivity. Qed.

Lemma spacing_all :
  forallb
    (fun n => (getPlayerSegmentSpacing n =? Z.max 2 (8 - (n - 1) / 4))%Z
              && (getCrowdWidth n
                  =? n * 10 + (n - 1) * getPlayerSegmentSpacing n)%Z)
    counts = true.
Proof. vm_compute. reflexivity. Qed.

(** C4, as stated, fails: 16 segments are 235 wide and 17 segments only
    234, because the spacing drops from 5 to 4 between them. *)
Lemma crowdWidth_not_increasing :
  ~ (forall m n : Z,
        (1 <= m)%Z -> (m < n)%Z -> (n <= 20)%Z ->
        (getCrowdWidth m < getCrowdWidth n)%Z).
Proof.
  intro H.
  assert (F : (getCrowdWidth 16 < getCrowdWidth 17)%Z) by (apply H; lia).
  vm_compute in F. discriminate F.
Qed.

(** C4, amended.  The width the step gives the crowd depends on the
    segment count alone (not on where the player stands); the spacing is 8
    less 1 per 4 additional segments, never under 2; and for counts
    [m < n] of 1..20 the width of [m] segments is strictly below the
    width of [n] segments, the pair 16, 17 excepted, where it goes from
    235 down to 234. *)
Theorem crowdWidth_increasing_except_16_17 (m n : Z) :
  (1 <= m)%Z -> (m < n)%Z -> (n <= 20)%Z ->
  (forall s : State,
      Rect.w (player (resizePlayer s))
      = max #MIN_PLAYER_WIDTH #(getCrowdWidth (getPlayerCount (scoreValue s))))
  /\ getPlayerSegmentSpacing n = Z.max 2 (8 - (n - 1) / 4)
  /\ getCrowdWidth n = (n * 10 + (n - 1) * getPlayerSegmentSpacing n)%Z
  /\ (~ (m = 16 /\ n = 17)%Z -> (getCrowdWidth m < getCrowdWidth n)%Z)
  /\ getCrowdWidth 16 = 235%Z /\ getCrowdWidth 17 = 234%Z.
Proof.
  intros Hm Hmn Hn.
  assert (In_m : In m counts) by (apply counts_In; lia).
  assert (In_n : In n counts) by (apply counts_In; lia).
  split; [reflexivity|].
  pose proof spacing_all as Hs. rewrite forallb_forall in Hs.
  specialize (Hs n In_n). apply andb_true_iff in Hs as [Hs1 Hs2].
  apply Z.eqb_eq in Hs1. apply Z.eqb_eq in Hs2.
  split; [exact Hs1|]. split; [exact Hs2|].
  split; [|split; reflexivity].
  intro Hne.
  pose proof widthStepOk_all as Hw. rewrite forallb_forall in Hw.
  specialize (Hw m In_m). rewrite forallb_forall in Hw.
  specialize (Hw n In_n). unfold widthStepOk in Hw.
  apply Z.ltb_lt.
  destruct (getCrowdWidth m <? getCrowdWidth n)%Z; [reflexivity|].
  exfalso.
  assert (E1 : (m <? n)%Z = true) by (apply Z.ltb_lt; exact Hmn).
  rewrite E1 in Hw. simpl in Hw.
  destruct (m =? 16)%Z eqn:E16; destruct (n =? 17)%Z eqn:E17;
    simpl in Hw; try discriminate.
  apply Z.eqb_eq in E16. apply Z.eqb_eq in E17. apply Hne. split; assumption.
Qed.

Lemma crowdWidth_increasing_except_16_17_witness :
  (getCrowdWidth 3 < getCrowdWidth 9)%Z.
Proof.
  apply (crowdWidth_increasing_except_16_17 3 9); lia.
Defined.

(** ** Floors *)

Lemma floorZ_le (a : num) : #(floorZ a) <= a.
Proof. qc_unfold. apply Qfloor_le. Qed.

Lemma floorZ_lt (a : num) : a < #(floorZ a + 1).
Proof. qc_unfold. apply Qlt_floor. Qed.

Lemma ofZ_lt_inv (a b : Z) : #a < #b -> (a < b)%Z.
Proof.
  intro H. qc_revert. qc_unfold. intro H. rewrite Zlt_Qlt. exact H.
Qed.

Lemma floorZ_unique (a : num) (z : Z) :
  #z <= a -> a < #(z + 1) -> floorZ a = z.
Proof.
  intros H1 H2.
  pose proof (floorZ_le a) as F1. pose proof (floorZ_lt a) as F2.
  assert (L1 : #z < #(floorZ a + 1)) by (eapply Qcle_lt_trans; eassumption).
  assert (L2 : #(floorZ a) < #(z + 1)) by (eapply Qcle_lt_trans; eassumption).
  apply ofZ_lt_inv in L1. apply ofZ_lt_inv in L2. lia.
Qed.

Lemma le_floorZ (a : num) (z : Z) : (z <= floorZ a)%Z <-> #z <= a.
Proof.
  split; intro H.
  - eapply Qcle_trans; [apply ofZ_le; exact H | apply floorZ_le].
  - assert (L : #z < #(floorZ a + 1))
      by (eapply Qcle_lt_trans; [exact H | apply floorZ_lt]).
    apply ofZ_lt_inv in L. lia.
Qed.

Lemma ofZ_add (a b : Z) : #(a + b) = #a + #b.
Proof.
  apply Qc_is_canon. qc_unfold. rewrite inject_Z_plus. reflexivity.
Qed.

Lemma ofZ_mul (a b : Z) : #(a * b) = #a * #b.
Proof.
  apply Qc_is_canon. qc_unfold. rewrite inject_Z_mult. reflexivity.
Qed.

Lemma ofZ_0 : #0 = 0.
Proof. apply Qc_is_canon. reflexivity. Qed.

Lemma ofZ_1 : #1 = 1.
Proof. apply Qc_is_canon. reflexivity. Qed.

Lemma le_div_iff (a b c : num) : 0 < c -> (a <= b / c <-> a * c <= b).
Proof.
  intro Hc. split; intro H.
  - apply Qcnot_lt_le. intro L.
    assert (F : b / c < a).
    { qc_revert. qc_unfold. intros.
      apply Qlt_shift_div_r; assumption. }
    exact (Qclt_not_le _ _ F H).
  - qc_revert. qc_unfold. intros.
    apply Qle_shift_div_l; assumption.
Qed.

Lemma ofZ_of_nat_nonneg (k : nat) : 0 <= #(Z.of_nat k).
Proof. rewrite <- ofZ_0. apply ofZ_le. lia. Qed.

Lemma BOSS_INTERVAL_pos : 0 < BOSS_INTERVAL.
Proof. apply ofZ_pos. lia. Qed.

(** ** Random picks *)

(** The operation a gate is given is always one of the four: for a
    [Math.random] value of the unit interval the index computed by
    [spawnGatePair] stays inside [ops]. *)
Lemma toInt32_floor (a : num) :
  0 <= a -> a < #2147483648 -> toInt32 a = floorZ a.
Proof.
  intros H0 H1. unfold toInt32.
  assert (L : (a <? 0) = false) by (apply ltb_ge; exact H0).
  rewrite L. fold (floorZ a).
  assert (F0 : (0 <= floorZ a)%Z) by (apply le_floorZ; rewrite ofZ_0; exact H0).
  assert (F1 : (floorZ a < 2147483648)%Z).
  { apply ofZ_lt_inv. eapply Qcle_lt_trans; [apply floorZ_le | exact H1]. }
  rewrite Z.mod_small by lia.
  destruct (2147483648 <=? floorZ a)%Z eqn:E; [|reflexivity].
  apply Z.leb_le in E. lia.
Qed.

Lemma random_op_in_ops (r : num) :
  0 <= r -> r < 1 ->
  In (nth (Z.to_nat (toInt32 (r * #(Z.of_nat (List.length ops))))) ops opAdd5)
     ops.
Proof.
  intros H0 H1. cbn [List.length ops Z.of_nat Pos.of_succ_nat Pos.succ].
  assert (A0 : 0 <= r * #4) by qc_lra.
  assert (A1 : r * #4 < #4) by qc_lra.
  rewrite toInt32_floor; [|exact A0|].
  - assert (F0 : (0 <= floorZ (r * #4))%Z)
      by (apply le_floorZ; rewrite ofZ_0; exact A0).
    assert (F1 : (floorZ (r * #4) < 4)%Z).
    { apply ofZ_lt_inv. eapply Qcle_lt_trans; [apply floorZ_le | exact A1]. }
    apply nth_In. simpl. lia.
  - eapply Qclt_trans; [exact A1|]. vm_compute. reflexivity.
Qed.

(** ** Boss thresholds *)

Section BossSpawn.

Variable rnd : nat -> num.

Lemma spawnBoss_dist (s : State) : dist (spawnBoss rnd s) = dist s.
Proof. reflexivity. Qed.

Lemma spawnBoss_nextBossDist (s : State) :
  nextBossDist (spawnBoss rnd s) = nextBossDist s + BOSS_INTERVAL.
Proof. reflexivity. Qed.

Lemma spawnBoss_bosses (s : State) :
  exists boss, bosses (spawnBoss rnd s) = bosses s ++ [boss].
Proof. eexists. reflexivity. Qed.

(** The [k]-th threshold from [nextBossDist] on is crossed exactly when
    [k] is below [bossThresholdsCrossed]. *)
Lemma bossThresholdsCrossed_char (s : State) (k : nat) :
  (k < bossThresholdsCrossed s)%nat
  <-> nextBossDist s + #(Z.of_nat k) * BOSS_INTERVAL <= dist s.
Proof.
  unfold bossThresholdsCrossed.
  pose proof BOSS_INTERVAL_pos as Hpos.
  pose proof (ofZ_of_nat_nonneg k) as Hk.
  destruct (nextBossDist s <=? dist s) eqn:G.
  - apply leb_le in G.
    set (q := (dist s - nextBossDist s) / BOSS_INTERVAL).
    assert (Hq0 : (0 <= floorZ q)%Z).
    { apply le_floorZ. rewrite ofZ_0. apply div_nonneg; [qc_lra | exact Hpos]. }
    assert (Hiff : (Z.of_nat k <= floorZ q)%Z
                   <-> nextBossDist s + #(Z.of_nat k) * BOSS_INTERVAL <= dist s).
    { rewrite le_floorZ. unfold q. rewrite le_div_iff by exact Hpos.
      generalize (#(Z.of_nat k) * BOSS_INTERVAL). intro t.
      split; intro; qc_lra. }
    rewrite <- Hiff. lia.
  - apply leb_gt in G. split; [lia|]. intro H. exfalso.
    assert (P : 0 <= #(Z.of_nat k) * BOSS_INTERVAL).
    { rewrite <- (Qcmult_0_l BOSS_INTERVAL).
      apply Qcmult_le_compat_r; [exact Hk | apply Qclt_le_weak; exact Hpos]. }
    revert P H G. generalize (#(Z.of_nat k) * BOSS_INTERVAL). intros t P H G.
    qc_lra.
Qed.

Lemma bossThresholdsCrossed_step (s : State) :
  nextBossDist s <= dist s ->
  bossThresholdsCrossed s = S (bossThresholdsCrossed (spawnBoss rnd s)).
Proof.
  intro G.
  assert (H0 : (0 < bossThresholdsCrossed s)%nat).
  { apply bossThresholdsCrossed_char. simpl. rewrite ofZ_0.
    rewrite Qcmult_0_l, Qcplus_0_r. exact G. }
  assert (Hshift : forall k,
             (k < bossThresholdsCrossed (spawnBoss rnd s))%nat
             <-> (S k < bossThresholdsCrossed s)%nat).
  { intro k. rewrite !bossThresholdsCrossed_char.
    rewrite spawnBoss_dist, spawnBoss_nextBossDist.
    replace (#(Z.of_nat (S k))) with (#(Z.of_nat k) + 1).
    - replace (nextBossDist s + BOSS_INTERVAL + #(Z.of_nat k) * BOSS_INTERVAL)
        with (nextBossDist s + (#(Z.of_nat k) + 1) * BOSS_INTERVAL) by ring.
      reflexivity.
    - rewrite Nat2Z.inj_succ, <- Z.add_1_r, ofZ_add, ofZ_1. reflexivity. }
  pose proof (Hshift (bossThresholdsCrossed (spawnBoss rnd s))) as A.
  pose proof (Hshift (pred (bossThresholdsCrossed (spawnBoss rnd s)))) as B.
  lia.
Qed.

Lemma bossThresholdsCrossed_zero (s : State) :
  dist s < nextBossDist s -> bossThresholdsCrossed s = O.
Proof.
  intro G. unfold bossThresholdsCrossed.
  apply leb_gt in G. rewrite G. reflexivity.
Qed.

(** The model of the loop satisfies the equation of the [while]: the
    iteration count it is given never runs out before the guard fails. *)
Lemma ensureBossSpawn_unfold (s : State) :
  ensureBossSpawn rnd s
  = if nextBossDist s <=? dist s
    then ensureBossSpawn rnd (spawnBoss rnd s)
    else s.
Proof.
  unfold ensureBossSpawn at 1.
  destruct (nextBossDist s <=? dist s) eqn:G.
  - pose proof G as G'. apply leb_le in G'.
    rewrite (bossThresholdsCrossed_step s G'). simpl. rewrite G. reflexivity.
  - pose proof G as G'. apply leb_gt in G'.
    rewrite (bossThresholdsCrossed_zero s G'). reflexivity.
Qed.

Lemma bossLoop_spec (fuel : nat) :
  forall s : State,
    bossThresholdsCrossed s = fuel ->
    dist (bossLoop rnd fuel s) = dist s
    /\ dist (bossLoop rnd fuel s) < nextBossDist (bossLoop rnd fuel s)
    /\ nextBossDist (bossLoop rnd fuel s)
       = nextBossDist s + #(Z.of_nat fuel) * BOSS_INTERVAL
    /\ exists new,
         bosses (bossLoop rnd fuel s) = bosses s ++ new
         /\ List.length new = fuel.
Proof.
  induction fuel as [|fuel IH]; intros s Hc.
  - assert (G : dist s < nextBossDist s).
    { apply Qcnot_le_lt. intro L.
      rewrite (bossThresholdsCrossed_step s L) in Hc. discriminate. }
    simpl. split; [reflexivity|]. split; [exact G|]. split.
    + rewrite ofZ_0. ring.
    + exists []. rewrite app_nil_r. split; reflexivity.
  - assert (G : nextBossDist s <= dist s).
    { apply Qcnot_lt_le. intro L.
      rewrite (bossThresholdsCrossed_zero s L) in Hc. discriminate. }
    pose proof (bossThresholdsCrossed_step s G) as Hs.
    rewrite Hc in Hs. injection Hs as Hs. symmetry in Hs.
    cbn [bossLoop]. apply leb_le in G. rewrite G.
    destruct (IH (spawnBoss rnd s) Hs) as (D & L & N & new & B & Len).
    split; [rewrite D; reflexivity|]. split; [exact L|]. split.
    + rewrite N, spawnBoss_nextBossDist.
      rewrite Nat2Z.inj_succ, <- Z.add_1_r, ofZ_add, ofZ_1. ring.
    + destruct (spawnBoss_bosses s) as [boss Hb].
      exists (boss :: new). split.
      * rewrite B, Hb, <- app_assoc. reflexivity.
      * simpl. rewrite Len. reflexivity.
Qed.


End BossSpawn.

(** C5.  [ensureBossSpawn] leaves [dist] as it is and ends with
    [dist < nextBossDist]; it appends one boss per threshold
    [nextBossDist + k * 2000] that [dist] has reached, none being skipped,
    and moves [nextBossDist] up by 2000 for each of them.  With
    [nextBossDist = 2000] and [dist = 5000] exactly two bosses are
    appended and [nextBossDist] becomes 6000. *)
Theorem ensureBossSpawn_catches_up (rnd : nat -> num) (s : State) :
  let s' := ensureBossSpawn rnd s in
  dist s' = dist s
  /\ dist s' < nextBossDist s'
  /\ (exists new : list Boss,
        bosses s' = bosses s ++ new
        /\ nextBossDist s'
           = nextBossDist s + #(Z.of_nat (List.length new)) * BOSS_INTERVAL
        /\ forall k : nat,
             (k < List.length new)%nat
             <-> nextBossDist s + #(Z.of_nat k) * BOSS_INTERVAL <= dist s)
  /\ (let s0 := set_dist #5000 (set_nextBossDist #2000 s) in
      exists b1 b2 : Boss,
        bosses (ensureBossSpawn rnd s0) = bosses s ++ [b1; b2]
        /\ nextBossDist (ensureBossSpawn rnd s0) = #6000).
Proof.
  cbv zeta. unfold ensureBossSpawn.
  destruct (bossLoop_spec rnd (bossThresholdsCrossed s) s eq_refl)
    as (D & L & N & new & B & Len).
  split; [exact D|]. split; [exact L|]. split.
  - exists new. split; [exact B|]. split; [rewrite Len; exact N|].
    intro k. rewrite Len. apply bossThresholdsCrossed_char.
  - set (s0 := set_dist #5000 (set_nextBossDist #2000 s)).
    assert (C : bossThresholdsCrossed s0 = 2%nat) by (vm_compute; reflexivity).
    destruct (bossLoop_spec rnd 2 s0 C) as (_ & _ & N2 & new2 & B2 & Len2).
    rewrite C.
    destruct new2 as [|b1 [|b2 [|b3 new2]]]; try discriminate Len2.
    exists b1, b2. split; [exact B2|].
    rewrite N2. apply Qc_is_canon. vm_compute. reflexivity.
Qed.

(** The same catch-up inside one whole step: a world at distance 1999
    that advances to 5000 in a single [update] ends with two bosses and
    the threshold at 6000. *)
Example update_boss_catch_up :
  let rnd := fun _ : nat => frac 1 2 in
  let s := update rnd (frac 3001 180) (set_dist #1999 initialState) in
  dist s = #5000 /\ List.length (bosses s) = 2%nat /\ nextBossDist s = #6000.
Proof.
  cbv zeta. repeat split; try apply Qc_is_canon; vm_compute; reflexivity.
Qed.

(** ** The dead world *)

Lemma update_when_dead (rnd : nat -> num) (dt : num) (s : State) :
  alive s = false -> update rnd dt s = s.
Proof.
  intro H. unfold update. rewrite H. reflexivity.
Qed.

(** C8.  When the alive flag is false, [update] returns the world it was
    given: collections, score, distance, time and player rectangle are all
    as they were; so does any sequence of further steps. *)
Theorem update_dead_noop (rnd : nat -> num) (dt : num) (s : State) :
  alive s = false ->
  update rnd dt s = s
  /\ forall dts : list num,
       fold_left (fun s' dt' => update rnd dt' s') dts s = s.
Proof.
  intro H. split.
  - unfold update. rewrite H. reflexivity.
  - intro dts. induction dts as [|dt' dts IH]; simpl; [reflexivity|].
    unfold update at 2. rewrite H. exact IH.
Qed.

Lemma update_dead_noop_witness :
  update (fun _ => 0) (frac 33 1000) (set_alive false initialState)
  = set_alive false initialState.
Proof.
  apply (update_dead_noop (fun _ => 0) (frac 33 1000)
           (set_alive false initialState)).
  reflexivity.
Defined.

(** ** Score reaching zero through a gate *)

(** C2 at that world.  One step takes the score from 1 to 0 through the
    gate and leaves the player alive; the next step runs as for a living
    player.  The same loss through [hurtPlayer] kills the player. *)
Theorem gate_zero_score_stays_alive (rnd : nat -> num) :
  let s1 := update rnd (frac 1 60) worldAtGate in
  let s2 := update rnd (frac 1 60) s1 in
  alive worldAtGate = true
  /\ scoreValue worldAtGate = #1
  /\ scoreValue s1 = 0
  /\ alive s1 = true
  /\ alive s2 = true
  /\ time s2 = frac 1 30
  /\ alive (hurtPlayer #5 worldAtGate) = false.
Proof.
  cbv zeta.
  repeat split; try apply Qc_is_canon; vm_compute; reflexivity.
Qed.

(** ** Frames: what each phase leaves alone *)

Lemma forEach_preserves {A : Type} (P : State -> Prop)
    (body : A -> State -> A * State) :
  (forall a s, P s -> P (snd (body a s))) ->
  forall l s, P s -> P (snd (forEach body l s)).
Proof.
  intros Hbody l. induction l as [|a rest IH]; intros s Hs; simpl.
  - exact Hs.
  - specialize (Hbody a s Hs). destruct (body a s) as [a' s1]. simpl in Hbody.
    specialize (IH s1 Hbody). destruct (forEach body rest s1) as [rest' s2].
    exact IH.
Qed.

Lemma fold_left_preserves {A : Type} (P : State -> Prop)
    (body : State -> A -> State) :
  (forall s a, P s -> P (body s a)) ->
  forall l s, P s -> P (fold_left body l s).
Proof.
  intros Hbody l. induction l as [|a rest IH]; intros s Hs; simpl.
  - exact Hs.
  - apply IH. apply Hbody. exact Hs.
Qed.

(** Unfold a phase, split on every test it makes, and compare fields. *)
Ltac frame_cases :=
  repeat match goal with
    | |- context [if ?c then _ else _] => destruct c
    | |- context [let (_, _) := ?p in _] => destruct p
    end;
  try reflexivity.

Lemma spawnFloater_views text x y (s : State) :
  bothViews (spawnFloater text x y s) = bothViews s.
Proof. reflexivity. Qed.

Lemma hurtPlayer_views amount (s : State) :
  bothViews (hurtPlayer amount s) = bothViews s.
Proof. unfold hurtPlayer. frame_cases. Qed.

Lemma resizePlayer_views (s : State) : bothViews (resizePlayer s) = bothViews s.
Proof. reflexivity. Qed.


Lemma forEach_rects {A : Type} (rect : A -> Rect.t)
    (body : A -> State -> A * State) :
  (forall a s, rect (fst (body a s)) = rect a) ->
  forall l s, map rect (fst (forEach body l s)) = map rect l.
Proof.
  intros Hbody l. induction l as [|a rest IH]; intros s; simpl.
  - reflexivity.
  - specialize (Hbody a s). destruct (body a s) as [a' s1]. simpl in Hbody.
    specialize (IH s1). destruct (forEach body rest s1) as [rest' s2].
    simpl in *. rewrite Hbody, IH. reflexivity.
Qed.

Lemma crossGate_views g (s : State) :
  bothViews (snd (crossGate g s)) = bothViews s.
Proof. unfold crossGate. frame_cases. Qed.

Lemma crossGate_rect g (s : State) :
  Gate.rect (fst (crossGate g s)) = Gate.rect g.
Proof. unfold crossGate. frame_cases. Qed.

Lemma crossGates_views (s : State) : bothViews (crossGates s) = bothViews s.
Proof.
  unfold crossGates.
  pose proof (forEach_preserves (fun s' => bothViews s' = bothViews s)
                crossGate) as H.
  specialize (H (fun a s0 E => eq_trans (crossGate_views a s0) E)
                (gates s) s eq_refl).
  pose proof (forEach_rects Gate.rect crossGate crossGate_rect (gates s) s) as R.
  destruct (forEach crossGate (gates s) s) as [gs s1]. simpl in *.
  unfold bothViews, posView, bonusView in *. simpl.
  injection H as -> -> -> -> -> _ -> -> -> -> ->. rewrite R. reflexivity.
Qed.

Lemma shootAtNearest_views dt (s : State) :
  bothViews (shootAtNearest dt s) = bothViews s.
Proof.
  unfold shootAtNearest.
  destruct (0 <? shootCooldown (set_shootCooldown (shootCooldown s - dt) s));
    [reflexivity|].
  match goal with
  | |- bothViews (set_shootCooldown _ (fold_left ?f ?l ?s0)) = _ =>
      change (bothViews (fold_left f l s0) = bothViews s0);
      apply (fold_left_preserves (fun s' => bothViews s' = bothViews s0) f)
  end.
  - intros s1 seg E. rewrite <- E. reflexivity.
  - reflexivity.
Qed.

Lemma advanceBullets_views dt (s : State) :
  bothViews (advanceBullets dt s) = bothViews s.
Proof. reflexivity. Qed.

Lemma advanceFloaters_views dt (s : State) :
  bothViews (advanceFloaters dt s) = bothViews s.
Proof. reflexivity. Qed.

Lemma publishHud_views dt (s : State) :
  bothViews (publishHud dt s) = bothViews s.
Proof. unfold publishHud. frame_cases. Qed.

Lemma touchEnemy_views (s : State) e :
  bothViews (touchEnemy s e) = bothViews s.
Proof.
  unfold touchEnemy. frame_cases. apply hurtPlayer_views.
Qed.

Lemma touchObstacles_views obs :
  forall s : State, bothViews (touchObstacles obs s) = bothViews s.
Proof.
  induction obs as [|o rest IH]; intro s; simpl; [reflexivity|].
  frame_cases; rewrite IH; try reflexivity. apply hurtPlayer_views.
Qed.

Lemma touchHazards_views (s : State) : bothViews (touchHazards s) = bothViews s.
Proof.
  unfold touchHazards.
  set (s1 := touchObstacles (obstacles s) s).
  set (s2 := fold_left touchEnemy (zombies s1) s1).
  assert (E1 : bothViews s1 = bothViews s) by apply touchObstacles_views.
  assert (E2 : bothViews s2 = bothViews s1).
  { apply (fold_left_preserves (fun s' => bothViews s' = bothViews s1)).
    - intros s0 e E. rewrite touchEnemy_views. exact E.
    - reflexivity. }
  assert (E3 : bothViews (fold_left touchEnemy (bosses s2) s2) = bothViews s2).
  { apply (fold_left_preserves (fun s' => bothViews s' = bothViews s2)).
    - intros s0 e E. rewrite touchEnemy_views. exact E.
    - reflexivity. }
  congruence.
Qed.

(** Scrolling. *)


Lemma scrollBoss_bonus dy boss (s : State) :
  bonusView (snd (scrollBoss dy boss s)) = bonusView s.
Proof. unfold scrollBoss. frame_cases. Qed.

Lemma scroll_bonusView dy (s : State) : bonusView (scroll dy s) = bonusView s.
Proof.
  unfold scroll.
  match goal with
  | |- context [forEach (scrollBoss dy) ?l ?s0] =>
      pose proof (forEach_preserves (fun s' => bonusView s' = bonusView s)
                    (scrollBoss dy)
                    (fun a s1 E => eq_trans (scrollBoss_bonus dy a s1) E)
                    l s0 eq_refl) as H;
      destruct (forEach (scrollBoss dy) l s0) as [bs s1]
  end.
  simpl in H. rewrite <- H. reflexivity.
Qed.





(** ** Bullets against enemies and obstacles *)

Lemma splitFirst_Some {A : Type} (p : A -> bool) (l pre post : list A) (t : A) :
  splitFirst p l = Some (pre, t, post) ->
  l = pre ++ t :: post /\ p t = true /\ Forall (fun a => p a = false) pre.
Proof.
  revert pre. induction l as [|a rest IH]; intros pre H; simpl in H.
  - discriminate.
  - destruct (p a) eqn:E.
    + injection H as <- <- <-. auto.
    + destruct (splitFirst p rest) as [[[pre' t'] post']|]; [|discriminate].
      injection H as <- <- <-.
      destruct (IH pre' eq_refl) as (-> & Ht & Hpre).
      repeat split; auto.
Qed.

Lemma splitFirst_None {A : Type} (p : A -> bool) (l : list A) :
  splitFirst p l = None -> Forall (fun a => p a = false) l.
Proof.
  induction l as [|a rest IH]; intro H; simpl in H.
  - constructor.
  - destruct (p a) eqn:E; [discriminate|].
    destruct (splitFirst p rest) as [[[pre' t'] post']|]; [discriminate|].
    constructor; auto.
Qed.

Lemma hitGroup_eq (group : list Enemy.t) (b : Bullet.t) (s : State) :
  hitGroup group b s
  = match splitFirst (enemyHit b) group with
    | None => (group, b, s, false)
    | Some (pre, e, post) =>
        (pre ++ damageEnemy b e :: post, Bullet.setLife 0 b,
         set_floaters (floaters s ++ [enemyFloater b e]) s, true)
    end.
Proof.
  induction group as [|e rest IH]; simpl; [reflexivity|].
  assert (E : (Enemy.hp e <=? 0) || negb (aabb (Bullet.rect b) (Enemy.rect e))
              = negb (enemyHit b e)).
  { unfold enemyHit, ltb, leb.
    destruct (Qle_bool _ _); destruct (aabb _ _); reflexivity. }
  rewrite E. destruct (enemyHit b e); simpl.
  - reflexivity.
  - rewrite IH.
    destruct (splitFirst (enemyHit b) rest) as [[[pre t] post]|]; reflexivity.
Qed.

Lemma hitObstacles_eq (obs : list Obstacle.t) (b : Bullet.t) (s : State) :
  hitObstacles obs b s
  = match splitFirst (obstacleHit b) obs with
    | None => (obs, b, s)
    | Some (pre, o, post) =>
        let s := set_floaters (floaters s ++ [obstacleFloater b o]) s in
        (pre ++ damageObstacle b o :: post, Bullet.setLife 0 b,
         if Obstacle.hp (damageObstacle b o) <=? 0
         then set_items (items s ++ [itemFor o]) s
         else s)
    end.
Proof.
  induction obs as [|o rest IH]; simpl; [reflexivity|].
  assert (E : (Obstacle.hp o <=? 0)
              || negb (aabb (Bullet.rect b) (Obstacle.rect o))
              = negb (obstacleHit b o)).
  { unfold obstacleHit, ltb, leb.
    destruct (Qle_bool _ _); destruct (aabb _ _); reflexivity. }
  rewrite E. destruct (obstacleHit b o); simpl.
  - reflexivity.
  - rewrite IH.
    destruct (splitFirst (obstacleHit b) rest) as [[[pre t] post]|]; reflexivity.
Qed.

Lemma set_zombies_same (s : State) : set_zombies (zombies s) s = s.
Proof. destruct s. reflexivity. Qed.

Lemma set_bosses_same (s : State) : set_bosses (bosses s) s = s.
Proof. destruct s. reflexivity. Qed.

Lemma set_obstacles_same (s : State) : set_obstacles (obstacles s) s = s.
Proof. destruct s. reflexivity. Qed.

Lemma collideBullet_eq (b : Bullet.t) (s : State) :
  collideBullet b s = collideOutcome b s.
Proof.
  unfold collideBullet, collideOutcome.
  destruct (Bullet.life b <=? 0); [reflexivity|].
  rewrite hitGroup_eq.
  destruct (splitFirst (enemyHit b) (zombies s)) as [[[pre z] post]|];
    [reflexivity|].
  rewrite set_zombies_same. rewrite hitGroup_eq.
  destruct (splitFirst (enemyHit b) (bosses s)) as [[[pre boss] post]|];
    [reflexivity|].
  rewrite set_bosses_same. rewrite hitObstacles_eq.
  destruct (splitFirst (obstacleHit b) (obstacles s)) as [[[pre o] post]|].
  - reflexivity.
  - rewrite set_obstacles_same. reflexivity.
Qed.

Lemma Qc_eq_bool_refl (a : num) : Qc_eq_bool a a = true.
Proof.
  unfold Qc_eq_bool. destruct (Qc_eq_dec a a); [reflexivity|contradiction].
Qed.

Lemma hpChanged_same (l : list num) : hpChanged l l = O.
Proof.
  induction l as [|a r IH]; simpl; [reflexivity|].
  rewrite Qc_eq_bool_refl, IH. reflexivity.
Qed.

Lemma hpChanged_one (pre post : list num) (a a' : num) :
  (hpChanged (pre ++ a :: post) (pre ++ a' :: post) <= 1)%nat.
Proof.
  induction pre as [|p pre IH]; simpl.
  - rewrite hpChanged_same. destruct (Qc_eq_bool a a'); lia.
  - rewrite Qc_eq_bool_refl. simpl. exact IH.
Qed.

Lemma damaged_same (s : State) : damaged s s = O.
Proof. unfold damaged. rewrite !hpChanged_same. reflexivity. Qed.

(** C6, as stated, fails: the first zombie a live bullet overlaps is not
    always the one that takes the damage.  A zombie whose hp is already 0
    and that overlaps the bullet is passed over, and the next overlapping
    zombie is damaged. *)
Lemma first_overlap_not_always_damaged :
  ~ (forall (b : Bullet.t) (s : State) pre e post,
        0 < Bullet.life b ->
        splitFirst (fun z => aabb (Bullet.rect b) (Enemy.rect z)) (zombies s)
        = Some (pre, e, post) ->
        zombies (snd (collideBullet b s)) = pre ++ damageEnemy b e :: post).
Proof.
  intro H.
  specialize (H bulletOverTwo worldTwoZombies [] deadZombie [liveZombie]).
  assert (L : 0 < Bullet.life bulletOverTwo) by (vm_compute; reflexivity).
  specialize (H L eq_refl).
  apply (f_equal (map (fun z => Qc_eq_bool (Enemy.hp z) #12))) in H.
  vm_compute in H. discriminate H.
Qed.

(** C6, amended.  A bullet whose life is above 0 is tested against the
    zombies, then the bosses, in collection order, and hits the first one
    that overlaps it and whose hp is still above 0 (entities at hp 0 or
    less are passed over): that enemy loses the bullet's damage, the
    bullet's life becomes 0, one damage floater is appended, and nothing
    else changes.  Only a bullet that hit no zombie and no boss is tested
    against the obstacles, under the same rule.  In every case at most
    one entity changes hp, and a bullet whose life is 0 or less changes
    nothing. *)
Theorem bullet_hits_first_live_target (b : Bullet.t) (s : State) :
  collideBullet b s = collideOutcome b s
  /\ (damaged s (snd (collideBullet b s)) <= 1)%nat
  /\ (forall pre z post,
        0 < Bullet.life b ->
        splitFirst (enemyHit b) (zombies s) = Some (pre, z, post) ->
        zombies s = pre ++ z :: post
        /\ Forall (fun e => enemyHit b e = false) pre
        /\ enemyHit b z = true
        /\ collideBullet b s
           = (Bullet.setLife 0 b,
              set_zombies (pre ++ damageEnemy b z :: post)
                (set_floaters (floaters s ++ [enemyFloater b z]) s)))
  /\ (Bullet.life b <= 0 -> collideBullet b s = (b, s)).
Proof.
  split; [apply collideBullet_eq|]. split; [|split].
  - rewrite collideBullet_eq. unfold collideOutcome.
    destruct (Bullet.life b <=? 0); [simpl; rewrite damaged_same; lia|].
    destruct (splitFirst (enemyHit b) (zombies s)) as [[[pre z] post]|] eqn:Z.
    { apply splitFirst_Some in Z as (Ez & _ & _).
      unfold damaged. simpl. rewrite Ez, !hpChanged_same, !map_app. simpl.
      pose proof (hpChanged_one (map Enemy.hp pre) (map Enemy.hp post)
                    (Enemy.hp z) (Enemy.hp z - Bullet.dmg b)). lia. }
    destruct (splitFirst (enemyHit b) (bosses s)) as [[[pre z] post]|] eqn:B.
    { apply splitFirst_Some in B as (Ez & _ & _).
      unfold damaged. simpl. rewrite Ez, !hpChanged_same, !map_app. simpl.
      pose proof (hpChanged_one (map Enemy.hp pre) (map Enemy.hp post)
                    (Enemy.hp z) (Enemy.hp z - Bullet.dmg b)). lia. }
    destruct (splitFirst (obstacleHit b) (obstacles s))
      as [[[pre o] post]|] eqn:O.
    { apply splitFirst_Some in O as (Eo & _ & _).
      unfold damaged. cbv zeta.
      destruct (Obstacle.hp (damageObstacle b o) <=? 0); simpl;
        rewrite Eo, !hpChanged_same, !map_app; simpl;
        pose proof (hpChanged_one (map Obstacle.hp pre) (map Obstacle.hp post)
                      (Obstacle.hp o) (Obstacle.hp o - Bullet.dmg b)); lia. }
    simpl. rewrite damaged_same. lia.
  - intros pre z post L Z.
    pose proof (splitFirst_Some _ _ _ _ _ Z) as (Ez & Hz & Hpre).
    repeat split; try assumption.
    rewrite collideBullet_eq. unfold collideOutcome.
    apply leb_gt in L. rewrite L, Z. reflexivity.
  - intro L. unfold collideBullet. apply leb_le in L. rewrite L. reflexivity.
Qed.

(** How a bullet comes to meet a zombie at hp 0: an earlier bullet of the
    same frame brought it there, and the prune has not run yet. *)
Example second_bullet_passes_dead_zombie :
  let z1 := Enemy.make (Rect.make #90 #95 #36 #36) #5 #3 in
  let s := set_bullets [bulletOverTwo; bulletOverTwo]
             (set_zombies [z1; liveZombie] initialState) in
  map (fun z => Qc_eq_bool (Enemy.hp z) 0) (zombies (collideBullets s))
  = [true; false]
  /\ map (fun z => Qc_eq_bool (Enemy.hp z) #7) (zombies (collideBullets s))
     = [false; true].
Proof.
  cbv zeta. split; vm_compute; reflexivity.
Qed.

Lemma bullet_hits_first_live_target_witness :
  collideBullet bulletOverTwo worldTwoZombies
  = (Bullet.setLife 0 bulletOverTwo,
     set_zombies ([deadZombie] ++ damageEnemy bulletOverTwo liveZombie :: [])
       (set_floaters
          (floaters worldTwoZombies ++ [enemyFloater bulletOverTwo liveZombie])
          worldTwoZombies)).
Proof.
  apply (bullet_hits_first_live_target bulletOverTwo worldTwoZombies).
  - vm_compute. reflexivity.
  - vm_compute. reflexivity.
Defined.

(** ** Obstacles destroyed by bullets *)

Lemma obsStep_refl (o : Obstacle.t) : obsStep o o.
Proof. unfold obsStep. auto. Qed.

Lemma Forall2_obsStep_refl (os : list Obstacle.t) : Forall2 obsStep os os.
Proof. induction os; constructor; auto using obsStep_refl. Qed.

Lemma alive_dead_false (a : num) : (0 <? a) && (a <=? 0) = false.
Proof. unfold ltb, leb. destruct (Qle_bool _ _); reflexivity. Qed.

Lemma drops_same (os : list Obstacle.t) : drops os os = [].
Proof.
  induction os as [|o r IH]; simpl; [reflexivity|].
  rewrite alive_dead_false, IH. reflexivity.
Qed.

Lemma drops_one (pre post : list Obstacle.t) (o o' : Obstacle.t) :
  drops (pre ++ o :: post) (pre ++ o' :: post)
  = if (0 <? Obstacle.hp o) && (Obstacle.hp o' <=? 0) then [itemFor o] else [].
Proof.
  induction pre as [|p pre IH]; simpl.
  - rewrite drops_same, app_nil_r. reflexivity.
  - rewrite alive_dead_false. simpl. exact IH.
Qed.

Lemma Forall2_obsStep_one (pre post : list Obstacle.t) (o o' : Obstacle.t) :
  obsStep o o' -> Forall2 obsStep (pre ++ o :: post) (pre ++ o' :: post).
Proof.
  intro H. apply Forall2_app; [apply Forall2_obsStep_refl|].
  constructor; [exact H | apply Forall2_obsStep_refl].
Qed.

Lemma itemFor_ext (o o' : Obstacle.t) :
  Obstacle.rect o' = Obstacle.rect o -> Obstacle.maxHp o' = Obstacle.maxHp o ->
  itemFor o' = itemFor o.
Proof.
  intros R M. unfold itemFor, obstacleBonus. rewrite R, M. reflexivity.
Qed.

(** Two phases in a row: every destroyed obstacle is counted in exactly
    one of them. *)
Lemma drops_compose (os os1 os2 : list Obstacle.t) :
  Forall2 obsStep os os1 -> Forall2 obsStep os1 os2 ->
  Forall2 obsStep os os2
  /\ Permutation (drops os os2) (drops os os1 ++ drops os1 os2).
Proof.
  intro H. revert os2. induction H as [|o o1 r r1 Ho Hr IH]; intros os2 H2.
  - inversion H2; subst. split; [constructor | simpl; constructor].
  - inversion H2 as [|o1' o2 r1' r2 Ho2 Hr2]; subst.
    destruct (IH r2 Hr2) as [F P].
    destruct Ho as (R1 & M1 & D1). destruct Ho2 as (R2 & M2 & D2).
    split.
    + constructor; [|exact F]. unfold obsStep. repeat split; try congruence.
      intro L. rewrite (D2 (eq_ind_r (fun v => Obstacle.hp v <= 0) L (D1 L))).
      exact (D1 L).
    + simpl.
      destruct (Obstacle.hp o1 <=? 0) eqn:E1.
      * (* dead after the first phase: the second leaves it alone *)
        pose proof E1 as L1. apply leb_le in L1. rewrite (D2 L1), E1.
        assert (A1 : (0 <? Obstacle.hp o1) = false) by (apply ltb_ge; exact L1).
        rewrite A1, andb_true_r. simpl.
        destruct (0 <? Obstacle.hp o); simpl.
        -- constructor. exact P.
        -- exact P.
      * (* still alive after the first phase: it was alive before it *)
        assert (A0 : (0 <? Obstacle.hp o) = true).
        { apply ltb_lt. apply Qcnot_le_lt. intro L.
          rewrite (D1 L) in E1. apply leb_le in L. congruence. }
        assert (A1 : (0 <? Obstacle.hp o1) = true).
        { apply ltb_lt. apply leb_gt. exact E1. }
        rewrite A0, A1, andb_false_r. simpl.
        rewrite (itemFor_ext o o1 R1 M1).
        destruct (Obstacle.hp o2 <=? 0); simpl.
        -- apply Permutation_cons_app. exact P.
        -- exact P.
Qed.

Lemma obstacleHit_alive (b : Bullet.t) (o : Obstacle.t) :
  obstacleHit b o = true -> 0 < Obstacle.hp o.
Proof.
  unfold obstacleHit. intro H. apply andb_true_iff in H as [H _].
  apply ltb_lt. exact H.
Qed.

Lemma obsStep_damage (b : Bullet.t) (o : Obstacle.t) :
  0 < Obstacle.hp o -> obsStep o (damageObstacle b o).
Proof.
  intro A. unfold obsStep. repeat split. intro L. exfalso.
  exact (Qclt_not_le _ _ A L).
Qed.

(** One bullet. *)
Lemma collideBullet_drops (b : Bullet.t) (s : State) :
  Forall2 obsStep (obstacles s) (obstacles (snd (collideBullet b s)))
  /\ attackBonus (snd (collideBullet b s)) = attackBonus s
  /\ items (snd (collideBullet b s))
     = items s ++ drops (obstacles s) (obstacles (snd (collideBullet b s))).
Proof.
  rewrite collideBullet_eq. unfold collideOutcome.
  destruct (Bullet.life b <=? 0).
  { simpl. rewrite drops_same, app_nil_r.
    auto using Forall2_obsStep_refl. }
  destruct (splitFirst (enemyHit b) (zombies s)) as [[[pre z] post]|].
  { simpl. rewrite drops_same, app_nil_r.
    auto using Forall2_obsStep_refl. }
  destruct (splitFirst (enemyHit b) (bosses s)) as [[[pre z] post]|].
  { simpl. rewrite drops_same, app_nil_r.
    auto using Forall2_obsStep_refl. }
  destruct (splitFirst (obstacleHit b) (obstacles s))
    as [[[pre o] post]|] eqn:O.
  - apply splitFirst_Some in O as (Eo & Ho & _).
    pose proof (obstacleHit_alive b o Ho) as A.
    pose proof A as A'. apply ltb_lt in A'.
    cbv zeta.
    destruct (Obstacle.hp (damageObstacle b o) <=? 0) eqn:D; simpl;
      rewrite Eo, drops_one, A', D; simpl;
      (split; [apply Forall2_obsStep_one; apply obsStep_damage; exact A|]);
      split; try reflexivity.
    rewrite app_nil_r. reflexivity.
  - simpl. rewrite drops_same, app_nil_r.
    auto using Forall2_obsStep_refl.
Qed.

(** All the bullets of a frame. *)
Lemma forEach_collide_drops (l : list Bullet.t) :
  forall s : State,
    let s' := snd (forEach collideBullet l s) in
    Forall2 obsStep (obstacles s) (obstacles s')
    /\ attackBonus s' = attackBonus s
    /\ exists new,
         items s' = items s ++ new
         /\ Permutation new (drops (obstacles s) (obstacles s')).
Proof.
  induction l as [|b rest IH]; intro s; cbv zeta; simpl.
  - split; [apply Forall2_obsStep_refl|]. split; [reflexivity|].
    exists []. rewrite drops_same, app_nil_r. split; constructor.
  - destruct (collideBullet_drops b s) as (F1 & A1 & I1).
    destruct (collideBullet b s) as [b' s1]. simpl in F1, A1, I1.
    specialize (IH s1). cbv zeta in IH.
    destruct (forEach collideBullet rest s1) as [rest' s2]. simpl in *.
    destruct IH as (F2 & A2 & new & I2 & P2).
    destruct (drops_compose _ _ _ F1 F2) as [F P].
    split; [exact F|]. split; [congruence|].
    exists (drops (obstacles s) (obstacles s1) ++ new). split.
    + rewrite I2, I1, <- app_assoc. reflexivity.
    + apply Permutation_sym. eapply Permutation_trans; [exact P|].
      apply Permutation_app_head. apply Permutation_sym. exact P2.
Qed.

Lemma collideBullets_unfold (s : State) :
  collideBullets s
  = set_bullets (fst (forEach collideBullet (bullets s) s))
      (snd (forEach collideBullet (bullets s) s)).
Proof.
  unfold collideBullets.
  destruct (forEach collideBullet (bullets s) s). reflexivity.
Qed.

Lemma collectItem_y dt dy (item : Item.t) (s : State) :
  Rect.y (Item.rect (fst (collectItem dt dy item s)))
  = Rect.y (Item.rect item) + dy + Item.vy item * dt.
Proof. unfold collectItem. frame_cases. Qed.

(** Two bullets of one frame over the same obstacle, each enough to
    destroy it: one item. *)
Example two_bullets_one_item :
  let b := Bullet.make (Rect.make #100 #100 #6 #10) 0 #(-520) 1 #50 in
  let o := Obstacle.make (Rect.make #90 #80 #56 #56) #32 #32 in
  let s := set_bullets [b; b] (set_obstacles [o] initialState) in
  items (collideBullets s) = [itemFor o]
  /\ Item.bonus (itemFor o) = #1.
Proof.
  cbv zeta. split; [|apply Qc_is_canon]; vm_compute; reflexivity.
Qed.

(** ** The attack bonus *)

Section Spawner.

Variable rnd : nat -> num.

Lemma spawnZombies_bonusView y (s : State) :
  bonusView (spawnZombies rnd y s) = bonusView s.
Proof.
  unfold spawnZombies, random. cbv zeta.
  match goal with
  | |- bonusView (fold_left ?f ?l ?s0) = _ =>
      change (bonusView (fold_left f l s0) = bonusView s0);
      apply (fold_left_preserves (fun s' => bonusView s' = bonusView s0) f)
  end.
  - intros s1 i E. rewrite <- E. reflexivity.
  - reflexivity.
Qed.

Lemma spawnSegment_bonusView (s : State) :
  bonusView (spawnSegment rnd s) = bonusView s.
Proof.
  unfold spawnSegment. cbv zeta.
  destruct (_ =? 0)%Z; [reflexivity|].
  destruct (_ =? 1)%Z; [|reflexivity].
  rewrite spawnZombies_bonusView. reflexivity.
Qed.

Lemma spawnLoop_bonusView fuel needSeg :
  forall s : State, bonusView (spawnLoop rnd fuel needSeg s) = bonusView s.
Proof.
  induction fuel as [|fuel IH]; intro s; simpl; [reflexivity|].
  destruct (lastSeg s <? needSeg)%Z; [|reflexivity].
  rewrite IH. apply spawnSegment_bonusView.
Qed.

Lemma ensureSpawns_bonusView (s : State) :
  bonusView (ensureSpawns rnd s) = bonusView s.
Proof. unfold ensureSpawns. apply spawnLoop_bonusView. Qed.

Lemma bossLoop_bonusView fuel :
  forall s : State, bonusView (bossLoop rnd fuel s) = bonusView s.
Proof.
  induction fuel as [|fuel IH]; intro s; simpl; [reflexivity|].
  destruct (nextBossDist s <=? dist s); [|reflexivity].
  rewrite IH. reflexivity.
Qed.

Lemma ensureBossSpawn_bonusView (s : State) :
  bonusView (ensureBossSpawn rnd s) = bonusView s.
Proof. unfold ensureBossSpawn. apply bossLoop_bonusView. Qed.

End Spawner.

Lemma collectItem_eq dt dy (item : Item.t) (s : State) :
  collectItem dt dy item s
  = let it := fallItem dt dy item in
    if Item.collected item || negb (aabb (player s) (Item.rect it))
    then (it, s)
    else
      let bonus' := min MAX_ATTACK_BONUS (attackBonus s + Item.bonus item) in
      let s1 := set_attackBonus bonus' s in
      (Item.setCollected true it,
       if 0 <? bonus' - attackBonus s
       then spawnFloater (AttackPlus (bonus' - attackBonus s))
              (Rect.x (Item.rect it) + Rect.w (Item.rect it) / #2)
              (Rect.y (Item.rect it)) s1
       else s1).
Proof.
  unfold collectItem, fallItem. cbv zeta.
  cbn [Item.collected Item.setY Item.bonus Item.rect Item.vy].
  destruct (Item.collected item); [reflexivity|].
  cbn [orb]. destruct (negb _); reflexivity.
Qed.

Lemma bonusView_attackBonus (s s' : State) :
  bonusView s' = bonusView s -> attackBonus s' = attackBonus s.
Proof. intro H. exact (f_equal fst H). Qed.

Lemma bonusView_items (s s' : State) :
  bonusView s' = bonusView s -> items s' = items s.
Proof. intro H. exact (f_equal snd H). Qed.

Lemma bothViews_bonusView (s s' : State) :
  bothViews s' = bothViews s -> bonusView s' = bonusView s.
Proof. intro H. exact (f_equal snd H). Qed.


Lemma obstacleBonus_range (o : Obstacle.t) :
  1 <= obstacleBonus o /\ obstacleBonus o <= MAX_ATTACK_BONUS.
Proof.
  unfold obstacleBonus. split.
  - rewrite <- ofZ_1. apply max_lb_l.
  - unfold max. destruct (_ <=? _).
    + apply min_ub_l.
    + apply ofZ_le. unfold MAX_ATTACK_BONUS. lia.
Qed.

Lemma drops_bonus (os os' : list Obstacle.t) :
  Forall (fun it => 1 <= Item.bonus it) (drops os os').
Proof.
  revert os'. induction os as [|o r IH]; intros [|o' r']; simpl;
    try constructor.
  destruct (_ && _); simpl; [constructor|]; auto.
  apply obstacleBonus_range.
Qed.

Lemma collectItem_bonus dt dy (item : Item.t) (s : State) :
  0 <= attackBonus s -> attackBonus s <= MAX_ATTACK_BONUS ->
  0 <= Item.bonus item ->
  Item.bonus (fst (collectItem dt dy item s)) = Item.bonus item
  /\ items (snd (collectItem dt dy item s)) = items s
  /\ attackBonus s <= attackBonus (snd (collectItem dt dy item s))
  /\ attackBonus (snd (collectItem dt dy item s)) <= MAX_ATTACK_BONUS.
Proof.
  intros H0 H6 Hb. unfold collectItem. cbv zeta.
  destruct (Item.collected _); [simpl; auto using Qcle_refl|].
  destruct (negb _); [simpl; auto using Qcle_refl|].
  assert (A : attackBonus s
              <= min MAX_ATTACK_BONUS (attackBonus s + Item.bonus item)).
  { unfold min. destruct (_ <=? _); [exact H6|].
    revert Hb. generalize (Item.bonus item). generalize (attackBonus s).
    intros a c Hc. qc_lra. }
  destruct (0 <? _); simpl; repeat split; auto using min_ub_l.
Qed.

Lemma forEach_collect_bonus dt dy (l : list Item.t) :
  forall s : State,
    0 <= attackBonus s -> attackBonus s <= MAX_ATTACK_BONUS ->
    Forall (fun it => 1 <= Item.bonus it) l ->
    Forall (fun it => 1 <= Item.bonus it)
           (fst (forEach (collectItem dt dy) l s))
    /\ items (snd (forEach (collectItem dt dy) l s)) = items s
    /\ attackBonus s <= attackBonus (snd (forEach (collectItem dt dy) l s))
    /\ attackBonus (snd (forEach (collectItem dt dy) l s)) <= MAX_ATTACK_BONUS.
Proof.
  induction l as [|it rest IH]; intros s H0 H6 Hl; simpl.
  - repeat split; auto using Qcle_refl.
  - inversion Hl as [|? ? Hit Hrest]; subst.
    assert (Hit0 : 0 <= Item.bonus it).
    { eapply Qcle_trans; [|exact Hit]. rewrite <- ofZ_0, <- ofZ_1.
      apply ofZ_le. lia. }
    destruct (collectItem_bonus dt dy it s H0 H6 Hit0) as (B & I & L & U).
    destruct (collectItem dt dy it s) as [it' s1]. simpl in B, I, L, U.
    assert (H01 : 0 <= attackBonus s1) by exact (Qcle_trans _ _ _ H0 L).
    destruct (IH s1 H01 U Hrest) as (F & I2 & L2 & U2).
    destruct (forEach (collectItem dt dy) rest s1) as [rest' s2]. simpl in *.
    repeat split.
    + constructor; [rewrite B; exact Hit | exact F].
    + congruence.
    + exact (Qcle_trans _ _ _ L L2).
    + exact U2.
Qed.

Lemma update_unfold (rnd : nat -> num) (dt : num) (s : State) :
  alive s = true ->
  update rnd dt s
  = publishHud dt (ensureBossSpawn rnd (ensureSpawns rnd (prune (simulate dt s)))).
Proof.
  intro H. unfold update. rewrite H. reflexivity.
Qed.

Lemma collectItems_unfold dt dy (s : State) :
  collectItems dt dy s
  = set_items (fst (forEach (collectItem dt dy) (items s) s))
      (snd (forEach (collectItem dt dy) (items s) s)).
Proof.
  unfold collectItems.
  destruct (forEach (collectItem dt dy) (items s) s). reflexivity.
Qed.

Lemma collideBullets_bonusOk (s : State) :
  bonusOk s ->
  bonusOk (collideBullets s) /\ attackBonus (collideBullets s) = attackBonus s.
Proof.
  intros (H0 & H6 & Hi).
  rewrite collideBullets_unfold. unfold bonusOk. simpl.
  destruct (forEach_collide_drops (bullets s) s) as (_ & A & new & I & P).
  cbv zeta in A, I, P. rewrite A, I. repeat split; auto.
  apply Forall_app. split; [exact Hi|].
  eapply Permutation_Forall; [apply Permutation_sym; exact P|].
  apply drops_bonus.
Qed.

Lemma collectItems_bonusOk dt dy (s : State) :
  bonusOk s ->
  bonusOk (collectItems dt dy s)
  /\ attackBonus s <= attackBonus (collectItems dt dy s).
Proof.
  intros (H0 & H6 & Hi).
  rewrite collectItems_unfold. unfold bonusOk. simpl.
  destruct (forEach_collect_bonus dt dy (items s) s H0 H6 Hi)
    as (F & _ & L & U).
  repeat split; auto. exact (Qcle_trans _ _ _ H0 L).
Qed.

Lemma bonusOk_view (s s' : State) :
  bonusView s' = bonusView s -> bonusOk s -> bonusOk s'.
Proof.
  intros E (H0 & H6 & Hi). unfold bonusOk.
  rewrite (bonusView_attackBonus _ _ E), (bonusView_items _ _ E). auto.
Qed.

Lemma prune_bonusOk (s : State) :
  bonusOk s -> bonusOk (prune s) /\ attackBonus (prune s) = attackBonus s.
Proof.
  intros (H0 & H6 & Hi). unfold bonusOk, prune. simpl.
  repeat split; auto.
  apply Forall_forall. intros it Hin. apply filter_In in Hin as [Hin _].
  rewrite Forall_forall in Hi. auto.
Qed.

Lemma simulate_bonusOk dt (s : State) :
  bonusOk s ->
  bonusOk (simulate dt s) /\ attackBonus s <= attackBonus (simulate dt s).
Proof.
  intro H. unfold simulate. cbv zeta.
  set (s3 := steerPlayer _).
  set (dy := speed s3 * dt).
  set (s4 := advanceBullets dt _).
  assert (E4 : bonusView s4 = bonusView s).
  { unfold s4.
    rewrite (bothViews_bonusView _ _ (advanceBullets_views dt _)).
    rewrite (bothViews_bonusView _ _ (shootAtNearest_views dt _)).
    rewrite (bothViews_bonusView _ _ (crossGates_views _)).
    rewrite scroll_bonusView. reflexivity. }
  pose proof (bonusOk_view _ _ E4 H) as H4.
  destruct (collideBullets_bonusOk s4 H4) as [H5 A5].
  set (s5 := collideBullets s4) in *.
  pose proof (bothViews_bonusView _ _ (touchHazards_views s5)) as E6.
  pose proof (bonusOk_view _ _ E6 H5) as H6.
  set (s6 := touchHazards s5) in *.
  destruct (collectItems_bonusOk dt dy s6 H6) as [H7 L7].
  set (s7 := collectItems dt dy s6) in *.
  pose proof (bothViews_bonusView _ _ (advanceFloaters_views dt s7)) as E8.
  split; [exact (bonusOk_view _ _ E8 H7)|].
  rewrite (bonusView_attackBonus _ _ E8).
  rewrite (bonusView_attackBonus _ _ E6) in L7. rewrite A5 in L7.
  rewrite (bonusView_attackBonus _ _ E4) in L7. exact L7.
Qed.

Lemma update_bonusOk (rnd : nat -> num) dt (s : State) :
  bonusOk s ->
  bonusOk (update rnd dt s) /\ attackBonus s <= attackBonus (update rnd dt s).
Proof.
  intro H. destruct (alive s) eqn:A.
  - rewrite (update_unfold rnd dt s A).
    destruct (simulate_bonusOk dt s H) as [H1 L1].
    destruct (prune_bonusOk _ H1) as [H2 A2].
    assert (E : bonusView (publishHud dt (ensureBossSpawn rnd
                             (ensureSpawns rnd (prune (simulate dt s)))))
                = bonusView (prune (simulate dt s))).
    { rewrite (bothViews_bonusView _ _ (publishHud_views dt _)).
      rewrite ensureBossSpawn_bonusView, ensureSpawns_bonusView. reflexivity. }
    split; [exact (bonusOk_view _ _ E H2)|].
    rewrite (bonusView_attackBonus _ _ E), A2. exact L1.
  - rewrite update_when_dead by exact A. split; [exact H | apply Qcle_refl].
Qed.

Lemma reachable_bonusOk (rnd : nat -> num) (s : State) :
  reachable rnd s -> bonusOk s.
Proof.
  induction 1 as [|dt s _ IH|lx s _ IH|lx s _ IH|s _ IH].
  - unfold startState.
    apply (bonusOk_view initialState (ensureSpawns rnd initialState)
             (ensureSpawns_bonusView rnd initialState)).
    unfold bonusOk. cbn [attackBonus items initialState]. split; [|split].
    + apply Qcle_refl.
    + rewrite <- ofZ_0. apply ofZ_le. unfold MAX_ATTACK_BONUS. lia.
    + constructor.
  - apply update_bonusOk. exact IH.
  - exact IH.
  - unfold onPointerMove. destruct (negb _); exact IH.
  - exact IH.
Qed.

(** C9.  In every world a run can reach, the attack bonus lies between 0
    and the cap 6.  It starts at 0; a step never lowers it; and an item
    collection sets it to the smaller of 6 and the bonus plus the item's
    bonus. *)
Theorem attackBonus_in_range (rnd : nat -> num) (s : State) :
  reachable rnd s ->
  0 <= attackBonus s
  /\ attackBonus s <= MAX_ATTACK_BONUS
  /\ MAX_ATTACK_BONUS = #6
  /\ attackBonus (startState rnd) = 0
  /\ (forall dt, attackBonus s <= attackBonus (update rnd dt s))
  /\ (forall dt dy (item : Item.t) (s0 : State),
        Item.collected item = false ->
        aabb (player s0) (Item.rect (fallItem dt dy item)) = true ->
        attackBonus (snd (collectItem dt dy item s0))
        = min MAX_ATTACK_BONUS (attackBonus s0 + Item.bonus item)).
Proof.
  intro R. pose proof (reachable_bonusOk rnd s R) as H.
  destruct H as (H0 & H6 & Hi).
  split; [exact H0|]. split; [exact H6|]. split; [reflexivity|].
  split.
  { unfold startState.
    rewrite (bonusView_attackBonus _ _ (ensureSpawns_bonusView rnd initialState)).
    reflexivity. }
  split.
  - intro dt. apply update_bonusOk. repeat split; assumption.
  - intros dt dy item s0 C O. rewrite collectItem_eq. cbv zeta.
    rewrite C, O. cbn [orb negb]. destruct (0 <? _); reflexivity.
Qed.

Lemma attackBonus_in_range_witness :
  0 <= attackBonus (startState (fun _ => 0))
  /\ attackBonus (startState (fun _ => 0)) <= MAX_ATTACK_BONUS.
Proof.
  destruct (attackBonus_in_range (fun _ => 0) (startState (fun _ => 0))
              (reach_start (fun _ => 0))) as (A & B & _).
  exact (conj A B).
Defined.

(** ** Items met at the cap *)

Lemma set_attackBonus_same (s : State) : set_attackBonus (attackBonus s) s = s.
Proof. destruct s. reflexivity. Qed.

Lemma collectItem_at_cap dt dy (item : Item.t) (s : State) :
  attackBonus s = MAX_ATTACK_BONUS -> 0 <= Item.bonus item ->
  collectItem dt dy item s
  = (if Item.collected item
        || negb (aabb (player s) (Item.rect (fallItem dt dy item)))
     then fallItem dt dy item
     else Item.setCollected true (fallItem dt dy item),
     s).
Proof.
  intros Hcap Hb. rewrite collectItem_eq. cbv zeta.
  destruct (_ || _); [reflexivity|].
  assert (M : min MAX_ATTACK_BONUS (attackBonus s + Item.bonus item)
              = attackBonus s).
  { rewrite Hcap. apply min_l. revert Hb. generalize (Item.bonus item).
    generalize MAX_ATTACK_BONUS. intros m c Hc. qc_lra. }
  rewrite M.
  assert (G : (0 <? attackBonus s - attackBonus s) = false).
  { apply ltb_ge. generalize (attackBonus s). intro a. qc_lra. }
  rewrite G, set_attackBonus_same. reflexivity.
Qed.

Lemma forEach_same_state {A : Type} (body : A -> State -> A * State)
    (s : State) (l : list A) :
  Forall (fun a => snd (body a s) = s) l ->
  forEach body l s = (map (fun a => fst (body a s)) l, s).
Proof.
  induction 1 as [|a rest Ha _ IH]; simpl; [reflexivity|].
  destruct (body a s) as [a' s1] eqn:E. simpl in Ha. subst s1.
  rewrite IH. reflexivity.
Qed.

(** C10.  With the attack bonus at the cap, the item loop leaves the
    bonus at 6 and emits no floater, yet every uncollected item that
    overlaps the player is marked collected; the prune filter of the same
    step rejects it, so it is not in [state.items] afterwards. *)
Theorem item_at_cap_is_consumed (dt dy : num) (s : State) :
  attackBonus s = MAX_ATTACK_BONUS ->
  Forall (fun it => 0 <= Item.bonus it) (items s) ->
  let s' := collectItems dt dy s in
  attackBonus s' = MAX_ATTACK_BONUS
  /\ floaters s' = floaters s
  /\ forall item : Item.t,
       In item (items s) ->
       Item.collected item = false ->
       aabb (player s) (Item.rect (fallItem dt dy item)) = true ->
       let taken := Item.setCollected true (fallItem dt dy item) in
       In taken (items s')
       /\ keepItem taken = false
       /\ ~ In taken (items (prune s')).
Proof.
  intros Hcap Hb. cbv zeta.
  assert (E : forEach (collectItem dt dy) (items s) s
              = (map (fun it => fst (collectItem dt dy it s)) (items s), s)).
  { apply forEach_same_state. rewrite Forall_forall in *. intros it Hin.
    rewrite (collectItem_at_cap dt dy it s Hcap (Hb it Hin)). reflexivity. }
  rewrite collectItems_unfold, E. cbn [fst snd].
  split; [exact Hcap|]. split; [reflexivity|].
  intros item Hin C O.
  assert (K : keepItem (Item.setCollected true (fallItem dt dy item)) = false).
  { unfold keepItem. cbn [Item.collected Item.setCollected negb].
    apply andb_false_r. }
  split; [|split; [exact K|]].
  - cbn [items set_items]. apply in_map_iff. exists item. split; [|exact Hin].
    rewrite Forall_forall in Hb.
    rewrite (collectItem_at_cap dt dy item s Hcap (Hb item Hin)).
    cbn [fst]. rewrite C, O. reflexivity.
  - unfold prune. cbn [items set_items set_gates set_zombies set_bosses
                       set_obstacles set_bullets set_floaters].
    intro F. apply filter_In in F as [_ F]. congruence.
Qed.

Lemma item_at_cap_is_consumed_witness :
  attackBonus (collectItems (frac 1 60) #3 worldAtCap) = MAX_ATTACK_BONUS
  /\ floaters (collectItems (frac 1 60) #3 worldAtCap) = floaters worldAtCap.
Proof.
  assert (H1 : attackBonus worldAtCap = MAX_ATTACK_BONUS) by reflexivity.
  assert (H2 : Forall (fun it => 0 <= Item.bonus it) (items worldAtCap)).
  { constructor; [vm_compute; discriminate | constructor]. }
  destruct (item_at_cap_is_consumed (frac 1 60) #3 worldAtCap H1 H2)
    as (A & B & _).
  exact (conj A B).
Defined.

(** The same through a whole step: the item is gone, the bonus and the
    floaters are as before. *)
Example update_consumes_item_at_cap :
  let s := update (fun _ => 0) (frac 1 60) (set_lastSeg 5 worldAtCap) in
  items s = [] /\ attackBonus s = #6 /\ floaters s = [].
Proof.
  cbv zeta. repeat split; try apply Qc_is_canon; vm_compute; reflexivity.
Qed.

(** ** A step of zero length *)













Lemma set_bullets_same (s : State) : set_bullets (bullets s) s = s.
Proof. destruct s. reflexivity. Qed.


Section CatchUp.

Variable rnd : nat -> num.

Lemma spawnZombies_cursor y (s : State) :
  cursorView (spawnZombies rnd y s) = cursorView s
  /\ lastSeg (spawnZombies rnd y s) = lastSeg s.
Proof.
  unfold spawnZombies, random. cbv zeta.
  match goal with
  | |- cursorView (fold_left ?f ?l ?s0) = _ /\ _ =>
      change (cursorView (fold_left f l s0) = cursorView s0
              /\ lastSeg (fold_left f l s0) = lastSeg s0);
      apply (fold_left_preserves
               (fun s' => cursorView s' = cursorView s0
                          /\ lastSeg s' = lastSeg s0) f)
  end.
  - intros s1 i [E1 E2]. rewrite <- E1, <- E2. split; reflexivity.
  - split; reflexivity.
Qed.

Lemma spawnSegment_cursor (s : State) :
  cursorView (spawnSegment rnd s) = cursorView s
  /\ lastSeg (spawnSegment rnd s) = (lastSeg s + 1)%Z.
Proof.
  unfold spawnSegment. cbv zeta.
  destruct (_ =? 0)%Z; [split; reflexivity|].
  destruct (_ =? 1)%Z; [|split; reflexivity].
  destruct (spawnZombies_cursor
              (#(-800) - #(lastSeg (set_lastSeg (lastSeg s + 1) s)) * #240)
              (set_lastSeg (lastSeg s + 1) s)) as [E1 E2].
  rewrite E1, E2. split; reflexivity.
Qed.

Lemma spawnLoop_cursor fuel needSeg :
  forall s : State,
    (needSeg - lastSeg s <= Z.of_nat fuel)%Z ->
    cursorView (spawnLoop rnd fuel needSeg s) = cursorView s
    /\ (needSeg <= lastSeg (spawnLoop rnd fuel needSeg s))%Z.
Proof.
  induction fuel as [|fuel IH]; intros s H; simpl.
  - split; [reflexivity | lia].
  - destruct (lastSeg s <? needSeg)%Z eqn:G.
    + destruct (spawnSegment_cursor s) as [E1 E2].
      destruct (IH (spawnSegment rnd s)) as [E3 E4]; [rewrite E2; lia|].
      split; [congruence | exact E4].
    + apply Z.ltb_ge in G. split; [reflexivity | exact G].
Qed.


Lemma ensureSpawns_cursor (s : State) :
  dist (ensureSpawns rnd s) = dist s
  /\ nextBossDist (ensureSpawns rnd s) = nextBossDist s
  /\ (floorZ ((dist s + #1400) / #240) <= lastSeg (ensureSpawns rnd s))%Z.
Proof.
  unfold ensureSpawns. cbv zeta.
  set (needSeg := floorZ ((dist s + #1400) / #240)).
  destruct (spawnLoop_cursor (Z.to_nat (needSeg - lastSeg s)) needSeg s)
    as [E1 E2]; [lia|].
  unfold cursorView in E1. injection E1 as E1 E3. auto.
Qed.






End CatchUp.



Section ZeroStep.

Variable rnd : nat -> num.




End ZeroStep.


Example update_zero_changes_all :
  let s := worldZombieContact in
  let s' := update (fun _ => 0) 0 s in
  Rect.x (player s) = #164 /\ Rect.x (player s') = frac 739 5
  /\ scoreValue s = #1 /\ scoreValue s' = 0
  /\ alive s = true /\ alive s' = false.
Proof.
  cbv zeta. repeat split; try apply Qc_is_canon; vm_compute; reflexivity.
Qed.

(** * Further properties of the simulation *)

(** ** Segment count *)

Lemma floorZ_mono (u v : num) : u <= v -> (floorZ u <= floorZ v)%Z.
Proof. intro H. unfold floorZ. apply Qfloor_resp_le. exact H. Qed.

Lemma floorZ_ofZ (n : Z) : floorZ #n = n.
Proof.
  apply floorZ_unique; [apply Qcle_refl|].
  rewrite ofZ_add, ofZ_1. generalize (#n). intro a. qc_lra.
Qed.

(** X1.  [getPlayerCount] always lies in 1..20 and never decreases when
    the score grows; a score below 2 (negative ones included) gives 1
    segment, a score of 20 or more gives 20, and an integer score of
    1..20 gives that many. *)
Theorem getPlayerCount_monotone (u v : num) :
  u <= v ->
  (getPlayerCount u <= getPlayerCount v)%Z
  /\ (1 <= getPlayerCount u <= 20)%Z
  /\ (u < #2 -> getPlayerCount u = 1%Z)
  /\ (#20 <= u -> getPlayerCount u = 20%Z)
  /\ (forall n : Z, (1 <= n <= 20)%Z -> getPlayerCount #n = n).
Proof.
  intro H. pose proof (floorZ_mono u v H) as M.
  unfold getPlayerCount, MAX_PLAYER_SEGMENTS.
  split; [lia|]. split; [lia|]. split; [|split].
  - intro L.
    assert (F : (floorZ u < 2)%Z).
    { apply ofZ_lt_inv. eapply Qcle_lt_trans; [apply floorZ_le | exact L]. }
    lia.
  - intro L. apply le_floorZ in L. lia.
  - intros n Hn. rewrite floorZ_ofZ. lia.
Qed.

Lemma getPlayerCount_monotone_witness :
  (getPlayerCount #3 <= getPlayerCount #999)%Z.
Proof.
  apply (getPlayerCount_monotone #3 #999). vm_compute. discriminate.
Defined.

(** ** Overlap test *)

(** X2.  [aabb] is symmetric; rectangles that only share an edge do not
    overlap; and a rectangle overlaps itself exactly when its width and
    its height are positive. *)
Theorem aabb_symmetric_strict (a b : Rect.t) :
  aabb a b = aabb b a
  /\ (Rect.x a + Rect.w a = Rect.x b -> aabb a b = false)
  /\ (Rect.y a + Rect.h a = Rect.y b -> aabb a b = false)
  /\ (aabb a a = true <-> 0 < Rect.w a /\ 0 < Rect.h a).
Proof.
  split; [|split; [|split]].
  - unfold aabb.
    destruct (Rect.x a <? Rect.x b + Rect.w b);
      destruct (Rect.x b <? Rect.x a + Rect.w a);
      destruct (Rect.y a <? Rect.y b + Rect.h b);
      destruct (Rect.y b <? Rect.y a + Rect.h a); reflexivity.
  - intro E. unfold aabb. rewrite E.
    assert (F : (Rect.x b <? Rect.x b) = false)
      by (apply ltb_ge; apply Qcle_refl).
    rewrite F, andb_false_r. reflexivity.
  - intro E. unfold aabb. rewrite E.
    assert (F : (Rect.y b <? Rect.y b) = false)
      by (apply ltb_ge; apply Qcle_refl).
    rewrite F, andb_false_r. reflexivity.
  - unfold aabb. rewrite !andb_true_iff, !ltb_lt.
    generalize (Rect.x a) (Rect.y a) (Rect.w a) (Rect.h a).
    intros px py pw ph. split.
    + intros [[[A _] _] B]. split; qc_lra.
    + intros [A B]. repeat split; qc_lra.
Qed.

Lemma aabb_symmetric_strict_witness :
  aabb (Rect.make #0 #0 #10 #10) (Rect.make #10 #0 #10 #10) = false.
Proof.
  destruct (aabb_symmetric_strict (Rect.make #0 #0 #10 #10)
              (Rect.make #10 #0 #10 #10)) as (_ & E & _).
  apply E. apply Qc_is_canon. vm_compute. reflexivity.
Defined.

(** ** Clamping and steering *)

(** X3.  For ordered bounds [clamp] lands inside them, is the identity on
    them, and sends a value outside to the nearer bound; for bounds in the
    wrong order it returns the lower one whatever the value. *)
Theorem clamp_bounds (v a b : num) :
  (a <= b ->
   a <= clamp v a b /\ clamp v a b <= b
   /\ (a <= v -> v <= b -> clamp v a b = v)
   /\ (v <= a -> clamp v a b = a)
   /\ (b <= v -> clamp v a b = b))
  /\ (b < a -> clamp v a b = a).
Proof.
  unfold clamp. split.
  - intro H. split; [apply max_lb_l|]. split; [|split; [|split]].
    + unfold max. destruct (a <=? min b v); [apply min_ub_l | exact H].
    + intros A B. rewrite (min_r b v B). apply max_r. exact A.
    + intro A. rewrite (min_r b v (Qcle_trans _ _ _ A H)). apply max_l. exact A.
    + intro B. rewrite (min_l b v B). apply max_r. exact H.
  - intro H. apply max_l.
    eapply Qcle_trans; [apply min_ub_l | apply Qclt_le_weak; exact H].
Qed.

Lemma clamp_bounds_witness : clamp #500 #18 #310 = #310.
Proof.
  destruct (clamp_bounds #500 #18 #310) as (H & _).
  destruct H as (_ & _ & _ & _ & E); [vm_compute; discriminate|].
  apply E. vm_compute. discriminate.
Defined.

Lemma clamp_range (v a b : num) : a <= b -> a <= clamp v a b /\ clamp v a b <= b.
Proof.
  intro H. unfold clamp. split; [apply max_lb_l|].
  unfold max. destruct (a <=? min b v); [apply min_ub_l | exact H].
Qed.

Lemma crowdWidth_le_276 :
  forallb (fun n => (10 <=? getCrowdWidth n)%Z && (getCrowdWidth n <=? 276)%Z)
          counts = true.
Proof. vm_compute. reflexivity. Qed.

Lemma playerWidth_range (value : num) :
  #32 <= max #MIN_PLAYER_WIDTH #(getCrowdWidth (getPlayerCount value))
  /\ max #MIN_PLAYER_WIDTH #(getCrowdWidth (getPlayerCount value)) <= #276.
Proof.
  split; [apply max_lb_l|].
  pose proof crowdWidth_le_276 as H. rewrite forallb_forall in H.
  specialize (H _ (counts_In _ (getPlayerCount_range value))).
  apply andb_true_iff in H as [_ H]. apply Z.leb_le in H.
  unfold max. destruct (_ <=? _).
  - apply ofZ_le. exact H.
  - apply ofZ_le. unfold MIN_PLAYER_WIDTH. lia.
Qed.

Lemma resizePlayer_w (s : State) :
  Rect.w (player (resizePlayer s))
  = max #MIN_PLAYER_WIDTH #(getCrowdWidth (getPlayerCount (scoreValue s))).
Proof.
  unfold resizePlayer. cbv zeta.
  cbn [player set_player Rect.w Rect.setW Rect.setX]. reflexivity.
Qed.

Lemma resizePlayer_x (s : State) :
  Rect.x (player (resizePlayer s))
  = Rect.x (player s) + Rect.w (player s) / #2
    - Rect.w (player (resizePlayer s)) / #2.
Proof.
  rewrite resizePlayer_w. unfold resizePlayer. cbv zeta.
  cbn [player set_player Rect.w Rect.x Rect.setW Rect.setX]. reflexivity.
Qed.

Lemma resizePlayer_yh (s : State) :
  Rect.y (player (resizePlayer s)) = Rect.y (player s)
  /\ Rect.h (player (resizePlayer s)) = Rect.h (player s).
Proof.
  unfold resizePlayer. cbv zeta.
  cbn [player set_player Rect.y Rect.h Rect.setW Rect.setX]. split; reflexivity.
Qed.

Lemma steerPlayer_rect (s : State) :
  player (steerPlayer s)
  = Rect.make (lerp (Rect.x (player s)) (desiredX s) (frac 9 50))
              (Rect.y (player s)) (Rect.w (player s)) (Rect.h (player s)).
Proof.
  unfold steerPlayer, desiredX. cbv zeta.
  cbn [player set_player Rect.setX]. reflexivity.
Qed.


(** ** The row of segments *)

Lemma half_double (a : num) : a / #2 + a / #2 = a.
Proof.
  apply Qc_is_canon. qc_unfold. inj_consts. field.
Qed.




(** ** Firing *)

Lemma set_bullets_twice (u v : list Bullet.t) (s : State) :
  set_bullets v (set_bullets u s) = set_bullets v s.
Proof. reflexivity. Qed.

Lemma fold_fire (dmg : num) (l : list num) :
  forall s : State,
    fold_left
      (fun (s : State) (segment : num) =>
         set_bullets (bullets s ++ [bulletAt (player s) dmg segment]) s)
      l s
    = set_bullets (bullets s ++ map (bulletAt (player s) dmg) l) s.
Proof.
  induction l as [|seg rest IH]; intro s; simpl.
  - rewrite app_nil_r. symmetry. apply set_bullets_same.
  - rewrite IH. cbn [player bullets set_bullets].
    rewrite <- app_assoc. reflexivity.
Qed.

Lemma shootAtNearest_eq (dt : num) (s : State) :
  shootAtNearest dt s
  = if 0 <? shootCooldown s - dt
    then set_shootCooldown (shootCooldown s - dt) s
    else
      set_shootCooldown (frac 2 25)
        (set_bullets
           (bullets s
            ++ map (bulletAt (player s) (#5 + attackBonus s))
                   (getPlayerSegmentPositions (player s)
                      (getPlayerCount (scoreValue s))))
           (set_shootCooldown (shootCooldown s - dt) s)).
Proof.
  unfold shootAtNearest. cbv zeta.
  cbn [shootCooldown set_shootCooldown].
  destruct (0 <? shootCooldown s - dt); [reflexivity|].
  f_equal.
  exact (fold_fire (#5 + attackBonus s) _
           (set_shootCooldown (shootCooldown s - dt) s)).
Qed.

(** X6.  While the cooldown less [dt] is still positive, [shootAtNearest]
    only lowers the cooldown.  Otherwise it appends one bullet per player
    segment, in segment order, each 6 by 10, centred over its segment
    with its bottom edge on the player's top edge, flying straight up at
    520 per second with 1.1 seconds to live and damage 5 plus the attack
    bonus, and sets the cooldown to 0.08 whatever it was; in a world a run
    can reach that damage is between 5 and 11. *)
Theorem shootAtNearest_fires_per_segment (rnd : nat -> num) (dt : num)
    (s : State) :
  let s' := shootAtNearest dt s in
  let segs :=
    getPlayerSegmentPositions (player s) (getPlayerCount (scoreValue s)) in
  (0 < shootCooldown s - dt ->
   bullets s' = bullets s /\ shootCooldown s' = shootCooldown s - dt)
  /\ (shootCooldown s - dt <= 0 ->
      bullets s' = bullets s ++ map (bulletAt (player s) (#5 + attackBonus s)) segs
      /\ List.length (bullets s')
         = (List.length (bullets s)
            + Z.to_nat (getPlayerCount (scoreValue s)))%nat
      /\ shootCooldown s' = frac 2 25)
  /\ (forall segX dmg,
        let b := bulletAt (player s) dmg segX in
        Rect.x (Bullet.rect b) + Rect.w (Bullet.rect b) / #2
        = segX + #PLAYER_SEGMENT_WIDTH / #2
        /\ Rect.y (Bullet.rect b) + Rect.h (Bullet.rect b) = Rect.y (player s)
        /\ Bullet.vx b = 0 /\ Bullet.vy b = #(-520)
        /\ Bullet.life b = frac 11 10 /\ Bullet.dmg b = dmg)
  /\ (reachable rnd s ->
      #5 <= #5 + attackBonus s /\ #5 + attackBonus s <= #11).
Proof.
  cbv zeta. rewrite shootAtNearest_eq.
  split; [|split; [|split]].
  - intro H. apply ltb_lt in H. rewrite H. split; reflexivity.
  - intro H. apply ltb_ge in H. rewrite H.
    cbn [bullets set_bullets set_shootCooldown shootCooldown].
    split; [reflexivity|]. split; [|reflexivity].
    rewrite length_app, length_map. unfold getPlayerSegmentPositions.
    rewrite length_map, length_seq. reflexivity.
  - intros segX dmg. unfold bulletAt.
    cbn [Bullet.rect Bullet.vx Bullet.vy Bullet.life Bullet.dmg
         Rect.x Rect.y Rect.w Rect.h].
    split; [|split; [|repeat split]].
    + generalize (segX + #PLAYER_SEGMENT_WIDTH / #2). intro c.
      apply Qc_is_canon. qc_unfold. inj_consts. field.
    + generalize (Rect.y (player s)). intro py. qc_lra.
  - intro R. destruct (reachable_bonusOk rnd s R) as (B0 & B6 & _).
    unfold MAX_ATTACK_BONUS in B6. revert B0 B6.
    generalize (attackBonus s). intros a B0 B6. split; qc_lra.
Qed.

Lemma shootAtNearest_fires_per_segment_witness :
  List.length (bullets (shootAtNearest (frac 1 60) initialState)) = 1%nat.
Proof.
  destruct (shootAtNearest_fires_per_segment (fun _ => 0) (frac 1 60)
              initialState) as (_ & F & _).
  destruct F as (_ & L & _); [vm_compute; discriminate|].
  rewrite L. reflexivity.
Defined.

(** ** Damage to the player *)

Lemma hurtPlayer_eq (amount : num) (s : State) :
  hurtPlayer amount s
  = if negb (alive s) || (amount <=? 0) then s
    else
      let score' := max 0 (scoreValue s - amount) in
      let s1 :=
        set_floaters
          (floaters s ++ [scoreFloater (score' - scoreValue s) s])
          (set_scoreValue score' s) in
      if score' <=? 0 then set_alive false s1 else s1.
Proof.
  unfold hurtPlayer. destruct (negb (alive s) || (amount <=? 0)); reflexivity.
Qed.

(** X7.  [hurtPlayer] does nothing to a dead player or for an amount of 0
    or less.  Otherwise the score becomes [max 0 (score - amount)]: never
    negative, and for a score that was not negative never higher than
    before; one floater carrying the signed change is appended at the
    player's top centre; and the player dies exactly when the new score
    is 0.  Nothing else in the world changes, and [hurtPlayer] never
    brings a dead player back. *)
Theorem hurtPlayer_floors_and_kills (amount : num) (s : State) :
  let s' := hurtPlayer amount s in
  (alive s = false \/ amount <= 0 -> s' = s)
  /\ (alive s = true -> 0 < amount ->
      scoreValue s' = max 0 (scoreValue s - amount)
      /\ 0 <= scoreValue s'
      /\ (0 <= scoreValue s -> scoreValue s' <= scoreValue s)
      /\ floaters s'
         = floaters s ++ [scoreFloater (scoreValue s' - scoreValue s) s]
      /\ (alive s' = false <-> scoreValue s <= amount))
  /\ onlyScoreChanged s s'
  /\ (alive s' = true -> alive s = true).
Proof.
  cbv zeta. rewrite hurtPlayer_eq. split; [|split; [|split]].
  - intros [A | A].
    + rewrite A. reflexivity.
    + apply leb_le in A. rewrite A, orb_true_r. reflexivity.
  - intros A P. pose proof P as P'. apply leb_gt in P'. rewrite A, P'.
    cbn [negb orb]. cbv zeta.
    assert (M0 : 0 <= max 0 (scoreValue s - amount)) by apply max_lb_l.
    assert (Mle : 0 <= scoreValue s ->
                  max 0 (scoreValue s - amount) <= scoreValue s).
    { intro S0. unfold max. destruct (0 <=? scoreValue s - amount).
      - clear M0. revert P S0. generalize (scoreValue s). intros v P S0. qc_lra.
      - exact S0. }
    assert (Dead : (max 0 (scoreValue s - amount) <=? 0) = true
                   <-> scoreValue s <= amount).
    { rewrite leb_le. unfold max.
      destruct (0 <=? scoreValue s - amount) eqn:E.
      - clear M0 Mle. generalize (scoreValue s). intro v. split; intro; qc_lra.
      - apply leb_gt in E. clear M0 Mle. revert E.
        generalize (scoreValue s). intros v E. split; intro; qc_lra. }
    destruct (max 0 (scoreValue s - amount) <=? 0) eqn:D;
      cbn [scoreValue floaters alive set_alive set_floaters set_scoreValue].
    + repeat split; auto. intros _. apply Dead. reflexivity.
    + repeat split; auto.
      * intro F. rewrite A in F. discriminate F.
      * intro L. apply Dead in L. discriminate L.
  - unfold onlyScoreChanged.
    destruct (negb (alive s) || (amount <=? 0)); [destruct s; reflexivity|].
    cbv zeta. destruct (_ <=? 0); destruct s; reflexivity.
  - destruct (alive s) eqn:A; [reflexivity|]. cbn [negb orb]. rewrite A.
    intro F. exact F.
Qed.

Lemma hurtPlayer_floors_and_kills_witness :
  scoreValue (hurtPlayer #3 initialState) = max 0 (scoreValue initialState - #3).
Proof.
  destruct (hurtPlayer_floors_and_kills #3 initialState) as (_ & H & _).
  destruct H as (E & _); [reflexivity | vm_compute; reflexivity | exact E].
Defined.

(** ** Scrolling and the boss at the bottom *)

Lemma forEach_scrollBoss (dy : num) (l : list Boss) :
  forall s : State,
    forEach (scrollBoss dy) l s
    = (map (fun b => Enemy.setY (Rect.y (Enemy.rect b) + dy) b) l,
       if alive s && existsb (reachesBottom dy) l then set_alive false s else s).
Proof.
  induction l as [|b rest IH]; intro s.
  - simpl. rewrite andb_false_r. reflexivity.
  - cbn [forEach map existsb]. unfold scrollBoss at 1.
    cbn [Enemy.rect Enemy.setY Rect.y Rect.h Rect.setY].
    fold (reachesBottom dy b).
    destruct (reachesBottom dy b); destruct (alive s) eqn:A; cbn [andb orb].
    + rewrite IH. cbn [alive set_alive andb]. reflexivity.
    + rewrite IH, A. reflexivity.
    + rewrite IH, A. reflexivity.
    + rewrite IH, A. reflexivity.
Qed.

Lemma scroll_eq (dy : num) (s : State) :
  scroll dy s
  = set_obstacles
      (map (fun o => Obstacle.setY (Rect.y (Obstacle.rect o) + dy) o)
           (obstacles s))
      (set_bosses
         (map (fun b => Enemy.setY (Rect.y (Enemy.rect b) + dy) b) (bosses s))
         (set_alive (alive s && negb (existsb (reachesBottom dy) (bosses s)))
            (set_zombies
               (map (fun z => Enemy.setY (Rect.y (Enemy.rect z) + dy) z)
                    (zombies s))
               (set_gates
                  (map (fun g => Gate.setY (Rect.y (Gate.rect g) + dy) g)
                       (gates s))
                  s)))).
Proof.
  unfold scroll. cbv zeta. cbn [bosses set_zombies set_gates].
  rewrite forEach_scrollBoss. cbn [alive set_zombies set_gates].
  destruct (alive s) eqn:A; destruct (existsb (reachesBottom dy) (bosses s));
    cbn [andb negb]; destruct s; cbn in A; subst; reflexivity.
Qed.

Lemma lifeView_alive (s s' : State) :
  lifeView s' = lifeView s -> alive s' = alive s.
Proof. intro H. exact (f_equal snd H). Qed.

Lemma lifeView_score (s s' : State) :
  lifeView s' = lifeView s -> scoreValue s' = scoreValue s.
Proof. intro H. exact (f_equal fst H). Qed.

Lemma collideBullet_lifeView (b : Bullet.t) (s : State) :
  lifeView (snd (collideBullet b s)) = lifeView s.
Proof.
  rewrite collideBullet_eq. unfold collideOutcome.
  destruct (Bullet.life b <=? 0); [reflexivity|].
  destruct (splitFirst (enemyHit b) (zombies s)) as [[[pre z] post]|];
    [reflexivity|].
  destruct (splitFirst (enemyHit b) (bosses s)) as [[[pre z] post]|];
    [reflexivity|].
  destruct (splitFirst (obstacleHit b) (obstacles s)) as [[[pre o] post]|];
    [|reflexivity].
  cbv zeta. destruct (_ <=? 0); reflexivity.
Qed.

Lemma collideBullets_lifeView (s : State) :
  lifeView (collideBullets s) = lifeView s.
Proof.
  rewrite collideBullets_unfold.
  change (lifeView (snd (forEach collideBullet (bullets s) s)) = lifeView s).
  apply (forEach_preserves (fun s' => lifeView s' = lifeView s)).
  - intros b s1 E. rewrite collideBullet_lifeView. exact E.
  - reflexivity.
Qed.

Lemma collectItem_lifeView dt dy (item : Item.t) (s : State) :
  lifeView (snd (collectItem dt dy item s)) = lifeView s.
Proof. unfold collectItem. frame_cases. Qed.

Lemma collectItems_lifeView dt dy (s : State) :
  lifeView (collectItems dt dy s) = lifeView s.
Proof.
  rewrite collectItems_unfold.
  change (lifeView (snd (forEach (collectItem dt dy) (items s) s)) = lifeView s).
  apply (forEach_preserves (fun s' => lifeView s' = lifeView s)).
  - intros b s1 E. rewrite collectItem_lifeView. exact E.
  - reflexivity.
Qed.

Lemma shootAtNearest_lifeView dt (s : State) :
  lifeView (shootAtNearest dt s) = lifeView s.
Proof.
  rewrite shootAtNearest_eq. destruct (0 <? _); reflexivity.
Qed.

Lemma publishHud_lifeView dt (s : State) :
  lifeView (publishHud dt s) = lifeView s.
Proof. unfold publishHud. frame_cases. Qed.

Section SpawnerLife.

Variable rnd : nat -> num.

Lemma spawnSegment_lifeView (s : State) :
  lifeView (spawnSegment rnd s) = lifeView s.
Proof.
  unfold spawnSegment. cbv zeta.
  destruct (_ =? 0)%Z; [reflexivity|].
  destruct (_ =? 1)%Z; [|reflexivity].
  unfold spawnZombies, random. cbv zeta.
  match goal with
  | |- lifeView (fold_left ?f ?l ?s0) = _ =>
      change (lifeView (fold_left f l s0) = lifeView s0);
      apply (fold_left_preserves (fun s' => lifeView s' = lifeView s0) f)
  end; [intros s1 i E; rewrite <- E|]; reflexivity.
Qed.

Lemma ensureSpawns_lifeView (s : State) :
  lifeView (ensureSpawns rnd s) = lifeView s.
Proof.
  unfold ensureSpawns. cbv zeta.
  generalize (floorZ ((dist s + #1400) / #240)). intro needSeg.
  generalize (Z.to_nat (needSeg - lastSeg s)). intro fuel. revert s.
  induction fuel as [|fuel IH]; intro s; simpl; [reflexivity|].
  destruct (_ <? _)%Z; [|reflexivity].
  rewrite IH. apply spawnSegment_lifeView.
Qed.

Lemma ensureBossSpawn_lifeView (s : State) :
  lifeView (ensureBossSpawn rnd s) = lifeView s.
Proof.
  unfold ensureBossSpawn. generalize (bossThresholdsCrossed s).
  intro fuel. revert s.
  induction fuel as [|fuel IH]; intro s; simpl; [reflexivity|].
  destruct (_ <=? _); [rewrite IH|]; reflexivity.
Qed.

End SpawnerLife.

(** ** Contact damage *)

Lemma onlyScoreChanged_iff (s s' : State) :
  onlyScoreChanged s s'
  <-> exists v a f, s' = set_floaters f (set_alive a (set_scoreValue v s)).
Proof.
  unfold onlyScoreChanged. split.
  - intro H. exists (scoreValue s'), (alive s'), (floaters s'). exact H.
  - intros (v & a & f & ->). reflexivity.
Qed.

Lemma onlyScoreChanged_refl (s : State) : onlyScoreChanged s s.
Proof. unfold onlyScoreChanged. destruct s. reflexivity. Qed.

Lemma onlyScoreChanged_trans (s s1 s2 : State) :
  onlyScoreChanged s s1 -> onlyScoreChanged s1 s2 -> onlyScoreChanged s s2.
Proof.
  rewrite !onlyScoreChanged_iff.
  intros (v1 & a1 & f1 & ->) (v2 & a2 & f2 & ->).
  exists v2, a2, f2. reflexivity.
Qed.

Lemma hurtStep_refl (s : State) : hurtStep s s.
Proof.
  unfold hurtStep. split; [apply onlyScoreChanged_refl|].
  split; [reflexivity|]. split.
  - intro H. split; [exact H | apply Qcle_refl].
  - intros A F. rewrite A in F. discriminate F.
Qed.

Lemma hurtStep_trans (s s1 s2 : State) :
  hurtStep s s1 -> hurtStep s1 s2 -> hurtStep s s2.
Proof.
  intros (O1 & D1 & S1 & K1) (O2 & D2 & S2 & K2).
  split; [exact (onlyScoreChanged_trans _ _ _ O1 O2)|]. split; [|split].
  - intro A. pose proof (D1 A) as E1. subst s1. exact (D2 A).
  - intro P. destruct (S1 P) as [P1 L1]. destruct (S2 P1) as [P2 L2].
    split; [exact P2 | exact (Qcle_trans _ _ _ L2 L1)].
  - intros A F. destruct (alive s1) eqn:A1.
    + exact (K2 eq_refl F).
    + rewrite (D2 eq_refl). exact (K1 A eq_refl).
Qed.

Lemma hurtPlayer_hurtStep (amount : num) (s : State) :
  hurtStep s (hurtPlayer amount s).
Proof.
  rewrite hurtPlayer_eq.
  destruct (alive s) eqn:A; cbn [negb orb]; [|apply hurtStep_refl].
  destruct (amount <=? 0) eqn:P; [apply hurtStep_refl|].
  apply leb_gt in P. cbv zeta.
  assert (M0 : 0 <= max 0 (scoreValue s - amount)) by apply max_lb_l.
  assert (Mle : 0 <= scoreValue s ->
                max 0 (scoreValue s - amount) <= scoreValue s).
  { intro S0. unfold max. destruct (0 <=? scoreValue s - amount).
    - clear M0. revert P S0. generalize (scoreValue s). intros v P S0. qc_lra.
    - exact S0. }
  unfold hurtStep.
  destruct (max 0 (scoreValue s - amount) <=? 0) eqn:D;
    cbn [scoreValue floaters alive set_alive set_floaters set_scoreValue].
  - split; [unfold onlyScoreChanged; destruct s; reflexivity|].
    split; [intro F; rewrite A in F; discriminate F|].
    split; [intro S0; split; [exact M0 | exact (Mle S0)]|].
    intros _ _. apply leb_le. exact D.
  - split; [unfold onlyScoreChanged; destruct s; reflexivity|].
    split; [intro F; rewrite A in F; discriminate F|].
    split; [intro S0; split; [exact M0 | exact (Mle S0)]|].
    intros _ F. rewrite A in F. discriminate F.
Qed.

Lemma touchObstacles_hurtStep (obs : list Obstacle.t) :
  forall s : State, hurtStep s (touchObstacles obs s).
Proof.
  induction obs as [|o rest IH]; intro s; simpl; [apply hurtStep_refl|].
  destruct (negb (alive s)); [apply hurtStep_refl|].
  destruct (Obstacle.hp o <=? 0); [apply IH|].
  destruct (aabb _ _); [|apply IH].
  eapply hurtStep_trans; [apply hurtPlayer_hurtStep | apply IH].
Qed.

Lemma touchEnemy_hurtStep (s : State) (e : Enemy.t) :
  hurtStep s (touchEnemy s e).
Proof.
  unfold touchEnemy. destruct (Enemy.hp e <=? 0); [apply hurtStep_refl|].
  destruct (aabb _ _); [apply hurtPlayer_hurtStep | apply hurtStep_refl].
Qed.

Lemma fold_touchEnemy_hurtStep (l : list Enemy.t) (s : State) :
  hurtStep s (fold_left touchEnemy l s).
Proof.
  apply (fold_left_preserves (fun s' => hurtStep s s')).
  - intros s1 e H. eapply hurtStep_trans; [exact H | apply touchEnemy_hurtStep].
  - apply hurtStep_refl.
Qed.

Lemma touchHazards_hurtStep (s : State) : hurtStep s (touchHazards s).
Proof.
  unfold touchHazards. cbv zeta.
  eapply hurtStep_trans; [apply touchObstacles_hurtStep|].
  eapply hurtStep_trans; apply fold_touchEnemy_hurtStep.
Qed.

(** X9.  The contact phase (obstacles, then zombies, then bosses against
    the player) writes nothing but the score, the alive flag and the
    floaters: no obstacle or enemy is damaged or removed by touching the
    player.  It does nothing at all to a dead player, never raises a
    score that is not negative nor takes it below 0, and when it kills a
    living player the score it leaves is 0. *)
Theorem touchHazards_only_hurts (s : State) :
  let s' := touchHazards s in
  onlyScoreChanged s s'
  /\ obstacles s' = obstacles s /\ zombies s' = zombies s
  /\ bosses s' = bosses s /\ player s' = player s
  /\ (alive s = false -> s' = s)
  /\ (0 <= scoreValue s -> 0 <= scoreValue s' /\ scoreValue s' <= scoreValue s)
  /\ (alive s = true -> alive s' = false -> 0 <= scoreValue s ->
      scoreValue s' = 0).
Proof.
  cbv zeta. destruct (touchHazards_hurtStep s) as (O & D & S & K).
  split; [exact O|].
  pose proof O as O'. apply onlyScoreChanged_iff in O' as (v & a & f & E).
  rewrite E. cbn [obstacles zombies bosses player set_floaters set_alive
                  set_scoreValue].
  split; [reflexivity|]. split; [reflexivity|]. split; [reflexivity|].
  split; [reflexivity|]. rewrite <- E.
  split; [exact D|]. split; [exact S|].
  intros A F P. apply Qcle_antisym; [exact (K A F) | apply (S P)].
Qed.

Lemma touchHazards_only_hurts_witness :
  touchHazards (set_alive false worldZombieContact)
  = set_alive false worldZombieContact.
Proof.
  destruct (touchHazards_only_hurts (set_alive false worldZombieContact))
    as (_ & _ & _ & _ & _ & D & _).
  apply D. reflexivity.
Defined.

Example contact_damage_adds_up :
  let z := Enemy.make (Rect.make #150 #530 #36 #36) #12 #3 in
  let o := Obstacle.make (Rect.make #160 #540 #56 #56) #32 #32 in
  let s := set_obstacles [o]
             (set_zombies [z; z] (set_scoreValue #10 initialState)) in
  scoreValue (touchHazards s) = #3 /\ alive (touchHazards s) = true
  /\ List.length (floaters (touchHazards s)) = 3%nat.
Proof.
  cbv zeta. repeat split; try apply Qc_is_canon; vm_compute; reflexivity.
Qed.

(** ** Life through a step *)

Lemma crossGate_life (g : Gate.t) (s : State) :
  alive (snd (crossGate g s)) = alive s
  /\ (0 <= scoreValue s -> 0 <= scoreValue (snd (crossGate g s))).
Proof.
  unfold crossGate. destruct (Gate.used g); [split; auto|].
  destruct (aabb _ _); [|split; auto].
  cbv zeta. cbn [snd alive scoreValue spawnFloater set_floaters set_scoreValue].
  split; [reflexivity|]. intros _. unfold applyGate. apply max_lb_l.
Qed.

Lemma crossGates_life (s : State) :
  alive (crossGates s) = alive s
  /\ (0 <= scoreValue s -> 0 <= scoreValue (crossGates s)).
Proof.
  unfold crossGates.
  pose proof (forEach_preserves
                (fun s' => alive s' = alive s
                           /\ (0 <= scoreValue s -> 0 <= scoreValue s'))
                crossGate) as H.
  assert (Hb : forall (a : Gate.t) (s0 : State),
             alive s0 = alive s /\ (0 <= scoreValue s -> 0 <= scoreValue s0) ->
             alive (snd (crossGate a s0)) = alive s
             /\ (0 <= scoreValue s -> 0 <= scoreValue (snd (crossGate a s0)))).
  { intros a s0 [A P]. destruct (crossGate_life a s0) as [A' P'].
    split; [congruence | auto]. }
  specialize (H Hb (gates s) s (conj eq_refl (fun P => P))).
  destruct (forEach crossGate (gates s) s) as [gs s1]. exact H.
Qed.

Lemma advanceFloaters_lifeView dt (s : State) :
  lifeView (advanceFloaters dt s) = lifeView s.
Proof. reflexivity. Qed.

Lemma advanceBullets_lifeView dt (s : State) :
  lifeView (advanceBullets dt s) = lifeView s.
Proof. reflexivity. Qed.

Lemma prune_lifeView (s : State) : lifeView (prune s) = lifeView s.
Proof. reflexivity. Qed.

Lemma steered_fields (dt : num) (s : State) :
  let s1 := resizePlayer s in
  let s3 :=
    steerPlayer
      (set_dist (dist s1 + speed s1 * dt) (set_time (time s1 + dt) s1)) in
  alive s3 = alive s /\ scoreValue s3 = scoreValue s
  /\ bosses s3 = bosses s /\ speed s3 = speed s.
Proof.
  cbv zeta. unfold steerPlayer, resizePlayer. cbv zeta.
  cbn [alive scoreValue bosses speed set_player set_dist set_time].
  repeat split.
Qed.

(** The world a step hands to its contact phase. *)
Lemma simulate_life (dt : num) (s : State) :
  exists sa : State,
    lifeView (simulate dt s) = lifeView (touchHazards sa)
    /\ alive sa
       = alive s && negb (existsb (reachesBottom (speed s * dt)) (bosses s))
    /\ (0 <= scoreValue s -> 0 <= scoreValue sa).
Proof.
  unfold simulate. cbv zeta.
  destruct (steered_fields dt s) as (A3 & S3 & B3 & V3). cbv zeta in A3, S3, B3, V3.
  revert A3 S3 B3 V3.
  generalize (steerPlayer
                (set_dist (dist (resizePlayer s) + speed (resizePlayer s) * dt)
                   (set_time (time (resizePlayer s) + dt) (resizePlayer s)))).
  intros s3 A3 S3 B3 V3.
  match goal with |- context [touchHazards ?X] => exists X end.
  split; [|split].
  - rewrite advanceFloaters_lifeView, collectItems_lifeView. reflexivity.
  - rewrite (lifeView_alive _ _ (collideBullets_lifeView _)).
    rewrite (lifeView_alive _ _ (advanceBullets_lifeView _ _)).
    rewrite (lifeView_alive _ _ (shootAtNearest_lifeView _ _)).
    rewrite (proj1 (crossGates_life _)).
    rewrite scroll_eq. cbn [alive set_obstacles set_bosses set_alive].
    rewrite A3, B3, V3. reflexivity.
  - intro P.
    rewrite (lifeView_score _ _ (collideBullets_lifeView _)).
    rewrite (lifeView_score _ _ (advanceBullets_lifeView _ _)).
    rewrite (lifeView_score _ _ (shootAtNearest_lifeView _ _)).
    apply crossGates_life. rewrite scroll_eq.
    cbn [scoreValue set_obstacles set_bosses set_alive set_zombies set_gates].
    rewrite S3. exact P.
Qed.

Lemma update_lifeView (rnd : nat -> num) (dt : num) (s : State) :
  alive s = true -> lifeView (update rnd dt s) = lifeView (simulate dt s).
Proof.
  intro A. rewrite (update_unfold rnd dt s A).
  rewrite publishHud_lifeView, ensureBossSpawn_lifeView, ensureSpawns_lifeView.
  apply prune_lifeView.
Qed.

Lemma existsb_In {A : Type} (p : A -> bool) (l : list A) (a : A) :
  In a l -> p a = true -> existsb p l = true.
Proof. intros I P. apply existsb_exists. exists a. split; assumption. Qed.

(** X8.  The scroll moves every gate, zombie, boss and obstacle down by
    [dy] and clears the alive flag when a boss's bottom edge is then at
    or below the lane's bottom edge, touching nothing else.  In a whole
    step of a living player, a boss whose bottom edge reaches 640 after
    the scroll leaves the player dead at the end of the step, wherever
    the player stands and whatever the boss's hp. *)
Theorem boss_at_bottom_kills (rnd : nat -> num) (dt : num) (s : State)
    (boss : Boss) :
  alive s = true ->
  In boss (bosses s) ->
  LOGICAL_H <= Rect.y (Enemy.rect boss) + speed s * dt + Rect.h (Enemy.rect boss) ->
  alive (update rnd dt s) = false
  /\ alive (scroll (speed s * dt) s) = false
  /\ forall dy : num,
       scroll dy s
       = set_obstacles
           (map (fun o => Obstacle.setY (Rect.y (Obstacle.rect o) + dy) o)
                (obstacles s))
           (set_bosses
              (map (fun b => Enemy.setY (Rect.y (Enemy.rect b) + dy) b)
                   (bosses s))
              (set_alive
                 (alive s && negb (existsb (reachesBottom dy) (bosses s)))
                 (set_zombies
                    (map (fun z => Enemy.setY (Rect.y (Enemy.rect z) + dy) z)
                         (zombies s))
                    (set_gates
                       (map (fun g => Gate.setY (Rect.y (Gate.rect g) + dy) g)
                            (gates s))
                       s)))).
Proof.
  intros A I B.
  assert (E : existsb (reachesBottom (speed s * dt)) (bosses s) = true).
  { apply (existsb_In _ _ boss I). unfold reachesBottom. apply leb_le. exact B. }
  split; [|split; [|intro dy; apply scroll_eq]].
  - rewrite (lifeView_alive _ _ (update_lifeView rnd dt s A)).
    destruct (simulate_life dt s) as (sa & L & Aa & _).
    rewrite (lifeView_alive _ _ L).
    rewrite E, andb_false_r in Aa.
    destruct (touchHazards_hurtStep sa) as (_ & D & _).
    rewrite (D Aa). exact Aa.
  - rewrite scroll_eq. cbn [alive set_obstacles set_bosses set_alive].
    rewrite E, andb_false_r. reflexivity.
Qed.

Lemma boss_at_bottom_kills_witness :
  alive (update (fun _ => 0) (frac 1 18)
           (set_bosses [bossAtBottom] (set_lastSeg 5 initialState)))
  = false.
Proof.
  apply (boss_at_bottom_kills (fun _ => 0) (frac 1 18)
           (set_bosses [bossAtBottom] (set_lastSeg 5 initialState))
           bossAtBottom).
  - reflexivity.
  - left. reflexivity.
  - vm_compute. discriminate.
Defined.

(** ** The score is never negative *)

Lemma update_score_nonneg (rnd : nat -> num) (dt : num) (s : State) :
  0 <= scoreValue s -> 0 <= scoreValue (update rnd dt s).
Proof.
  intro P. destruct (alive s) eqn:A.
  - rewrite (lifeView_score _ _ (update_lifeView rnd dt s A)).
    destruct (simulate_life dt s) as (sa & L & _ & Pa).
    rewrite (lifeView_score _ _ L).
    destruct (touchHazards_hurtStep sa) as (_ & _ & S & _).
    apply (S (Pa P)).
  - rewrite update_when_dead by exact A. exact P.
Qed.

(** X10.  In every world a run can reach the score is 0 or more, and a
    step keeps it so: the gate rule and the damage rule both clamp at 0
    and nothing else writes the score. *)
Theorem score_never_negative (rnd : nat -> num) (s : State) :
  reachable rnd s ->
  0 <= scoreValue s
  /\ (forall dt : num, 0 <= scoreValue (update rnd dt s)).
Proof.
  intro R.
  assert (P : 0 <= scoreValue s).
  { induction R as [|dt s _ IH|lx s _ IH|lx s _ IH|s _ IH].
    - unfold startState.
      rewrite (lifeView_score _ _ (ensureSpawns_lifeView rnd initialState)).
      cbn [scoreValue initialState]. rewrite <- ofZ_0. apply ofZ_le. lia.
    - apply update_score_nonneg. exact IH.
    - exact IH.
    - unfold onPointerMove. destruct (negb _); exact IH.
    - exact IH. }
  split; [exact P|].
  intro dt. apply update_score_nonneg. exact P.
Qed.

Lemma score_never_negative_witness :
  0 <= scoreValue (startState (fun _ => 0)).
Proof.
  destruct (score_never_negative (fun _ => 0) (startState (fun _ => 0))
              (reach_start (fun _ => 0))) as (P & _).
  exact P.
Defined.

(** ** Pruning *)

Lemma filter_idem {A : Type} (p : A -> bool) (l : list A) :
  filter p (filter p l) = filter p l.
Proof.
  induction l as [|a r IH]; simpl; [reflexivity|].
  destruct (p a) eqn:E; simpl; [rewrite E, IH|]; auto.
Qed.

Lemma filter_Forall {A : Type} (p : A -> bool) (l : list A) :
  Forall (fun a => p a = true) (filter p l).
Proof.
  apply Forall_forall. intros a H. apply filter_In in H. apply H.
Qed.

Lemma State_ext (s t : State) :
  time s = time t -> dist s = dist t -> speed s = speed t ->
  scoreValue s = scoreValue t -> alive s = alive t ->
  targetX s = targetX t -> pointerDown s = pointerDown t ->
  gates s = gates t -> zombies s = zombies t -> bosses s = bosses t ->
  obstacles s = obstacles t -> items s = items t ->
  bullets s = bullets t -> floaters s = floaters t ->
  shootCooldown s = shootCooldown t -> lastSeg s = lastSeg t ->
  nextBossDist s = nextBossDist t -> attackBonus s = attackBonus t ->
  player s = player t -> hudAccum s = hudAccum t -> hud s = hud t ->
  randCalls s = randCalls t -> s = t.
Proof.
  destruct s, t. cbn. intros. subst. reflexivity.
Qed.

Ltac prune_fields :=
  unfold prune; cbv zeta;
  cbn [set_gates set_zombies set_bosses set_obstacles set_items set_bullets
       set_floaters gates zombies bosses obstacles items bullets floaters
       time dist speed scoreValue alive targetX pointerDown shootCooldown
       lastSeg nextBossDist attackBonus player hudAccum hud randCalls].

Lemma prune_idem (s : State) : prune (prune s) = prune s.
Proof.
  apply State_ext; prune_fields; try reflexivity; apply filter_idem.
Qed.

Lemma keepGate_spec (g : Gate.t) :
  keepGate g = true <-> Rect.y (Gate.rect g) < #740 /\ Gate.used g = false.
Proof.
  assert (K : LOGICAL_H + #100 = #740) by (apply Qc_is_canon; reflexivity).
  unfold keepGate. rewrite andb_true_iff, ltb_lt, negb_true_iff, K. tauto.
Qed.

Lemma keepZombie_spec (z : Zombie) :
  keepZombie z = true <-> Rect.y (Enemy.rect z) < #740 /\ 0 < Enemy.hp z.
Proof.
  assert (K : LOGICAL_H + #100 = #740) by (apply Qc_is_canon; reflexivity).
  unfold keepZombie. rewrite andb_true_iff, !ltb_lt, K. tauto.
Qed.

Lemma keepBoss_spec (boss : Boss) :
  keepBoss boss = true
  <-> Rect.y (Enemy.rect boss) < #840 /\ 0 < Enemy.hp boss.
Proof.
  assert (K : LOGICAL_H + #200 = #840) by (apply Qc_is_canon; reflexivity).
  unfold keepBoss. rewrite andb_true_iff, !ltb_lt, K. tauto.
Qed.

Lemma keepObstacle_spec (o : Obstacle.t) :
  keepObstacle o = true
  <-> Rect.y (Obstacle.rect o) < #840 /\ 0 < Obstacle.hp o.
Proof.
  assert (K : LOGICAL_H + #200 = #840) by (apply Qc_is_canon; reflexivity).
  unfold keepObstacle. rewrite andb_true_iff, !ltb_lt, K. tauto.
Qed.

Lemma keepItem_spec (i : Item.t) :
  keepItem i = true
  <-> Rect.y (Item.rect i) < #720 /\ Item.collected i = false.
Proof.
  assert (K : LOGICAL_H + #80 = #720) by (apply Qc_is_canon; reflexivity).
  unfold keepItem. rewrite andb_true_iff, ltb_lt, negb_true_iff, K. tauto.
Qed.

Lemma keepBullet_spec (b : Bullet.t) :
  keepBullet b = true
  <-> 0 < Bullet.life b /\ #(-50) < Rect.y (Bullet.rect b).
Proof.
  unfold keepBullet. rewrite andb_true_iff, !ltb_lt. tauto.
Qed.

Lemma keepFloater_spec (f : Floater.t) :
  keepFloater f = true <-> 0 < Floater.life f.
Proof. unfold keepFloater. apply ltb_lt. Qed.

Lemma In_filter_spec {A : Type} (p : A -> bool) (P : A -> Prop) (l : list A) :
  (forall a, p a = true <-> P a) ->
  forall a, In a (filter p l) <-> In a l /\ P a.
Proof.
  intros H a. rewrite filter_In, H. tauto.
Qed.

(** X11.  [prune] keeps, in each of the seven collections, exactly the
    entities that pass its test, and adds none: a gate stays when it is
    unused and above 740, a zombie when its hp is above 0 and it is above
    740, a boss or an obstacle when its hp is above 0 and it is above 840,
    an item when it is uncollected and above 720, a bullet when it has
    life left and its y is greater than -50, a floater when it has life
    left (above meaning a smaller y).  So after
    [prune] every entity passes its test; pruning twice is pruning once;
    the score, the alive flag and the player are not touched; and what
    stays keeps its order and its number of copies (each collection is
    the filter of what it was). *)
Theorem prune_keeps_exactly_the_live (s : State) :
  (forall g, In g (gates (prune s))
             <-> In g (gates s)
                 /\ (Rect.y (Gate.rect g) < #740 /\ Gate.used g = false))
  /\ (forall z, In z (zombies (prune s))
                <-> In z (zombies s)
                    /\ (Rect.y (Enemy.rect z) < #740 /\ 0 < Enemy.hp z))
  /\ (forall b, In b (bosses (prune s))
                <-> In b (bosses s)
                    /\ (Rect.y (Enemy.rect b) < #840 /\ 0 < Enemy.hp b))
  /\ (forall o, In o (obstacles (prune s))
                <-> In o (obstacles s)
                    /\ (Rect.y (Obstacle.rect o) < #840 /\ 0 < Obstacle.hp o))
  /\ (forall i, In i (items (prune s))
                <-> In i (items s)
                    /\ (Rect.y (Item.rect i) < #720
                        /\ Item.collected i = false))
  /\ (forall b, In b (bullets (prune s))
                <-> In b (bullets s)
                    /\ (0 < Bullet.life b /\ #(-50) < Rect.y (Bullet.rect b)))
  /\ (forall f, In f (floaters (prune s))
                <-> In f (floaters s) /\ 0 < Floater.life f)
  /\ Forall (fun g => Gate.used g = false
                      /\ Rect.y (Gate.rect g) < #740) (gates (prune s))
  /\ Forall (fun z => 0 < Enemy.hp z
                      /\ Rect.y (Enemy.rect z) < #740) (zombies (prune s))
  /\ Forall (fun b => 0 < Enemy.hp b
                      /\ Rect.y (Enemy.rect b) < #840) (bosses (prune s))
  /\ Forall (fun o => 0 < Obstacle.hp o
                      /\ Rect.y (Obstacle.rect o) < #840) (obstacles (prune s))
  /\ Forall (fun i => Item.collected i = false
                      /\ Rect.y (Item.rect i) < #720) (items (prune s))
  /\ Forall (fun b => 0 < Bullet.life b
                      /\ #(-50) < Rect.y (Bullet.rect b)) (bullets (prune s))
  /\ Forall (fun f => 0 < Floater.life f) (floaters (prune s))
  /\ (forall z, In z (zombies (prune s))
                <-> In z (zombies s) /\ keepZombie z = true)
  /\ (forall o, In o (obstacles (prune s))
                <-> In o (obstacles s) /\ keepObstacle o = true)
  /\ prune (prune s) = prune s
  /\ scoreValue (prune s) = scoreValue s /\ alive (prune s) = alive s
  /\ player (prune s) = player s
  /\ (gates (prune s) = filter keepGate (gates s)
      /\ zombies (prune s) = filter keepZombie (zombies s)
      /\ bosses (prune s) = filter keepBoss (bosses s)
      /\ obstacles (prune s) = filter keepObstacle (obstacles s)
      /\ items (prune s) = filter keepItem (items s)
      /\ bullets (prune s) = filter keepBullet (bullets s)
      /\ floaters (prune s) = filter keepFloater (floaters s)).
Proof.
  assert (G : forall g, In g (gates (prune s))
                        <-> In g (gates s)
                            /\ (Rect.y (Gate.rect g) < #740
                                /\ Gate.used g = false))
    by (prune_fields; apply In_filter_spec, keepGate_spec).
  assert (Z : forall z, In z (zombies (prune s))
                        <-> In z (zombies s)
                            /\ (Rect.y (Enemy.rect z) < #740
                                /\ 0 < Enemy.hp z))
    by (prune_fields; apply In_filter_spec, keepZombie_spec).
  assert (B : forall b, In b (bosses (prune s))
                        <-> In b (bosses s)
                            /\ (Rect.y (Enemy.rect b) < #840
                                /\ 0 < Enemy.hp b))
    by (prune_fields; apply In_filter_spec, keepBoss_spec).
  assert (O : forall o, In o (obstacles (prune s))
                        <-> In o (obstacles s)
                            /\ (Rect.y (Obstacle.rect o) < #840
                                /\ 0 < Obstacle.hp o))
    by (prune_fields; apply In_filter_spec, keepObstacle_spec).
  assert (I : forall i, In i (items (prune s))
                        <-> In i (items s)
                            /\ (Rect.y (Item.rect i) < #720
                                /\ Item.collected i = false))
    by (prune_fields; apply In_filter_spec, keepItem_spec).
  assert (U : forall b, In b (bullets (prune s))
                        <-> In b (bullets s)
                            /\ (0 < Bullet.life b
                                /\ #(-50) < Rect.y (Bullet.rect b)))
    by (prune_fields; apply In_filter_spec, keepBullet_spec).
  assert (F : forall f, In f (floaters (prune s))
                        <-> In f (floaters s) /\ 0 < Floater.life f)
    by (prune_fields; apply In_filter_spec, keepFloater_spec).
  split; [exact G|]. split; [exact Z|]. split; [exact B|].
  split; [exact O|]. split; [exact I|]. split; [exact U|].
  split; [exact F|].
  split; [apply Forall_forall; intros g H; apply G in H; tauto|].
  split; [apply Forall_forall; intros g H; apply Z in H; tauto|].
  split; [apply Forall_forall; intros g H; apply B in H; tauto|].
  split; [apply Forall_forall; intros g H; apply O in H; tauto|].
  split; [apply Forall_forall; intros g H; apply I in H; tauto|].
  split; [apply Forall_forall; intros g H; apply U in H; tauto|].
  split; [apply Forall_forall; intros g H; apply F in H; tauto|].
  split; [intro z; prune_fields; apply filter_In|].
  split; [intro o; prune_fields; apply filter_In|].
  split; [apply prune_idem|].
  split; [reflexivity|]. split; [reflexivity|]. split; [reflexivity|].
  prune_fields. repeat split.
Qed.

(** ** The frame clock and the pointer *)

(** X12.  The [dt] of a frame never exceeds 0.033; it is the elapsed time
    in seconds when at most 33 ms have passed, and 0.033 after a longer
    pause; it is not negative when the clock has not gone back. *)
Theorem frameDt_capped (now last : num) :
  frameDt now last <= frac 33 1000
  /\ (now - last <= #33 -> frameDt now last = (now - last) / #1000)
  /\ (#33 <= now - last -> frameDt now last = frac 33 1000)
  /\ (last <= now -> 0 <= frameDt now last).
Proof.
  assert (Hdiv : forall d : num,
             (d <= #33 -> d / #1000 <= frac 33 1000)
             /\ (#33 <= d -> frac 33 1000 <= d / #1000)
             /\ (0 <= d -> 0 <= d / #1000)).
  { intro d.
    assert (E : d / #1000 = d * frac 1 1000).
    { apply Qc_is_canon. qc_unfold. inj_consts. field. }
    rewrite E. repeat split; intro H; qc_lra. }
  unfold frameDt. split; [apply min_ub_l|]. split; [|split].
  - intro H. apply min_r. apply Hdiv. exact H.
  - intro H. apply min_l. apply Hdiv. exact H.
  - intro H. unfold min. destruct (_ <=? _).
    + vm_compute. discriminate.
    + apply Hdiv. clear Hdiv. qc_lra.
Qed.



(** X14.  The pointer handlers write nothing but [targetX] and
    [pointerDown].  A move is ignored unless the pointer is down: after
    pointer-up (or cancel) every move leaves the world as it is, until the
    next pointer-down, which takes the target at once; while down, each
    move replaces the target. *)
Theorem pointer_tracking (s : State) (x0 x1 x2 : num) :
  onPointerMove x1 (onPointerUp s) = onPointerUp s
  /\ onPointerUp (onPointerUp s) = onPointerUp s
  /\ targetX (onPointerMove x2 (onPointerMove x1 (onPointerDown x0 s))) = x2
  /\ targetX (onPointerMove x2 (onPointerUp (onPointerMove x1 (onPointerDown x0 s))))
     = x1
  /\ targetX (onPointerDown x0 s) = x0
  /\ (pointerDown s = false -> onPointerMove x1 s = s)
  /\ (forall e : State,
        e = onPointerDown x0 s \/ e = onPointerMove x0 s \/ e = onPointerUp s ->
        e = set_targetX (targetX e) (set_pointerDown (pointerDown e) s)).
Proof.
  unfold onPointerMove, onPointerUp, onPointerDown.
  cbn [pointerDown targetX set_pointerDown set_targetX negb].
  split; [reflexivity|]. split; [reflexivity|]. split; [reflexivity|].
  split; [reflexivity|]. split; [reflexivity|]. split.
  - intro H. rewrite H. reflexivity.
  - intros e [E | [E | E]]; subst e.
    + reflexivity.
    + destruct (negb (pointerDown s)); destruct s; reflexivity.
    + reflexivity.
Qed.

(** ** Moves compose *)



(** ** What the spawners make *)

Section SpawnedWave.

Variable rnd : nat -> num.

Lemma fold_wave (y : num) (len : nat) :
  forall (a : nat) (s : State),
    fold_left
      (fun (s : State) (i : nat) =>
         let (r, s) := random rnd s in
         let zx := #40 + r * (LOGICAL_W - #80) in
         set_zombies
           (zombies s ++
            [Enemy.make
               (Rect.make (zx - #18) (y + #(Z.of_nat i) * #40) #36 #36)
               (#12 + floor (dist s / #200) * #8)
               (#3 + floor (dist s / #1000))])
           s)
      (seq a len) s
    = set_zombies
        (zombies s ++
         map (fun i => waveZombie (rnd (randCalls s + (i - a))) y (dist s) i)
             (seq a len))
        (set_randCalls (randCalls s + len) s).
Proof.
  induction len as [|len IH]; intros a s.
  - cbn [seq fold_left map]. rewrite app_nil_r, Nat.add_0_r.
    apply State_ext; reflexivity.
  - cbn [seq fold_left]. rewrite IH. unfold random.
    apply State_ext;
      cbn [set_zombies set_randCalls zombies randCalls time dist speed
           scoreValue alive targetX pointerDown gates bosses obstacles items
           bullets floaters shootCooldown lastSeg nextBossDist attackBonus
           player hudAccum hud];
      try reflexivity.
    + rewrite <- app_assoc. f_equal. cbn [app map]. f_equal.
      * rewrite Nat.sub_diag, Nat.add_0_r. reflexivity.
      * apply map_ext_in. intros i Hi. apply in_seq in Hi.
        replace (S (randCalls s) + (i - S a))%nat
          with (randCalls s + (i - a))%nat by lia.
        reflexivity.
    + lia.
Qed.

Lemma spawnZombies_eq (y : num) (s : State) :
  let n := Z.to_nat (waveSize (rnd (randCalls s)) (dist s)) in
  spawnZombies rnd y s
  = set_zombies
      (zombies s ++
       map (fun i => waveZombie (rnd (S (randCalls s) + i)) y (dist s) i)
           (seq 0 n))
      (set_randCalls (S (randCalls s) + n) s).
Proof.
  cbv zeta. unfold spawnZombies. cbv zeta. unfold random at 1.
  cbn [dist set_randCalls].
  rewrite fold_wave. fold (waveSize (rnd (randCalls s)) (dist s)).
  apply State_ext;
    cbn [set_zombies set_randCalls zombies randCalls time dist speed
         scoreValue alive targetX pointerDown gates bosses obstacles items
         bullets floaters shootCooldown lastSeg nextBossDist attackBonus
         player hudAccum hud];
    try reflexivity.
  f_equal. apply map_ext. intro i. rewrite Nat.sub_0_r. reflexivity.
Qed.

End SpawnedWave.

Lemma toInt32_unit (r : num) (n : Z) :
  (0 < n <= 1000)%Z -> 0 <= r -> r < 1 ->
  (0 <= toInt32 (r * #n) < n)%Z.
Proof.
  intros Hn H0 H1.
  assert (P : 0 < #n) by (apply ofZ_pos; lia).
  assert (A0 : 0 <= r * #n).
  { rewrite <- (Qcmult_0_l (#n)).
    apply Qcmult_le_compat_r; [exact H0 | apply Qclt_le_weak; exact P]. }
  assert (A1 : r * #n < #n).
  { rewrite <- (Qcmult_1_l (#n)) at 2.
    apply Qcmult_lt_compat_r; [exact P | exact H1]. }
  rewrite toInt32_floor; [|exact A0|].
  - split.
    + apply le_floorZ. rewrite ofZ_0. exact A0.
    + apply ofZ_lt_inv. eapply Qcle_lt_trans; [apply floorZ_le | exact A1].
  - eapply Qclt_le_trans; [exact A1|]. apply ofZ_le. lia.
Qed.

Lemma waveSize_range (r d : num) :
  0 <= r -> r < 1 -> 0 <= d -> (9 <= waveSize r d <= 40)%Z.
Proof.
  intros H0 H1 Hd. unfold waveSize.
  pose proof (toInt32_unit r 6 ltac:(lia) H0 H1) as T.
  assert (F : (0 <= floorZ (d / #800))%Z).
  { apply le_floorZ. rewrite ofZ_0. apply div_nonneg; [exact Hd|].
    apply ofZ_pos. lia. }
  lia.
Qed.

(** X16.  With draws in [0, 1) and a distance that is not negative,
    [spawnZombies] appends a wave of 9 to 40 zombies behind the ones
    there, one per row of 40 from [y] on; each is 36 by 36 and lies
    inside the lane (22 <= x and x + 36 < 338), and all of a wave have
    the same hp, 12 plus 8 per 200 of distance, and the same contact
    damage, 3 plus 1 per 1000 of distance.  It takes one draw for the
    size and one per zombie. *)
Theorem spawnZombies_wave (rnd : nat -> num) (y : num) (s : State) :
  unitRandom rnd -> 0 <= dist s ->
  exists wave : list Zombie,
    zombies (spawnZombies rnd y s) = zombies s ++ wave
    /\ (9 <= List.length wave <= 40)%nat
    /\ randCalls (spawnZombies rnd y s)
       = (randCalls s + 1 + List.length wave)%nat
    /\ (forall (i : nat) (z : Zombie), nth_error wave i = Some z ->
          Rect.y (Enemy.rect z) = y + #(Z.of_nat i) * #40
          /\ Rect.w (Enemy.rect z) = #36 /\ Rect.h (Enemy.rect z) = #36
          /\ #22 <= Rect.x (Enemy.rect z)
          /\ Rect.x (Enemy.rect z) + Rect.w (Enemy.rect z) < #338
          /\ Enemy.hp z = #12 + floor (dist s / #200) * #8
          /\ #12 <= Enemy.hp z
          /\ Enemy.damage z = #3 + floor (dist s / #1000)
          /\ #3 <= Enemy.damage z).
Proof.
  intros U D.
  pose proof (spawnZombies_eq rnd y s) as E. cbv zeta in E.
  set (n := Z.to_nat (waveSize (rnd (randCalls s)) (dist s))) in *.
  destruct (U (randCalls s)) as [U0 U1].
  pose proof (waveSize_range _ _ U0 U1 D) as R.
  exists (map (fun i => waveZombie (rnd (S (randCalls s) + i)%nat) y (dist s) i)
              (seq 0 n)).
  rewrite E. cbn [zombies randCalls set_zombies set_randCalls].
  rewrite length_map, length_seq.
  split; [reflexivity|]. split; [unfold n; lia|]. split; [lia|].
  intros i z Hz.
  rewrite nth_error_map in Hz.
  destruct (nth_error (seq 0 n) i) as [j|] eqn:Hj; [|discriminate Hz].
  pose proof (nth_error_nth _ _ 0%nat Hj) as Hj'.
  assert (Li : (i < List.length (seq 0 n))%nat)
    by (apply nth_error_Some; congruence).
  rewrite length_seq in Li.
  rewrite seq_nth in Hj' by exact Li. cbn in Hj'. subst j.
  cbn in Hz. injection Hz as Hz. subst z.
  destruct (U (S (randCalls s + i))) as [V0 V1].
  generalize dependent (rnd (S (randCalls s + i))). intros r V0 V1.
  unfold waveZombie. cbn [Enemy.rect Enemy.hp Enemy.damage Rect.x Rect.y
                          Rect.w Rect.h].
  assert (F2 : 0 <= floor (dist s / #200)).
  { apply floor_nonneg. apply div_nonneg; [exact D | apply ofZ_pos; lia]. }
  assert (F3 : 0 <= floor (dist s / #1000)).
  { apply floor_nonneg. apply div_nonneg; [exact D | apply ofZ_pos; lia]. }
  generalize dependent (floor (dist s / #200)).
  generalize dependent (floor (dist s / #1000)).
  intros f3 F3 f2 F2. clear E R U Li D.
  unfold LOGICAL_W.
  split; [reflexivity|]. split; [reflexivity|]. split; [reflexivity|].
  split; [qc_lra|]. split; [qc_lra|]. split; [reflexivity|].
  split; [qc_lra|]. split; [reflexivity|]. qc_lra.
Qed.

Lemma halfRandom_unit : unitRandom halfRandom.
Proof.
  intro k. unfold halfRandom. split.
  - vm_compute. discriminate.
  - vm_compute. reflexivity.
Qed.

Lemma spawnZombies_wave_witness :
  exists wave : list Zombie,
    zombies (spawnZombies halfRandom #(-800) initialState)
    = zombies initialState ++ wave
    /\ (9 <= List.length wave <= 40)%nat.
Proof.
  destruct (spawnZombies_wave halfRandom #(-800) initialState)
    as (wave & A & B & _).
  - exact halfRandom_unit.
  - vm_compute. discriminate.
  - exists wave. split; [exact A | exact B].
Defined.






(** X19.  [spawnGatePair] appends two unused gates of 130 by 44: the left
    one at x = 25 and [y], the right one at x = 205 and 164 higher, so
    they do not meet side by side, and no rectangle of height 120 or less
    (the player is 40 high) overlaps both, however far the pair has
    scrolled.  With draws in [0, 1) both operations come from the table
    of four. *)
Theorem spawnGatePair_layout (rnd : nat -> num) (y : num) (s : State) :
  unitRandom rnd ->
  exists ga gb : Gate.t,
    gates (spawnGatePair rnd y s) = gates s ++ [ga; gb]
    /\ Gate.rect ga = Rect.make #25 y #130 #44
    /\ Gate.rect gb = Rect.make #205 (y - #164) #130 #44
    /\ Gate.used ga = false /\ Gate.used gb = false
    /\ In (Gate.op ga) ops /\ In (Gate.op gb) ops
    /\ forall (p : Rect.t) (dy : num),
         Rect.h p <= #120 ->
         aabb p (shiftRect dy (Gate.rect ga))
         && aabb p (shiftRect dy (Gate.rect gb)) = false.
Proof.
  intro U. unfold spawnGatePair, random. cbv zeta.
  cbn [gates set_gates set_randCalls randCalls].
  assert (A : LOGICAL_W * frac 1 4 - #130 / #2 = #25).
  { apply Qc_is_canon. vm_compute. reflexivity. }
  assert (B : LOGICAL_W * frac 3 4 - #130 / #2 = #205).
  { apply Qc_is_canon. vm_compute. reflexivity. }
  assert (C : #44 + #120 = #164).
  { apply Qc_is_canon. vm_compute. reflexivity. }
  rewrite A, B, C, <- app_assoc. cbn [app].
  eexists. eexists. split; [reflexivity|].
  unfold makeGate.
  cbn [Gate.rect Gate.used Gate.op].
  split; [reflexivity|]. split; [reflexivity|]. split; [reflexivity|].
  split; [reflexivity|].
  split; [apply random_op_in_ops; apply U|].
  split; [apply random_op_in_ops; apply U|].
  intros p dy Hp.
  destruct (aabb p (shiftRect dy (Rect.make #25 y #130 #44))) eqn:E1;
    [|reflexivity].
  destruct (aabb p (shiftRect dy (Rect.make #205 (y - #164) #130 #44))) eqn:E2;
    [|reflexivity].
  exfalso. unfold aabb, shiftRect, Rect.setY in E1, E2.
  cbn [Rect.x Rect.y Rect.w Rect.h] in E1, E2.
  apply andb_true_iff in E1 as [E1 E1d]. apply andb_true_iff in E1 as [_ E1c].
  apply andb_true_iff in E2 as [E2 _]. apply andb_true_iff in E2 as [_ E2c].
  apply ltb_lt in E1d, E2c. clear E1c U A B C.
  qc_lra.
Qed.

Lemma spawnGatePair_layout_witness :
  exists ga gb : Gate.t,
    gates (spawnGatePair halfRandom #(-800) initialState)
    = gates initialState ++ [ga; gb]
    /\ Gate.rect ga = Rect.make #25 #(-800) #130 #44.
Proof.
  destruct (spawnGatePair_layout halfRandom #(-800) initialState
              halfRandom_unit) as (ga & gb & A & B & _).
  exists ga, gb. split; [exact A | exact B].
Defined.

(** ** The segment spawner *)

Section SegmentSpawner.

Variable rnd : nat -> num.

Lemma appended_refl (s : State) : appended s s.
Proof.
  unfold appended.
  split; [exists []; symmetry; apply app_nil_r|].
  split; [exists []; symmetry; apply app_nil_r|].
  split; [exists []; symmetry; apply app_nil_r|].
  repeat split.
Qed.

Lemma appended_trans (a b c : State) :
  appended a b -> appended b c -> appended a c.
Proof.
  intros ((g1 & G1) & (z1 & Z1) & (o1 & O1) & B1 & I1 & U1 & F1 & P1)
         ((g2 & G2) & (z2 & Z2) & (o2 & O2) & B2 & I2 & U2 & F2 & P2).
  unfold appended.
  split; [exists (g1 ++ g2); rewrite G2, G1, app_assoc; reflexivity|].
  split; [exists (z1 ++ z2); rewrite Z2, Z1, app_assoc; reflexivity|].
  split; [exists (o1 ++ o2); rewrite O2, O1, app_assoc; reflexivity|].
  split; [congruence|]. split; [congruence|]. split; [congruence|].
  split; congruence.
Qed.

Lemma spawnSegment_gate (s : State) :
  Z.rem (lastSeg s + 1) 3 = 0%Z ->
  spawnSegment rnd s
  = spawnGatePair rnd (segmentY (lastSeg s + 1)) (set_lastSeg (lastSeg s + 1) s).
Proof.
  intro H. unfold spawnSegment. cbv zeta. cbn [lastSeg set_lastSeg].
  rewrite H. reflexivity.
Qed.

Lemma spawnSegment_zombies (s : State) :
  Z.rem (lastSeg s + 1) 3 = 1%Z ->
  spawnSegment rnd s
  = spawnZombies rnd (segmentY (lastSeg s + 1)) (set_lastSeg (lastSeg s + 1) s).
Proof.
  intro H. unfold spawnSegment. cbv zeta. cbn [lastSeg set_lastSeg].
  rewrite H. reflexivity.
Qed.

Lemma spawnSegment_obstacle (s : State) :
  Z.rem (lastSeg s + 1) 3 <> 0%Z -> Z.rem (lastSeg s + 1) 3 <> 1%Z ->
  spawnSegment rnd s
  = spawnObstacle rnd (segmentY (lastSeg s + 1)) (set_lastSeg (lastSeg s + 1) s).
Proof.
  intros H0 H1. unfold spawnSegment. cbv zeta. cbn [lastSeg set_lastSeg].
  apply Z.eqb_neq in H0, H1. rewrite H0, H1. reflexivity.
Qed.

Lemma spawnGatePair_gates (y : num) (s : State) :
  exists ga gb,
    gates (spawnGatePair rnd y s) = gates s ++ [ga; gb]
    /\ Rect.y (Gate.rect ga) = y
    /\ zombies (spawnGatePair rnd y s) = zombies s
    /\ obstacles (spawnGatePair rnd y s) = obstacles s
    /\ bosses (spawnGatePair rnd y s) = bosses s
    /\ items (spawnGatePair rnd y s) = items s
    /\ bullets (spawnGatePair rnd y s) = bullets s
    /\ floaters (spawnGatePair rnd y s) = floaters s
    /\ player (spawnGatePair rnd y s) = player s.
Proof.
  unfold spawnGatePair, random. cbv zeta.
  cbn [gates set_gates set_randCalls randCalls zombies obstacles bosses items
       bullets floaters player].
  rewrite <- app_assoc. cbn [app].
  eexists. eexists. split; [reflexivity|].
  split; [reflexivity|]. repeat split.
Qed.

Lemma spawnZombies_lists (y : num) (s : State) :
  gates (spawnZombies rnd y s) = gates s
  /\ (exists wave, zombies (spawnZombies rnd y s) = zombies s ++ wave)
  /\ obstacles (spawnZombies rnd y s) = obstacles s
  /\ bosses (spawnZombies rnd y s) = bosses s
  /\ items (spawnZombies rnd y s) = items s
  /\ bullets (spawnZombies rnd y s) = bullets s
  /\ floaters (spawnZombies rnd y s) = floaters s
  /\ player (spawnZombies rnd y s) = player s.
Proof.
  pose proof (spawnZombies_eq rnd y s) as E. cbv zeta in E. rewrite E.
  cbn [gates zombies obstacles bosses items bullets floaters player
       set_zombies set_randCalls].
  split; [reflexivity|]. split; [eexists; reflexivity|]. repeat split.
Qed.

Lemma spawnObstacle_lists (y : num) (s : State) :
  gates (spawnObstacle rnd y s) = gates s
  /\ zombies (spawnObstacle rnd y s) = zombies s
  /\ (exists o, obstacles (spawnObstacle rnd y s) = obstacles s ++ [o]
                /\ Rect.y (Obstacle.rect o) = y)
  /\ bosses (spawnObstacle rnd y s) = bosses s
  /\ items (spawnObstacle rnd y s) = items s
  /\ bullets (spawnObstacle rnd y s) = bullets s
  /\ floaters (spawnObstacle rnd y s) = floaters s
  /\ player (spawnObstacle rnd y s) = player s.
Proof.
  unfold spawnObstacle, random. cbv zeta.
  cbn [gates zombies obstacles bosses items bullets floaters player
       set_obstacles set_randCalls randCalls dist].
  split; [reflexivity|]. split; [reflexivity|].
  split; [eexists; split; reflexivity|]. repeat split.
Qed.

Lemma spawnSegment_appended (s : State) : appended s (spawnSegment rnd s).
Proof.
  destruct (Z.eq_dec (Z.rem (lastSeg s + 1) 3) 0) as [H0|H0].
  { rewrite (spawnSegment_gate s H0).
    destruct (spawnGatePair_gates (segmentY (lastSeg s + 1))
                (set_lastSeg (lastSeg s + 1) s))
      as (ga & gb & G & _ & Z & O & B & I & U & F & P).
    unfold appended. rewrite G, Z, O, B, I, U, F, P.
    split; [eexists; reflexivity|].
    split; [exists []; symmetry; apply app_nil_r|].
    split; [exists []; symmetry; apply app_nil_r|].
    repeat split. }
  destruct (Z.eq_dec (Z.rem (lastSeg s + 1) 3) 1) as [H1|H1].
  { rewrite (spawnSegment_zombies s H1).
    destruct (spawnZombies_lists (segmentY (lastSeg s + 1))
                (set_lastSeg (lastSeg s + 1) s))
      as (G & (w & Z) & O & B & I & U & F & P).
    unfold appended. rewrite G, Z, O, B, I, U, F, P.
    split; [exists []; symmetry; apply app_nil_r|].
    split; [eexists; reflexivity|].
    split; [exists []; symmetry; apply app_nil_r|].
    repeat split. }
  rewrite (spawnSegment_obstacle s H0 H1).
  destruct (spawnObstacle_lists (segmentY (lastSeg s + 1))
              (set_lastSeg (lastSeg s + 1) s))
    as (G & Z & (o & O & _) & B & I & U & F & P).
  unfold appended. rewrite G, Z, O, B, I, U, F, P.
  split; [exists []; symmetry; apply app_nil_r|].
  split; [exists []; symmetry; apply app_nil_r|].
  split; [eexists; reflexivity|].
  repeat split.
Qed.

Lemma spawnLoop_appended (fuel : nat) (need : Z) :
  forall s : State, appended s (spawnLoop rnd fuel need s).
Proof.
  induction fuel as [|fuel IH]; intro s; cbn [spawnLoop].
  - apply appended_refl.
  - destruct (lastSeg s <? need)%Z; [|apply appended_refl].
    eapply appended_trans; [apply spawnSegment_appended | apply IH].
Qed.

Lemma spawnLoop_lastSeg (fuel : nat) (need : Z) :
  forall s : State,
    (need - lastSeg s <= Z.of_nat fuel)%Z ->
    lastSeg (spawnLoop rnd fuel need s) = Z.max (lastSeg s) need.
Proof.
  induction fuel as [|fuel IH]; intros s H; cbn [spawnLoop].
  - lia.
  - destruct (lastSeg s <? need)%Z eqn:G.
    + apply Z.ltb_lt in G.
      destruct (spawnSegment_cursor rnd s) as [_ E].
      rewrite IH by (rewrite E; lia). rewrite E. lia.
    + apply Z.ltb_ge in G. lia.
Qed.

Lemma ensureSpawns_lastSeg (s : State) :
  lastSeg (ensureSpawns rnd s) = Z.max (lastSeg s) (needSeg s).
Proof.
  unfold ensureSpawns. cbv zeta. fold (needSeg s).
  apply spawnLoop_lastSeg. lia.
Qed.

Lemma ensureSpawns_at_cursor (s : State) :
  (needSeg s <= lastSeg s)%Z -> ensureSpawns rnd s = s.
Proof.
  intro H. unfold ensureSpawns. cbv zeta. fold (needSeg s).
  replace (Z.to_nat (needSeg s - lastSeg s)) with O by lia.
  reflexivity.
Qed.

Lemma ensureSpawns_idem (s : State) :
  ensureSpawns rnd (ensureSpawns rnd s) = ensureSpawns rnd s.
Proof.
  apply ensureSpawns_at_cursor.
  unfold needSeg.
  destruct (ensureSpawns_cursor rnd s) as (D & _ & L).
  rewrite D. exact L.
Qed.

End SegmentSpawner.

(** X20.  [ensureSpawns] moves the spawn cursor exactly to the segment
    the lookahead asks for, floor((dist + 1400) / 240), and never back;
    it is the identity when the cursor is already there, so calling it
    twice is calling it once.  It only appends: the gates, zombies and
    obstacles there before are a prefix of the new lists, and bosses,
    items, bullets, floaters, the player and the distance are as before. *)
Theorem ensureSpawns_fills_lookahead (rnd : nat -> num) (s : State) :
  lastSeg (ensureSpawns rnd s) = Z.max (lastSeg s) (needSeg s)
  /\ ((needSeg s <= lastSeg s)%Z -> ensureSpawns rnd s = s)
  /\ ensureSpawns rnd (ensureSpawns rnd s) = ensureSpawns rnd s
  /\ appended s (ensureSpawns rnd s)
  /\ dist (ensureSpawns rnd s) = dist s.
Proof.
  split; [apply ensureSpawns_lastSeg|].
  split; [apply ensureSpawns_at_cursor|].
  split; [apply ensureSpawns_idem|].
  split; [unfold ensureSpawns; cbv zeta; apply spawnLoop_appended|].
  exact (proj1 (ensureSpawns_cursor rnd s)).
Qed.

(** X21.  The segments cycle through three kinds by the remainder of
    their index k = lastSeg + 1 by 3: remainder 0 appends a pair of gates
    and nothing else, remainder 1 appends zombies and nothing else, any
    other remainder appends one obstacle and nothing else.  Segment k is
    laid at y = -800 - 240 k, and the cursor moves on by one. *)
Theorem spawnSegment_cycle (rnd : nat -> num) (s : State) :
  let k := (lastSeg s + 1)%Z in
  lastSeg (spawnSegment rnd s) = k
  /\ (Z.rem k 3 = 0%Z ->
      exists ga gb,
        gates (spawnSegment rnd s) = gates s ++ [ga; gb]
        /\ Rect.y (Gate.rect ga) = segmentY k
        /\ zombies (spawnSegment rnd s) = zombies s
        /\ obstacles (spawnSegment rnd s) = obstacles s)
  /\ (Z.rem k 3 = 1%Z ->
      gates (spawnSegment rnd s) = gates s
      /\ (exists wave, zombies (spawnSegment rnd s) = zombies s ++ wave)
      /\ obstacles (spawnSegment rnd s) = obstacles s)
  /\ (Z.rem k 3 <> 0%Z -> Z.rem k 3 <> 1%Z ->
      gates (spawnSegment rnd s) = gates s
      /\ zombies (spawnSegment rnd s) = zombies s
      /\ exists o, obstacles (spawnSegment rnd s) = obstacles s ++ [o]
                   /\ Rect.y (Obstacle.rect o) = segmentY k).
Proof.
  cbv zeta.
  split; [exact (proj2 (spawnSegment_cursor rnd s))|].
  split; [|split].
  - intro H. rewrite (spawnSegment_gate rnd s H).
    destruct (spawnGatePair_gates rnd (segmentY (lastSeg s + 1))
                (set_lastSeg (lastSeg s + 1) s))
      as (ga & gb & G & Y & Z & O & _).
    exists ga, gb. auto.
  - intro H. rewrite (spawnSegment_zombies rnd s H).
    destruct (spawnZombies_lists rnd (segmentY (lastSeg s + 1))
                (set_lastSeg (lastSeg s + 1) s))
      as (G & W & O & _).
    auto.
  - intros H0 H1. rewrite (spawnSegment_obstacle rnd s H0 H1).
    destruct (spawnObstacle_lists rnd (segmentY (lastSeg s + 1))
                (set_lastSeg (lastSeg s + 1) s))
      as (G & Z & O & _).
    auto.
Qed.

(** ** The clock and the HUD through a step *)

Lemma outerView_inv (s s' : State) :
  outerView s' = outerView s ->
  time s' = time s /\ dist s' = dist s /\ speed s' = speed s
  /\ hudAccum s' = hudAccum s /\ hud s' = hud s.
Proof.
  unfold outerView. intro H. injection H. intros. repeat split; assumption.
Qed.

Lemma outerView_is (s : State) (t d v a : num) (h : HudState.t) :
  outerView s = (t, d, v, a, h) ->
  time s = t /\ dist s = d /\ speed s = v /\ hudAccum s = a /\ hud s = h.
Proof.
  unfold outerView. intro H. injection H. intros. repeat split; assumption.
Qed.

Lemma hurtPlayer_outerView amount (s : State) :
  outerView (hurtPlayer amount s) = outerView s.
Proof. unfold hurtPlayer. frame_cases. Qed.

Lemma scroll_outerView dy (s : State) : outerView (scroll dy s) = outerView s.
Proof. rewrite scroll_eq. reflexivity. Qed.

Lemma crossGate_outerView g (s : State) :
  outerView (snd (crossGate g s)) = outerView s.
Proof. unfold crossGate. frame_cases. Qed.

Lemma crossGates_outerView (s : State) :
  outerView (crossGates s) = outerView s.
Proof.
  unfold crossGates.
  pose proof (forEach_preserves (fun s' => outerView s' = outerView s)
                crossGate) as H.
  specialize (H (fun a s0 E => eq_trans (crossGate_outerView a s0) E)
                (gates s) s eq_refl).
  destruct (forEach crossGate (gates s) s) as [gs s1]. exact H.
Qed.

Lemma shootAtNearest_outerView dt (s : State) :
  outerView (shootAtNearest dt s) = outerView s.
Proof. rewrite shootAtNearest_eq. destruct (0 <? _); reflexivity. Qed.

Lemma collideBullet_outerView (b : Bullet.t) (s : State) :
  outerView (snd (collideBullet b s)) = outerView s.
Proof.
  rewrite collideBullet_eq. unfold collideOutcome.
  destruct (Bullet.life b <=? 0); [reflexivity|].
  destruct (splitFirst (enemyHit b) (zombies s)) as [[[pre z] post]|];
    [reflexivity|].
  destruct (splitFirst (enemyHit b) (bosses s)) as [[[pre z] post]|];
    [reflexivity|].
  destruct (splitFirst (obstacleHit b) (obstacles s)) as [[[pre o] post]|];
    [|reflexivity].
  cbv zeta. destruct (_ <=? 0); reflexivity.
Qed.

Lemma collideBullets_outerView (s : State) :
  outerView (collideBullets s) = outerView s.
Proof.
  rewrite collideBullets_unfold.
  change (outerView (snd (forEach collideBullet (bullets s) s)) = outerView s).
  apply (forEach_preserves (fun s' => outerView s' = outerView s)).
  - intros b s1 E. rewrite collideBullet_outerView. exact E.
  - reflexivity.
Qed.

Lemma touchObstacles_outerView obs :
  forall s : State, outerView (touchObstacles obs s) = outerView s.
Proof.
  induction obs as [|o rest IH]; intro s; simpl; [reflexivity|].
  frame_cases; rewrite IH; try reflexivity. apply hurtPlayer_outerView.
Qed.

Lemma touchEnemy_outerView (s : State) e :
  outerView (touchEnemy s e) = outerView s.
Proof. unfold touchEnemy. frame_cases. apply hurtPlayer_outerView. Qed.

Lemma fold_touchEnemy_outerView (l : list Enemy.t) :
  forall s : State, outerView (fold_left touchEnemy l s) = outerView s.
Proof.
  induction l as [|e rest IH]; intro s; simpl; [reflexivity|].
  rewrite IH. apply touchEnemy_outerView.
Qed.

Lemma touchHazards_outerView (s : State) :
  outerView (touchHazards s) = outerView s.
Proof.
  unfold touchHazards. cbv zeta.
  rewrite !fold_touchEnemy_outerView. apply touchObstacles_outerView.
Qed.

Lemma collectItem_outerView dt dy (item : Item.t) (s : State) :
  outerView (snd (collectItem dt dy item s)) = outerView s.
Proof. unfold collectItem. frame_cases. Qed.

Lemma collectItems_outerView dt dy (s : State) :
  outerView (collectItems dt dy s) = outerView s.
Proof.
  rewrite collectItems_unfold.
  change (outerView (snd (forEach (collectItem dt dy) (items s) s))
          = outerView s).
  apply (forEach_preserves (fun s' => outerView s' = outerView s)).
  - intros b s1 E. rewrite collectItem_outerView. exact E.
  - reflexivity.
Qed.

Lemma advanceFloaters_outerView dt (s : State) :
  outerView (advanceFloaters dt s) = outerView s.
Proof. reflexivity. Qed.

Lemma advanceBullets_outerView dt (s : State) :
  outerView (advanceBullets dt s) = outerView s.
Proof. reflexivity. Qed.

Lemma prune_outerView (s : State) : outerView (prune s) = outerView s.
Proof. reflexivity. Qed.

Lemma simulate_outerView (dt : num) (s : State) :
  outerView (simulate dt s)
  = (time s + dt, dist s + speed s * dt, speed s, hudAccum s, hud s).
Proof.
  unfold simulate. cbv zeta.
  assert (E : outerView
                (steerPlayer
                   (set_dist (dist (resizePlayer s) + speed (resizePlayer s) * dt)
                      (set_time (time (resizePlayer s) + dt) (resizePlayer s))))
              = (time s + dt, dist s + speed s * dt, speed s, hudAccum s, hud s))
    by reflexivity.
  assert (V : speed
                (steerPlayer
                   (set_dist (dist (resizePlayer s) + speed (resizePlayer s) * dt)
                      (set_time (time (resizePlayer s) + dt) (resizePlayer s))))
              = speed s) by reflexivity.
  revert E V.
  generalize (steerPlayer
                (set_dist (dist (resizePlayer s) + speed (resizePlayer s) * dt)
                   (set_time (time (resizePlayer s) + dt) (resizePlayer s)))).
  intros s3 E V.
  rewrite advanceFloaters_outerView, collectItems_outerView,
    touchHazards_outerView, collideBullets_outerView,
    advanceBullets_outerView, shootAtNearest_outerView,
    crossGates_outerView, scroll_outerView.
  exact E.
Qed.

Section SpawnerOuter.

Variable rnd : nat -> num.

Lemma spawnSegment_outerView (s : State) :
  outerView (spawnSegment rnd s) = outerView s.
Proof.
  unfold spawnSegment. cbv zeta.
  destruct (_ =? 0)%Z; [reflexivity|].
  destruct (_ =? 1)%Z; [|reflexivity].
  pose proof (spawnZombies_eq rnd
                (#(-800) - #(lastSeg (set_lastSeg (lastSeg s + 1) s)) * #240)
                (set_lastSeg (lastSeg s + 1) s)) as E.
  cbv zeta in E. rewrite E. reflexivity.
Qed.

Lemma ensureSpawns_outerView (s : State) :
  outerView (ensureSpawns rnd s) = outerView s.
Proof.
  unfold ensureSpawns. cbv zeta.
  generalize (floorZ ((dist s + #1400) / #240)). intro need.
  generalize (Z.to_nat (need - lastSeg s)). intro fuel. revert s.
  induction fuel as [|fuel IH]; intro s; simpl; [reflexivity|].
  destruct (_ <? _)%Z; [|reflexivity].
  rewrite IH. apply spawnSegment_outerView.
Qed.

Lemma ensureBossSpawn_outerView (s : State) :
  outerView (ensureBossSpawn rnd s) = outerView s.
Proof.
  unfold ensureBossSpawn. generalize (bossThresholdsCrossed s).
  intro fuel. revert s.
  induction fuel as [|fuel IH]; intro s; simpl; [reflexivity|].
  destruct (_ <=? _); [rewrite IH|]; reflexivity.
Qed.

(** The world a step hands to [publishHud]. *)
Lemma before_publish (dt : num) (s : State) :
  let sp := ensureBossSpawn rnd (ensureSpawns rnd (prune (simulate dt s))) in
  outerView sp
  = (time s + dt, dist s + speed s * dt, speed s, hudAccum s, hud s).
Proof.
  cbv zeta.
  rewrite ensureBossSpawn_outerView, ensureSpawns_outerView.
  rewrite prune_outerView. apply simulate_outerView.
Qed.

Lemma update_clock (dt : num) (s : State) :
  alive s = true ->
  time (update rnd dt s) = time s + dt
  /\ dist (update rnd dt s) = dist s + speed s * dt
  /\ speed (update rnd dt s) = speed s.
Proof.
  intro A. rewrite (update_unfold rnd dt s A).
  pose proof (before_publish dt s) as E. cbv zeta in E.
  revert E.
  generalize (ensureBossSpawn rnd (ensureSpawns rnd (prune (simulate dt s)))).
  intros sp E. apply outerView_is in E.
  destruct E as (T & D & V & _).
  unfold publishHud. cbv zeta.
  destruct (_ <=? _);
    cbn [time dist speed set_hud set_hudAccum]; auto.
Qed.

Lemma update_hud (dt : num) (s : State) :
  alive s = true ->
  (frac 1 10 <= hudAccum s + dt ->
     hudAccum (update rnd dt s) = 0
     /\ hud (update rnd dt s) = hudSnapshot (update rnd dt s))
  /\ (hudAccum s + dt < frac 1 10 ->
     hudAccum (update rnd dt s) = hudAccum s + dt
     /\ hud (update rnd dt s) = hud s).
Proof.
  intro A. rewrite (update_unfold rnd dt s A).
  pose proof (before_publish dt s) as E. cbv zeta in E.
  revert E.
  generalize (ensureBossSpawn rnd (ensureSpawns rnd (prune (simulate dt s)))).
  intros sp E. apply outerView_is in E.
  destruct E as (_ & _ & _ & HA & HH).
  unfold publishHud. cbv zeta. cbn [hudAccum set_hudAccum]. rewrite HA.
  split; intro H.
  - apply leb_le in H. rewrite H.
    cbn [hudAccum hud set_hud set_hudAccum]. split; reflexivity.
  - apply leb_gt in H. rewrite H. cbn [hudAccum hud set_hudAccum]. split; [reflexivity | exact HH].
Qed.

End SpawnerOuter.

(** X22.  A step of a living player advances the clock by [dt] and the
    distance by speed times [dt], and leaves the speed as it was, whatever
    else happens in the step; so with a speed and a [dt] that are not
    negative neither the clock nor the distance goes back. *)
Theorem update_advances_clock (rnd : nat -> num) (dt : num) (s : State) :
  alive s = true ->
  time (update rnd dt s) = time s + dt
  /\ dist (update rnd dt s) = dist s + speed s * dt
  /\ speed (update rnd dt s) = speed s
  /\ (0 <= dt -> 0 <= speed s ->
      time s <= time (update rnd dt s) /\ dist s <= dist (update rnd dt s)).
Proof.
  intro A. destruct (update_clock rnd dt s A) as (T & D & V).
  split; [exact T|]. split; [exact D|]. split; [exact V|].
  intros Hdt Hv. rewrite T, D.
  assert (P : 0 <= speed s * dt).
  { rewrite <- (Qcmult_0_l dt). apply Qcmult_le_compat_r; assumption. }
  generalize dependent (speed s * dt). intros p _ P.
  generalize (time s) (dist s). intros t d. clear - Hdt P.
  split; qc_lra.
Qed.

Lemma update_advances_clock_witness :
  time (update halfRandom (frac 1 60) (startState halfRandom))
  = time (startState halfRandom) + frac 1 60.
Proof.
  destruct (update_advances_clock halfRandom (frac 1 60)
              (startState halfRandom)) as (T & _).
  - vm_compute. reflexivity.
  - exact T.
Defined.

Lemma reachable_speed (rnd : nat -> num) (s : State) :
  reachable rnd s -> speed s = #180.
Proof.
  induction 1 as [|dt s R V|lx s R V|lx s R V|s R V].
  - unfold startState.
    destruct (outerView_inv _ _ (ensureSpawns_outerView rnd initialState))
      as (_ & _ & V & _).
    rewrite V. reflexivity.
  - destruct (alive s) eqn:A.
    + destruct (update_clock rnd dt s A) as (_ & _ & V').
      rewrite V'. exact V.
    + rewrite (update_when_dead rnd dt s A). exact V.
  - exact V.
  - unfold onPointerMove. destruct (negb _); exact V.
  - exact V.
Qed.

(** X23.  In every world a run reaches the speed is 180: nothing ever
    writes it.  So a step of a living player adds [180 * dt] to the
    distance, which is also what the lane scrolls by, and [dt] to the
    clock; a step of a dead player adds nothing to either. *)
Theorem speed_stays_180 (rnd : nat -> num) (s : State) :
  reachable rnd s ->
  speed s = #180
  /\ (forall dt : num, speed (update rnd dt s) = #180)
  /\ (forall dt : num, alive s = true ->
        dist (update rnd dt s) = dist s + #180 * dt
        /\ time (update rnd dt s) = time s + dt)
  /\ (forall dt : num, alive s = false ->
        dist (update rnd dt s) = dist s
        /\ time (update rnd dt s) = time s).
Proof.
  intro R. pose proof (reachable_speed rnd s R) as V.
  split; [exact V|]. split; [|split].
  - intro dt. apply (reachable_speed rnd). apply reach_update. exact R.
  - intros dt A. destruct (update_clock rnd dt s A) as (T & D & _).
    rewrite D, T, V. split; reflexivity.
  - intros dt A. rewrite (update_when_dead rnd dt s A). split; reflexivity.
Qed.

Lemma speed_stays_180_witness :
  speed (update halfRandom (frac 1 60) (startState halfRandom)) = #180.
Proof.
  destruct (speed_stays_180 halfRandom (startState halfRandom))
    as (_ & V & _).
  - apply reach_start.
  - exact (V (frac 1 60)).
Defined.

(** X24.  The HUD is throttled: a step of a living player adds [dt] to the
    accumulator; when that reaches 0.1 the accumulator goes back to 0 and
    the HUD gets the score, the floored distance and the alive flag of the
    end of that step; otherwise the HUD stays.  When the accumulator was
    below 0.1 before the step, it is below 0.1 after it. *)
Theorem update_publishes_hud (rnd : nat -> num) (dt : num) (s : State) :
  alive s = true ->
  (frac 1 10 <= hudAccum s + dt ->
     hudAccum (update rnd dt s) = 0
     /\ hud (update rnd dt s) = hudSnapshot (update rnd dt s))
  /\ (hudAccum s + dt < frac 1 10 ->
     hudAccum (update rnd dt s) = hudAccum s + dt
     /\ hud (update rnd dt s) = hud s)
  /\ hudAccum (update rnd dt s) < frac 1 10.
Proof.
  intro A. destruct (update_hud rnd dt s A) as [P N].
  split; [exact P|]. split; [exact N|].
  destruct (Qclt_le_dec (hudAccum s + dt) (frac 1 10)) as [L|L].
  - rewrite (proj1 (N L)). exact L.
  - rewrite (proj1 (P L)). vm_compute. reflexivity.
Qed.

Lemma update_publishes_hud_witness :
  hudAccum (update halfRandom (frac 1 60) (startState halfRandom))
  < frac 1 10.
Proof.
  destruct (update_publishes_hud halfRandom (frac 1 60)
              (startState halfRandom)) as (_ & _ & L).
  - vm_compute. reflexivity.
  - exact L.
Defined.

Lemma frames_when_dead (rnd : nat -> num) (s : State) :
  alive s = false ->
  forall dts : list num, fold_left (fun s' dt' => update rnd dt' s') dts s = s.
Proof.
  intros A dts. induction dts as [|dt' dts IH]; cbn [fold_left];
    [reflexivity|].
  rewrite (update_when_dead rnd dt' s A). exact IH.
Qed.

Lemma reachable_hud_alive (rnd : nat -> num) (s : State) :
  reachable rnd s -> alive s = true -> HudState.alive (hud s) = true.
Proof.
  induction 1 as [|dt s R IH|lx s R IH|lx s R IH|s R IH].
  - intros _. unfold startState.
    destruct (outerView_inv _ _ (ensureSpawns_outerView rnd initialState))
      as (_ & _ & _ & _ & H).
    rewrite H. reflexivity.
  - intro A'. destruct (alive s) eqn:A.
    + destruct (update_hud rnd dt s A) as [P N].
      destruct (Qclt_le_dec (hudAccum s + dt) (frac 1 10)) as [L|L].
      * rewrite (proj2 (N L)). apply IH. reflexivity.
      * rewrite (proj2 (P L)). unfold hudSnapshot.
        cbn [HudState.alive]. exact A'.
    + rewrite (update_when_dead rnd dt s A) in A' |- *. congruence.
  - exact IH.
  - unfold onPointerMove. destruct (negb _); exact IH.
  - exact IH.
Qed.

(** X25.  Once the player is dead no step publishes the HUD again.  So
    when the player dies in a step that does not bring the accumulator to
    0.1, the HUD keeps the snapshot it had before that step for the rest
    of the run, and that snapshot still says alive. *)
Theorem hud_frozen_after_death (rnd : nat -> num) (dt : num) (s : State) :
  reachable rnd s -> alive s = true ->
  hudAccum s + dt < frac 1 10 ->
  alive (update rnd dt s) = false ->
  forall dts : list num,
    hud (fold_left (fun s' dt' => update rnd dt' s') dts (update rnd dt s))
    = hud s
    /\ HudState.alive
         (hud (fold_left (fun s' dt' => update rnd dt' s') dts
                 (update rnd dt s)))
       = true.
Proof.
  intros R A L D dts.
  rewrite (frames_when_dead rnd _ D dts).
  destruct (update_hud rnd dt s A) as [_ N].
  rewrite (proj2 (N L)).
  split; [reflexivity|]. exact (reachable_hud_alive rnd s R A).
Qed.

Lemma hud_frozen_after_death_witness :
  hud (fold_left (fun s' dt' => update halfRandom dt' s')
         [frac 1 60; frac 1 60]
         (update halfRandom (frac 1 20) worldBeforeContact))
  = hud worldBeforeContact
  /\ HudState.alive
       (hud (fold_left (fun s' dt' => update halfRandom dt' s')
               [frac 1 60; frac 1 60]
               (update halfRandom (frac 1 20) worldBeforeContact)))
     = true.
Proof.
  apply (hud_frozen_after_death halfRandom (frac 1 20) worldBeforeContact).
  - unfold worldBeforeContact. apply reach_update. apply reach_start.
  - vm_compute. reflexivity.
  - vm_compute. reflexivity.
  - vm_compute. reflexivity.
Defined.

(** ** Crossing gates *)

Lemma set_gates_twice (a b : list Gate.t) (s : State) :
  set_gates a (set_gates b s) = set_gates a s.
Proof. destruct s. reflexivity. Qed.

Lemma crossGate_player (g : Gate.t) (s : State) :
  player (snd (crossGate g s)) = player s.
Proof. unfold crossGate. frame_cases. Qed.

Lemma crossGate_marks (g : Gate.t) (s : State) :
  gateTouched (player s) (fst (crossGate g s)) = false
  /\ Gate.rect (fst (crossGate g s)) = Gate.rect g
  /\ Gate.op (fst (crossGate g s)) = Gate.op g
  /\ (Gate.used g = true -> Gate.used (fst (crossGate g s)) = true).
Proof.
  unfold crossGate, gateTouched.
  destruct (Gate.used g) eqn:U.
  - cbn [fst]. rewrite U. repeat split.
  - destruct (aabb (player s) (Gate.rect g)) eqn:A; cbn [fst].
    + destruct g. cbn. repeat split; try discriminate.
    + rewrite U, A. repeat split; try discriminate.
Qed.

Lemma crossGate_untouched (g : Gate.t) (s : State) :
  gateTouched (player s) g = false -> crossGate g s = (g, s).
Proof.
  unfold crossGate, gateTouched. intro H.
  destruct (Gate.used g); [reflexivity|].
  destruct (aabb (player s) (Gate.rect g)); [discriminate H | reflexivity].
Qed.

Lemma forEach_crossGate_untouched (l : list Gate.t) (s : State) :
  Forall (fun g => gateTouched (player s) g = false) l ->
  forEach crossGate l s = (l, s).
Proof.
  induction 1 as [|g rest Hg Hrest IH]; cbn [forEach]; [reflexivity|].
  rewrite (crossGate_untouched g s Hg), IH. reflexivity.
Qed.

Lemma forEach_crossGate_marks (l : list Gate.t) :
  forall s : State,
    player (snd (forEach crossGate l s)) = player s
    /\ Forall (fun g => gateTouched (player s) g = false)
              (fst (forEach crossGate l s))
    /\ map Gate.rect (fst (forEach crossGate l s)) = map Gate.rect l
    /\ map Gate.op (fst (forEach crossGate l s)) = map Gate.op l.
Proof.
  induction l as [|g rest IH]; intro s; cbn [forEach].
  - cbn. repeat split. constructor.
  - pose proof (crossGate_player g s) as P.
    destruct (crossGate_marks g s) as (M & R & O & _).
    destruct (crossGate g s) as [g' s1]. cbn [fst snd] in P, M, R, O.
    destruct (IH s1) as (P' & M' & R' & O').
    destruct (forEach crossGate rest s1) as [rest' s2].
    cbn [fst snd map] in *.
    split; [congruence|]. split; [|split; congruence].
    constructor; [exact M|]. rewrite <- P. exact M'.
Qed.

(** X26.  The gate loop uses up every unused gate under the player and
    leaves no such gate behind, so running it again changes nothing: a
    gate is applied at most once.  It keeps every gate's rectangle and
    operation and the player's rectangle, and it is the identity when no
    unused gate is under the player. *)
Theorem crossGates_applies_once (s : State) :
  crossGates (crossGates s) = crossGates s
  /\ Forall (fun g => gateTouched (player s) g = false) (gates (crossGates s))
  /\ map Gate.rect (gates (crossGates s)) = map Gate.rect (gates s)
  /\ map Gate.op (gates (crossGates s)) = map Gate.op (gates s)
  /\ player (crossGates s) = player s
  /\ (Forall (fun g => gateTouched (player s) g = false) (gates s) ->
      crossGates s = s).
Proof.
  unfold crossGates at 2 3 4 5 6 7.
  destruct (forEach_crossGate_marks (gates s) s) as (P & M & R & O).
  split; [|split; [|split; [|split; [|split]]]].
  - destruct (forEach crossGate (gates s) s) as [gs s1]. cbn [fst snd] in *.
    unfold crossGates. cbn [gates set_gates].
    rewrite forEach_crossGate_untouched.
    + apply set_gates_twice.
    + cbn [player set_gates]. rewrite P. exact M.
  - destruct (forEach crossGate (gates s) s) as [gs s1]. exact M.
  - destruct (forEach crossGate (gates s) s) as [gs s1]. exact R.
  - destruct (forEach crossGate (gates s) s) as [gs s1]. exact O.
  - destruct (forEach crossGate (gates s) s) as [gs s1]. exact P.
  - intro H. unfold crossGates.
    rewrite (forEach_crossGate_untouched (gates s) s H).
    destruct s. reflexivity.
Qed.

(** ** Whole scores *)

Lemma ofZ_sub (a b : Z) : #(a - b) = #a - #b.
Proof.
  apply Qc_is_canon. qc_unfold. unfold Z.sub.
  rewrite inject_Z_plus, inject_Z_opp. reflexivity.
Qed.

Lemma integral_ofZ (z : Z) : integral (#z).
Proof. exists z. reflexivity. Qed.

Lemma integral_0 : integral 0.
Proof. exists 0%Z. symmetry. apply ofZ_0. Qed.

Lemma integral_add (a b : num) : integral a -> integral b -> integral (a + b).
Proof. intros [x ->] [y ->]. exists (x + y)%Z. symmetry. apply ofZ_add. Qed.

Lemma integral_sub (a b : num) : integral a -> integral b -> integral (a - b).
Proof. intros [x ->] [y ->]. exists (x - y)%Z. symmetry. apply ofZ_sub. Qed.

Lemma integral_mul (a b : num) : integral a -> integral b -> integral (a * b).
Proof. intros [x ->] [y ->]. exists (x * y)%Z. symmetry. apply ofZ_mul. Qed.

Lemma integral_floor (a : num) : integral (floor a).
Proof. exists (floorZ a). reflexivity. Qed.

Lemma integral_max (a b : num) : integral a -> integral b -> integral (max a b).
Proof. intros Ha Hb. unfold max. destruct (a <=? b); assumption. Qed.

Lemma applyGate_integral (v : num) (op : GateOp.t) :
  In op ops -> integral v -> integral (applyGate v op).
Proof.
  intros I Hv. unfold applyGate. cbv zeta. apply integral_max; [apply integral_0|].
  destruct (ops_cases op I) as [-> | [-> | [-> | ->]]];
    cbn [GateOp.type GateOp.amount opAdd5 opMul2 opSub5 opDiv2].
  - apply integral_add; [exact Hv | apply integral_ofZ].
  - apply integral_mul; [exact Hv | apply integral_ofZ].
  - apply integral_sub; [exact Hv | apply integral_ofZ].
  - apply integral_floor.
Qed.

Lemma wholeScores_view (s s' : State) :
  scoreView s' = scoreView s -> wholeScores s -> wholeScores s'.
Proof.
  unfold scoreView, restView, wholeScores. intro E.
  injection E as -> -> -> -> ->. auto.
Qed.

Lemma restView_inv (s s' : State) :
  restView s' = restView s ->
  map Gate.op (gates s') = map Gate.op (gates s)
  /\ map Enemy.damage (zombies s') = map Enemy.damage (zombies s)
  /\ map Enemy.damage (bosses s') = map Enemy.damage (bosses s)
  /\ hud s' = hud s.
Proof.
  unfold restView. intro E. injection E. intros. repeat split; assumption.
Qed.

Lemma scroll_scoreView dy (s : State) : scoreView (scroll dy s) = scoreView s.
Proof.
  rewrite scroll_eq. unfold scoreView, restView.
  cbn [scoreValue gates zombies bosses hud set_obstacles set_bosses set_alive
       set_zombies set_gates].
  rewrite !map_map. reflexivity.
Qed.

Lemma shootAtNearest_scoreView dt (s : State) :
  scoreView (shootAtNearest dt s) = scoreView s.
Proof. rewrite shootAtNearest_eq. destruct (0 <? _); reflexivity. Qed.

Lemma advanceBullets_scoreView dt (s : State) :
  scoreView (advanceBullets dt s) = scoreView s.
Proof. reflexivity. Qed.

Lemma advanceFloaters_scoreView dt (s : State) :
  scoreView (advanceFloaters dt s) = scoreView s.
Proof. reflexivity. Qed.

Lemma damaged_same_damage (b : Bullet.t) (l pre post : list Enemy.t)
    (e : Enemy.t) :
  l = pre ++ e :: post ->
  map Enemy.damage (pre ++ damageEnemy b e :: post) = map Enemy.damage l.
Proof. intros ->. rewrite !map_app. reflexivity. Qed.

Lemma collideBullet_scoreView (b : Bullet.t) (s : State) :
  scoreView (snd (collideBullet b s)) = scoreView s.
Proof.
  rewrite collideBullet_eq. unfold collideOutcome.
  destruct (Bullet.life b <=? 0); [reflexivity|].
  destruct (splitFirst (enemyHit b) (zombies s)) as [[[pre z] post]|] eqn:Z.
  { destruct (splitFirst_Some _ _ _ _ _ Z) as (E & _).
    unfold scoreView, restView.
    cbn [snd scoreValue gates zombies bosses hud set_zombies set_floaters].
    rewrite (damaged_same_damage b _ _ _ _ E). reflexivity. }
  destruct (splitFirst (enemyHit b) (bosses s)) as [[[pre z] post]|] eqn:B.
  { destruct (splitFirst_Some _ _ _ _ _ B) as (E & _).
    unfold scoreView, restView.
    cbn [snd scoreValue gates zombies bosses hud set_bosses set_floaters].
    rewrite (damaged_same_damage b _ _ _ _ E). reflexivity. }
  destruct (splitFirst (obstacleHit b) (obstacles s)) as [[[pre o] post]|];
    [|reflexivity].
  cbv zeta. destruct (_ <=? 0); reflexivity.
Qed.

Lemma collideBullets_scoreView (s : State) :
  scoreView (collideBullets s) = scoreView s.
Proof.
  rewrite collideBullets_unfold.
  change (scoreView (snd (forEach collideBullet (bullets s) s)) = scoreView s).
  apply (forEach_preserves (fun s' => scoreView s' = scoreView s)).
  - intros b s1 E. rewrite collideBullet_scoreView. exact E.
  - reflexivity.
Qed.

Lemma collectItem_scoreView dt dy (item : Item.t) (s : State) :
  scoreView (snd (collectItem dt dy item s)) = scoreView s.
Proof. unfold collectItem. frame_cases. Qed.

Lemma collectItems_scoreView dt dy (s : State) :
  scoreView (collectItems dt dy s) = scoreView s.
Proof.
  rewrite collectItems_unfold.
  change (scoreView (snd (forEach (collectItem dt dy) (items s) s))
          = scoreView s).
  apply (forEach_preserves (fun s' => scoreView s' = scoreView s)).
  - intros b s1 E. rewrite collectItem_scoreView. exact E.
  - reflexivity.
Qed.

Lemma crossGate_whole (g : Gate.t) (s : State) :
  In (Gate.op g) ops -> integral (scoreValue s) ->
  integral (scoreValue (snd (crossGate g s)))
  /\ zombies (snd (crossGate g s)) = zombies s
  /\ bosses (snd (crossGate g s)) = bosses s
  /\ hud (snd (crossGate g s)) = hud s.
Proof.
  intros I H. unfold crossGate.
  destruct (Gate.used g); [auto|].
  destruct (aabb _ _); [|auto].
  cbv zeta.
  cbn [snd scoreValue zombies bosses hud spawnFloater set_floaters
       set_scoreValue].
  split; [|auto]. apply applyGate_integral; [|exact H].
  destruct g. exact I.
Qed.

Lemma forEach_crossGate_whole (l : list Gate.t) :
  forall s : State,
    Forall (fun op => In op ops) (map Gate.op l) ->
    integral (scoreValue s) ->
    integral (scoreValue (snd (forEach crossGate l s)))
    /\ zombies (snd (forEach crossGate l s)) = zombies s
    /\ bosses (snd (forEach crossGate l s)) = bosses s
    /\ hud (snd (forEach crossGate l s)) = hud s.
Proof.
  induction l as [|g rest IH]; intros s F H; cbn [forEach].
  - auto.
  - cbn [map] in F. inversion F as [|? ? Fg Frest]; subst.
    destruct (crossGate_whole g s Fg H) as (H1 & Z1 & B1 & U1).
    destruct (crossGate g s) as [g' s1]. cbn [snd] in H1, Z1, B1, U1.
    destruct (IH s1 Frest H1) as (H2 & Z2 & B2 & U2).
    destruct (forEach crossGate rest s1) as [rest' s2]. cbn [snd] in *.
    repeat split; congruence.
Qed.

Lemma crossGates_whole (s : State) : wholeScores s -> wholeScores (crossGates s).
Proof.
  intros (H & G & Z & B & V & D). unfold crossGates.
  destruct (forEach_crossGate_marks (gates s) s) as (_ & _ & _ & O).
  destruct (forEach_crossGate_whole (gates s) s G H) as (H' & Z' & B' & U').
  destruct (forEach crossGate (gates s) s) as [gs s1]. cbn [fst snd] in *.
  unfold wholeScores. cbn [scoreValue gates zombies bosses hud set_gates].
  rewrite O, Z', B', U'. auto 10.
Qed.

Lemma hurtPlayer_restView amount (s : State) :
  restView (hurtPlayer amount s) = restView s.
Proof. unfold hurtPlayer. frame_cases. Qed.

Lemma hurtPlayer_integral amount (s : State) :
  integral amount -> integral (scoreValue s) ->
  integral (scoreValue (hurtPlayer amount s)).
Proof.
  intros Ha Hs. rewrite hurtPlayer_eq.
  destruct (negb (alive s) || (amount <=? 0)); [exact Hs|].
  cbv zeta.
  assert (M : integral (max 0 (scoreValue s - amount))).
  { apply integral_max; [apply integral_0 | apply integral_sub; assumption]. }
  destruct (_ <=? 0); exact M.
Qed.

Lemma touchObstacles_whole obs :
  forall s : State,
    integral (scoreValue s) ->
    integral (scoreValue (touchObstacles obs s))
    /\ restView (touchObstacles obs s) = restView s.
Proof.
  induction obs as [|o rest IH]; intros s H; cbn [touchObstacles];
    [auto|].
  destruct (negb (alive s)); [auto|].
  destruct (Obstacle.hp o <=? 0); [apply IH; exact H|].
  destruct (aabb _ _); [|apply IH; exact H].
  destruct (IH (hurtPlayer #1 s)) as [H' R'].
  - apply hurtPlayer_integral; [apply integral_ofZ | exact H].
  - split; [exact H'|]. rewrite R'. apply hurtPlayer_restView.
Qed.

Lemma fold_touchEnemy_whole (l : list Enemy.t) :
  forall s : State,
    Forall integral (map Enemy.damage l) ->
    integral (scoreValue s) ->
    integral (scoreValue (fold_left touchEnemy l s))
    /\ restView (fold_left touchEnemy l s) = restView s.
Proof.
  induction l as [|e rest IH]; intros s F H; cbn [fold_left]; [auto|].
  cbn [map] in F. inversion F as [|? ? Fe Frest]; subst.
  assert (T : integral (scoreValue (touchEnemy s e))
              /\ restView (touchEnemy s e) = restView s).
  { unfold touchEnemy. destruct (Enemy.hp e <=? 0); [auto|].
    destruct (aabb _ _); [|auto].
    split; [apply hurtPlayer_integral; assumption
           | apply hurtPlayer_restView]. }
  destruct T as [H1 R1].
  destruct (IH (touchEnemy s e) Frest H1) as [H2 R2].
  split; [exact H2 | congruence].
Qed.

Lemma wholeScores_rest (s s' : State) :
  restView s' = restView s -> integral (scoreValue s') ->
  wholeScores s -> wholeScores s'.
Proof.
  intros R H (_ & G & Z & B & V & D).
  destruct (restView_inv _ _ R) as (RG & RZ & RB & RH).
  unfold wholeScores. rewrite RG, RZ, RB, RH. auto 10.
Qed.

Lemma touchHazards_whole (s : State) :
  wholeScores s -> wholeScores (touchHazards s).
Proof.
  intros W. pose proof W as (H & G & Z & B & V & D).
  unfold touchHazards. cbv zeta.
  destruct (touchObstacles_whole (obstacles s) s H) as [H1 R1].
  revert H1 R1. generalize (touchObstacles (obstacles s) s). intros s1 H1 R1.
  destruct (restView_inv _ _ R1) as (_ & RZ1 & RB1 & _).
  destruct (fold_touchEnemy_whole (zombies s1) s1) as [H2 R2];
    [rewrite RZ1; exact Z | exact H1 |].
  revert H2 R2. generalize (fold_left touchEnemy (zombies s1) s1).
  intros s2 H2 R2.
  destruct (restView_inv _ _ R2) as (_ & _ & RB2 & _).
  destruct (fold_touchEnemy_whole (bosses s2) s2) as [H3 R3];
    [rewrite RB2, RB1; exact B | exact H2 |].
  apply (wholeScores_rest s); [congruence | exact H3 | exact W].
Qed.

Lemma simulate_whole (dt : num) (s : State) :
  wholeScores s -> wholeScores (simulate dt s).
Proof.
  intro W. unfold simulate. cbv zeta.
  assert (W3 : wholeScores
                 (steerPlayer
                    (set_dist
                       (dist (resizePlayer s) + speed (resizePlayer s) * dt)
                       (set_time (time (resizePlayer s) + dt)
                                 (resizePlayer s))))).
  { apply (wholeScores_view s); [reflexivity | exact W]. }
  revert W3.
  generalize (steerPlayer
                (set_dist (dist (resizePlayer s) + speed (resizePlayer s) * dt)
                   (set_time (time (resizePlayer s) + dt) (resizePlayer s)))).
  intros s3 W3.
  eapply wholeScores_view; [apply advanceFloaters_scoreView|].
  eapply wholeScores_view; [apply collectItems_scoreView|].
  apply touchHazards_whole.
  eapply wholeScores_view; [apply collideBullets_scoreView|].
  eapply wholeScores_view; [apply advanceBullets_scoreView|].
  eapply wholeScores_view; [apply shootAtNearest_scoreView|].
  apply crossGates_whole.
  eapply wholeScores_view; [apply scroll_scoreView|].
  exact W3.
Qed.

Lemma Forall_map_filter {A B : Type} (P : B -> Prop) (f : A -> B)
    (p : A -> bool) (l : list A) :
  Forall P (map f l) -> Forall P (map f (filter p l)).
Proof.
  rewrite !Forall_map, !Forall_forall. intros H a I.
  apply filter_In in I. apply H. apply I.
Qed.

Lemma prune_whole (s : State) : wholeScores s -> wholeScores (prune s).
Proof.
  intros (H & G & Z & B & V & D). unfold wholeScores. prune_fields.
  split; [exact H|]. split; [apply Forall_map_filter; exact G|].
  split; [apply Forall_map_filter; exact Z|].
  split; [apply Forall_map_filter; exact B|]. auto.
Qed.

Lemma nth_ops_in (n : nat) : In (nth n ops opAdd5) ops.
Proof.
  do 4 (destruct n as [|n]; [cbn; auto|]). destruct n; cbn; auto.
Qed.

Section WholeSpawns.

Variable rnd : nat -> num.

Lemma spawnSegment_whole (s : State) :
  wholeScores s -> wholeScores (spawnSegment rnd s).
Proof.
  intros (H & G & Z & B & V & D).
  destruct (Z.eq_dec (Z.rem (lastSeg s + 1) 3) 0) as [H0|H0].
  { rewrite (spawnSegment_gate rnd s H0).
    unfold spawnGatePair, random, wholeScores. cbv zeta.
    cbn [scoreValue gates zombies bosses hud set_gates set_randCalls
         set_lastSeg].
    split; [exact H|]. split; [|auto].
    rewrite !map_app. cbn [map makeGate Gate.op].
    apply Forall_app. split; [apply Forall_app; split; [exact G|]|];
      (constructor; [apply nth_ops_in | constructor]). }
  destruct (Z.eq_dec (Z.rem (lastSeg s + 1) 3) 1) as [H1|H1].
  { rewrite (spawnSegment_zombies rnd s H1).
    pose proof (spawnZombies_eq rnd (segmentY (lastSeg s + 1))
                  (set_lastSeg (lastSeg s + 1) s)) as E.
    cbv zeta in E. rewrite E. unfold wholeScores.
    cbn [scoreValue gates zombies bosses hud set_zombies set_randCalls
         set_lastSeg].
    split; [exact H|]. split; [exact G|]. split; [|auto].
    rewrite map_app. apply Forall_app. split; [exact Z|].
    rewrite map_map. apply Forall_map. apply Forall_forall. intros i _.
    unfold waveZombie. cbn [Enemy.damage].
    apply integral_add; [apply integral_ofZ | apply integral_floor]. }
  rewrite (spawnSegment_obstacle rnd s H0 H1).
  unfold spawnObstacle, random, wholeScores. cbv zeta.
  cbn [scoreValue gates zombies bosses hud set_obstacles set_randCalls
       set_lastSeg].
  auto 10.
Qed.

Lemma ensureSpawns_whole (s : State) :
  wholeScores s -> wholeScores (ensureSpawns rnd s).
Proof.
  unfold ensureSpawns. cbv zeta.
  generalize (floorZ ((dist s + #1400) / #240)). intro need.
  generalize (Z.to_nat (need - lastSeg s)). intro fuel. revert s.
  induction fuel as [|fuel IH]; intros s W; cbn [spawnLoop]; [exact W|].
  destruct (_ <? _)%Z; [|exact W].
  apply IH. apply spawnSegment_whole. exact W.
Qed.

Lemma spawnBoss_whole (s : State) :
  wholeScores s -> wholeScores (spawnBoss rnd s).
Proof.
  intros (H & G & Z & B & V & D).
  unfold spawnBoss, random, wholeScores. cbv zeta.
  cbn [scoreValue gates zombies bosses hud set_bosses set_randCalls
       set_nextBossDist dist].
  split; [exact H|]. split; [exact G|]. split; [exact Z|]. split; [|auto].
  rewrite map_app. apply Forall_app. split; [exact B|].
  cbn [map Enemy.damage]. constructor; [|constructor].
  apply integral_add; [apply integral_ofZ | apply integral_floor].
Qed.

Lemma ensureBossSpawn_whole (s : State) :
  wholeScores s -> wholeScores (ensureBossSpawn rnd s).
Proof.
  unfold ensureBossSpawn. generalize (bossThresholdsCrossed s).
  intro fuel. revert s.
  induction fuel as [|fuel IH]; intros s W; cbn [bossLoop]; [exact W|].
  destruct (_ <=? _); [|exact W].
  apply IH. apply spawnBoss_whole. exact W.
Qed.

Lemma publishHud_whole (dt : num) (s : State) :
  wholeScores s -> wholeScores (publishHud dt s).
Proof.
  intros (H & G & Z & B & V & D). unfold publishHud, wholeScores. cbv zeta.
  destruct (_ <=? _);
    cbn [scoreValue gates zombies bosses hud set_hud set_hudAccum
         HudState.value HudState.dist];
    auto 10 using integral_floor.
Qed.

Lemma update_whole (dt : num) (s : State) :
  wholeScores s -> wholeScores (update rnd dt s).
Proof.
  intro W. destruct (alive s) eqn:A.
  - rewrite (update_unfold rnd dt s A).
    apply publishHud_whole, ensureBossSpawn_whole, ensureSpawns_whole,
      prune_whole, simulate_whole. exact W.
  - rewrite (update_when_dead rnd dt s A). exact W.
Qed.

Lemma reachable_whole (s : State) : reachable rnd s -> wholeScores s.
Proof.
  induction 1 as [|dt s R IH|lx s R IH|lx s R IH|s R IH].
  - unfold startState. apply ensureSpawns_whole.
    unfold wholeScores. cbn [scoreValue gates zombies bosses hud initialState
                             map HudState.value HudState.dist].
    split; [apply integral_ofZ|]. split; [constructor|].
    split; [constructor|]. split; [constructor|].
    split; [apply integral_ofZ | apply integral_0].
  - apply update_whole. exact IH.
  - exact IH.
  - unfold onPointerMove. destruct (negb _); exact IH.
  - exact IH.
Qed.

End WholeSpawns.

(** X27.  In every world a run reaches the score is a whole number, and
    so are the value and the distance the HUD shows: gates add, subtract
    or multiply by whole amounts or floor the quotient, contact damage is
    1 or a whole number fixed at spawn time, and the HUD takes the score
    and the floored distance.  A further step keeps it so. *)
Theorem score_is_whole (rnd : nat -> num) (s : State) :
  reachable rnd s ->
  integral (scoreValue s)
  /\ integral (HudState.value (hud s))
  /\ integral (HudState.dist (hud s))
  /\ forall dt : num, integral (scoreValue (update rnd dt s)).
Proof.
  intro R. destruct (reachable_whole rnd s R) as (H & _ & _ & _ & V & D).
  split; [exact H|]. split; [exact V|]. split; [exact D|].
  intro dt.
  exact (proj1 (reachable_whole rnd _ (reach_update rnd dt s R))).
Qed.

Lemma score_is_whole_witness :
  integral (scoreValue (update halfRandom (frac 1 20) worldBeforeContact)).
Proof.
  destruct (score_is_whole halfRandom worldBeforeContact) as (_ & _ & _ & H).
  - unfold worldBeforeContact. apply reach_update. apply reach_start.
  - exact (H (frac 1 20)).
Defined.

(** ** The player and the pointer through a step *)

Lemma inputView_inv (s s' : State) :
  inputView s' = inputView s ->
  player s' = player s /\ targetX s' = targetX s
  /\ pointerDown s' = pointerDown s.
Proof.
  unfold inputView. intro H. injection H. intros. repeat split; assumption.
Qed.

Lemma hurtPlayer_inputView amount (s : State) :
  inputView (hurtPlayer amount s) = inputView s.
Proof. unfold hurtPlayer. frame_cases. Qed.

Lemma scroll_inputView dy (s : State) : inputView (scroll dy s) = inputView s.
Proof. rewrite scroll_eq. reflexivity. Qed.

Lemma crossGate_inputView g (s : State) :
  inputView (snd (crossGate g s)) = inputView s.
Proof. unfold crossGate. frame_cases. Qed.

Lemma crossGates_inputView (s : State) :
  inputView (crossGates s) = inputView s.
Proof.
  unfold crossGates.
  pose proof (forEach_preserves (fun s' => inputView s' = inputView s)
                crossGate) as H.
  specialize (H (fun a s0 E => eq_trans (crossGate_inputView a s0) E)
                (gates s) s eq_refl).
  destruct (forEach crossGate (gates s) s) as [gs s1]. exact H.
Qed.

Lemma shootAtNearest_inputView dt (s : State) :
  inputView (shootAtNearest dt s) = inputView s.
Proof. rewrite shootAtNearest_eq. destruct (0 <? _); reflexivity. Qed.

Lemma collideBullet_inputView (b : Bullet.t) (s : State) :
  inputView (snd (collideBullet b s)) = inputView s.
Proof.
  rewrite collideBullet_eq. unfold collideOutcome.
  destruct (Bullet.life b <=? 0); [reflexivity|].
  destruct (splitFirst (enemyHit b) (zombies s)) as [[[pre z] post]|];
    [reflexivity|].
  destruct (splitFirst (enemyHit b) (bosses s)) as [[[pre z] post]|];
    [reflexivity|].
  destruct (splitFirst (obstacleHit b) (obstacles s)) as [[[pre o] post]|];
    [|reflexivity].
  cbv zeta. destruct (_ <=? 0); reflexivity.
Qed.

Lemma collideBullets_inputView (s : State) :
  inputView (collideBullets s) = inputView s.
Proof.
  rewrite collideBullets_unfold.
  change (inputView (snd (forEach collideBullet (bullets s) s)) = inputView s).
  apply (forEach_preserves (fun s' => inputView s' = inputView s)).
  - intros b s1 E. rewrite collideBullet_inputView. exact E.
  - reflexivity.
Qed.

Lemma touchObstacles_inputView obs :
  forall s : State, inputView (touchObstacles obs s) = inputView s.
Proof.
  induction obs as [|o rest IH]; intro s; simpl; [reflexivity|].
  frame_cases; rewrite IH; try reflexivity. apply hurtPlayer_inputView.
Qed.

Lemma touchEnemy_inputView (s : State) e :
  inputView (touchEnemy s e) = inputView s.
Proof. unfold touchEnemy. frame_cases. apply hurtPlayer_inputView. Qed.

Lemma fold_touchEnemy_inputView (l : list Enemy.t) :
  forall s : State, inputView (fold_left touchEnemy l s) = inputView s.
Proof.
  induction l as [|e rest IH]; intro s; simpl; [reflexivity|].
  rewrite IH. apply touchEnemy_inputView.
Qed.

Lemma touchHazards_inputView (s : State) :
  inputView (touchHazards s) = inputView s.
Proof.
  unfold touchHazards. cbv zeta.
  rewrite !fold_touchEnemy_inputView. apply touchObstacles_inputView.
Qed.

Lemma collectItem_inputView dt dy (item : Item.t) (s : State) :
  inputView (snd (collectItem dt dy item s)) = inputView s.
Proof. unfold collectItem. frame_cases. Qed.

Lemma collectItems_inputView dt dy (s : State) :
  inputView (collectItems dt dy s) = inputView s.
Proof.
  rewrite collectItems_unfold.
  change (inputView (snd (forEach (collectItem dt dy) (items s) s))
          = inputView s).
  apply (forEach_preserves (fun s' => inputView s' = inputView s)).
  - intros b s1 E. rewrite collectItem_inputView. exact E.
  - reflexivity.
Qed.

Lemma advanceFloaters_inputView dt (s : State) :
  inputView (advanceFloaters dt s) = inputView s.
Proof. reflexivity. Qed.

Lemma advanceBullets_inputView dt (s : State) :
  inputView (advanceBullets dt s) = inputView s.
Proof. reflexivity. Qed.

Lemma prune_inputView (s : State) : inputView (prune s) = inputView s.
Proof. reflexivity. Qed.

Lemma publishHud_inputView dt (s : State) :
  inputView (publishHud dt s) = inputView s.
Proof. unfold publishHud. frame_cases. Qed.

Lemma simulate_inputView (dt : num) (s : State) :
  inputView (simulate dt s) = inputView (steerPlayer (resizePlayer s)).
Proof.
  unfold simulate. cbv zeta.
  assert (E : inputView
                (steerPlayer
                   (set_dist (dist (resizePlayer s) + speed (resizePlayer s) * dt)
                      (set_time (time (resizePlayer s) + dt) (resizePlayer s))))
              = inputView (steerPlayer (resizePlayer s))) by reflexivity.
  revert E.
  generalize (steerPlayer
                (set_dist (dist (resizePlayer s) + speed (resizePlayer s) * dt)
                   (set_time (time (resizePlayer s) + dt) (resizePlayer s)))).
  intros s3 E.
  rewrite advanceFloaters_inputView, collectItems_inputView,
    touchHazards_inputView, collideBullets_inputView,
    advanceBullets_inputView, shootAtNearest_inputView,
    crossGates_inputView, scroll_inputView.
  exact E.
Qed.

Section SpawnerInput.

Variable rnd : nat -> num.

Lemma spawnSegment_inputView (s : State) :
  inputView (spawnSegment rnd s) = inputView s.
Proof.
  unfold spawnSegment. cbv zeta.
  destruct (_ =? 0)%Z; [reflexivity|].
  destruct (_ =? 1)%Z; [|reflexivity].
  pose proof (spawnZombies_eq rnd
                (#(-800) - #(lastSeg (set_lastSeg (lastSeg s + 1) s)) * #240)
                (set_lastSeg (lastSeg s + 1) s)) as E.
  cbv zeta in E. rewrite E. reflexivity.
Qed.

Lemma ensureSpawns_inputView (s : State) :
  inputView (ensureSpawns rnd s) = inputView s.
Proof.
  unfold ensureSpawns. cbv zeta.
  generalize (floorZ ((dist s + #1400) / #240)). intro need.
  generalize (Z.to_nat (need - lastSeg s)). intro fuel. revert s.
  induction fuel as [|fuel IH]; intro s; simpl; [reflexivity|].
  destruct (_ <? _)%Z; [|reflexivity].
  rewrite IH. apply spawnSegment_inputView.
Qed.

Lemma ensureBossSpawn_inputView (s : State) :
  inputView (ensureBossSpawn rnd s) = inputView s.
Proof.
  unfold ensureBossSpawn. generalize (bossThresholdsCrossed s).
  intro fuel. revert s.
  induction fuel as [|fuel IH]; intro s; simpl; [reflexivity|].
  destruct (_ <=? _); [rewrite IH|]; reflexivity.
Qed.

Lemma update_inputView (dt : num) (s : State) :
  alive s = true ->
  inputView (update rnd dt s) = inputView (steerPlayer (resizePlayer s)).
Proof.
  intro A. rewrite (update_unfold rnd dt s A).
  rewrite publishHud_inputView, ensureBossSpawn_inputView,
    ensureSpawns_inputView, prune_inputView.
  apply simulate_inputView.
Qed.

End SpawnerInput.

(** X28.  A step never writes the pointer target or the pointer-down
    flag, and the only thing in a step that moves the player rectangle is
    the resize and steering at its head: gates, hits, contact damage and
    pickups leave it where steering put it.  A dead player is not moved. *)
Theorem update_moves_player_only_by_steering (rnd : nat -> num) (dt : num)
    (s : State) :
  targetX (update rnd dt s) = targetX s
  /\ pointerDown (update rnd dt s) = pointerDown s
  /\ player (update rnd dt s)
     = if alive s then player (steerPlayer (resizePlayer s)) else player s.
Proof.
  destruct (alive s) eqn:A.
  - destruct (inputView_inv _ _ (update_inputView rnd dt s A)) as (P & T & D).
    rewrite P, T, D. repeat split.
  - rewrite (update_when_dead rnd dt s A). repeat split.
Qed.

Lemma steer_resize_inLane (s : State) :
  playerInLane (player s) ->
  playerInLane (player (steerPlayer (resizePlayer s))).
Proof.
  intros (Y & H & W1 & W2 & C1 & C2).
  rewrite steerPlayer_rect. unfold playerInLane.
  cbn [Rect.x Rect.y Rect.w Rect.h].
  destruct (resizePlayer_yh s) as [Y' H'].
  pose proof (resizePlayer_x s) as X'.
  destruct (playerWidth_range (scoreValue s)) as [R1 R2].
  rewrite <- (resizePlayer_w s) in R1, R2.
  assert (D : #18 <= desiredX (resizePlayer s)
              /\ desiredX (resizePlayer s)
                 <= LOGICAL_W - Rect.w (player (resizePlayer s)) - #18).
  { unfold desiredX. apply clamp_range. unfold LOGICAL_W.
    generalize dependent (Rect.w (player (resizePlayer s))).
    intros w1 _ _ R2. clear - R2. qc_lra. }
  destruct D as [D1 D2].
  rewrite Y', H', Y, H.
  split; [reflexivity|]. split; [reflexivity|].
  split; [exact R1|]. split; [exact R2|].
  rewrite X'. unfold lerp.
  pose proof (half_double (Rect.w (player (resizePlayer s)))) as HD.
  unfold LOGICAL_W in D2.
  revert C1 C2 R1 R2 D1 D2 HD.
  generalize (desiredX (resizePlayer s)).
  generalize (Rect.x (player s) + Rect.w (player s) / #2).
  generalize (Rect.w (player (resizePlayer s)) / #2).
  generalize (Rect.w (player (resizePlayer s))).
  clear. intros w1 hw1 c d C1 C2 R1 R2 D1 D2 HD. subst w1.
  split; qc_lra.
Qed.

Lemma reachable_inLane (rnd : nat -> num) (s : State) :
  reachable rnd s -> playerInLane (player s).
Proof.
  induction 1 as [|dt s R IH|lx s R IH|lx s R IH|s R IH].
  - unfold startState.
    rewrite (proj1 (inputView_inv _ _ (ensureSpawns_inputView rnd initialState))).
    unfold playerInLane. cbn [player initialState Rect.x Rect.y Rect.w Rect.h].
    split; [apply Qc_is_canon; reflexivity|].
    split; [reflexivity|].
    split; [apply Qcle_refl|].
    split; [vm_compute; discriminate|].
    split; vm_compute; discriminate.
  - destruct (alive s) eqn:A.
    + rewrite (proj1 (inputView_inv _ _ (update_inputView rnd dt s A))).
      apply steer_resize_inLane. exact IH.
    + rewrite (update_when_dead rnd dt s A). exact IH.
  - exact IH.
  - unfold onPointerMove. destruct (negb _); exact IH.
  - exact IH.
Qed.

(** X29.  In every world a run reaches the player rectangle is on the
    player's row (y = 520, 40 high), between 32 and 276 wide, and its
    centre is at least 34 away from either side of the lane, wherever the
    pointer target is, also outside the lane. *)
Theorem player_stays_in_lane (rnd : nat -> num) (s : State) :
  reachable rnd s ->
  playerInLane (player s)
  /\ forall (lx dt : num),
       playerInLane (player (update rnd dt (onPointerDown lx s))).
Proof.
  intro R. split; [exact (reachable_inLane rnd s R)|].
  intros lx dt. apply (reachable_inLane rnd).
  apply reach_update. apply reach_down. exact R.
Qed.

Lemma player_stays_in_lane_witness :
  playerInLane
    (player (update halfRandom (frac 1 60)
               (onPointerDown #(-500) (startState halfRandom)))).
Proof.
  destruct (player_stays_in_lane halfRandom (startState halfRandom))
    as (_ & H).
  - apply reach_start.
  - exact (H #(-500) (frac 1 60)).
Defined.

(** ** The canvas *)

Lemma floor_le (a : num) : floor a <= a.
Proof. unfold floor. apply floorZ_le. Qed.

Lemma floor_lt (a : num) : a - 1 < floor a.
Proof.
  pose proof (floorZ_lt a) as H. rewrite ofZ_add, ofZ_1 in H.
  unfold floor. generalize dependent (#(floorZ a)). intros f H.
  qc_lra.
Qed.

Lemma floor_between (a : num) (lo hi : Z) :
  #lo <= a -> a <= #hi -> #lo <= floor a /\ floor a <= #hi.
Proof.
  intros L H. unfold floor. split; apply ofZ_le.
  - rewrite <- (floorZ_ofZ lo). apply floorZ_mono. exact L.
  - rewrite <- (floorZ_ofZ hi). apply floorZ_mono. exact H.
Qed.

Lemma mul_div_cancel (a c : num) : 0 < c -> c * (a / c) = a.
Proof.
  intro H. field. intro E. rewrite E in H. exact (Qclt_not_eq _ _ H eq_refl).
Qed.

Lemma mul_le_of_le_div (a b c : num) : 0 < c -> a <= b / c -> c * a <= b.
Proof.
  intros Hc H. rewrite Qcmult_comm. apply (le_div_iff a b c Hc). exact H.
Qed.

(** X30.  For a window of whole width and height [resize] fits the
    canvas in the window: its CSS width and height are whole numbers that
    do not exceed the window's, and in one of the two directions less
    than two pixels are left over.  (With exact quotients less than
    one pixel would be left over; the bound of two leaves room for the
    product [LOGICAL_W * scale] being rounded to just below a whole
    number, as for a window 393 wide, where the code gives 392.)  The
    drawing scale is the device pixel ratio kept between 1 and 3 (1 for a
    ratio of 0), and the backing store is between 360 by 640 and 1080 by
    1920, exactly 360 by 640 times the scale when the scale is whole. *)
Theorem resize_fits_window (w h : Z) (devicePixelRatio : num) :
  let c := resize #w #h devicePixelRatio in
  Canvas.cssW c <= #w /\ Canvas.cssH c <= #h
  /\ (#w - #2 < Canvas.cssW c \/ #h - #2 < Canvas.cssH c)
  /\ (integral (Canvas.cssW c) /\ integral (Canvas.cssH c)
      /\ integral (Canvas.width c) /\ integral (Canvas.height c))
  /\ 1 <= Canvas.transform c /\ Canvas.transform c <= #3
  /\ #360 <= Canvas.width c /\ Canvas.width c <= #1080
  /\ #640 <= Canvas.height c /\ Canvas.height c <= #1920
  /\ (devicePixelRatio = 0 -> Canvas.transform c = 1)
  /\ (1 <= devicePixelRatio -> devicePixelRatio <= #3 ->
      Canvas.transform c = devicePixelRatio)
  /\ (forall z : Z, Canvas.transform c = #z ->
        Canvas.width c = #(360 * z) /\ Canvas.height c = #(640 * z)).
Proof.
  cbv zeta. unfold resize. cbv zeta.
  cbn [Canvas.cssW Canvas.cssH Canvas.width Canvas.height Canvas.transform].
  generalize (#w) (#h). intros ww wh.
  assert (PW : 0 < LOGICAL_W) by (vm_compute; reflexivity).
  assert (PH : 0 < LOGICAL_H) by (vm_compute; reflexivity).
  set (scale := min (ww / LOGICAL_W) (wh / LOGICAL_H)).
  set (raw := if Qc_eq_bool devicePixelRatio 0 then 1 else devicePixelRatio).
  assert (D1 : 1 <= max 1 (min #3 raw)) by apply max_lb_l.
  assert (D3 : max 1 (min #3 raw) <= #3).
  { unfold max. destruct (1 <=? min #3 raw).
    - apply min_ub_l.
    - vm_compute. discriminate. }
  split.
  { eapply Qcle_trans; [apply floor_le|].
    apply mul_le_of_le_div; [exact PW | apply min_ub_l]. }
  split.
  { eapply Qcle_trans; [apply floor_le|].
    apply mul_le_of_le_div; [exact PH | apply min_ub_r]. }
  split.
  { unfold scale, min. destruct (ww / LOGICAL_W <=? wh / LOGICAL_H).
    - left. rewrite (mul_div_cancel ww LOGICAL_W PW).
      apply (Qclt_trans _ (ww - 1)); [|apply floor_lt].
      generalize ww. clear. intro a. qc_lra.
    - right. rewrite (mul_div_cancel wh LOGICAL_H PH).
      apply (Qclt_trans _ (wh - 1)); [|apply floor_lt].
      generalize wh. clear. intro a. qc_lra. }
  split; [repeat split; apply integral_floor|].
  split; [exact D1|]. split; [exact D3|].
  assert (BW : #360 <= floor (LOGICAL_W * max 1 (min #3 raw))
               /\ floor (LOGICAL_W * max 1 (min #3 raw)) <= #1080).
  { apply floor_between; unfold LOGICAL_W;
      generalize dependent (max 1 (min #3 raw)); intros d D1 D3;
      clear - D1 D3; qc_lra. }
  assert (BH : #640 <= floor (LOGICAL_H * max 1 (min #3 raw))
               /\ floor (LOGICAL_H * max 1 (min #3 raw)) <= #1920).
  { apply floor_between; unfold LOGICAL_H;
      generalize dependent (max 1 (min #3 raw)); intros d D1 D3 _;
      clear - D1 D3; qc_lra. }
  split; [exact (proj1 BW)|]. split; [exact (proj2 BW)|].
  split; [exact (proj1 BH)|]. split; [exact (proj2 BH)|].
  split; [|split].
  - intro E. unfold raw. rewrite E.
    change (Qc_eq_bool 0 0) with true. cbv iota.
    apply Qc_is_canon. reflexivity.
  - intros L1 L3. unfold raw.
    destruct (Qc_eq_bool devicePixelRatio 0) eqn:Z.
    + apply Qc_eq_bool_correct in Z. rewrite Z in L1.
      exfalso. revert L1. vm_compute. intro L1. apply L1. reflexivity.
    + rewrite (min_r _ _ L3). apply max_r. exact L1.
  - intros z E. rewrite E. unfold LOGICAL_W, LOGICAL_H, floor.
    rewrite <- !ofZ_mul, !floorZ_ofZ. split; reflexivity.
Qed.

(** * Drops and falls over a whole step *)

Lemma forEach_map {A B : Type} (f g : A -> B)
    (body : A -> State -> A * State) :
  (forall a s, f (fst (body a s)) = g a) ->
  forall l s, map f (fst (forEach body l s)) = map g l.
Proof.
  intros Hbody l. induction l as [|a rest IH]; intros s; cbn [forEach map].
  - reflexivity.
  - specialize (Hbody a s). destruct (body a s) as [a' s1]. cbn [fst] in Hbody.
    specialize (IH s1). destruct (forEach body rest s1) as [rest' s2].
    cbn [fst map] in *. rewrite Hbody, IH. reflexivity.
Qed.

Lemma splitFirst_all_false {A : Type} (p : A -> bool) (l : list A) :
  Forall (fun a => p a = false) l -> splitFirst p l = None.
Proof.
  induction 1 as [|a rest Ha _ IH]; cbn [splitFirst]; [reflexivity|].
  rewrite Ha, IH. reflexivity.
Qed.

Lemma splitFirst_first {A : Type} (p : A -> bool) (pre post : list A) (t : A) :
  Forall (fun a => p a = false) pre -> p t = true ->
  splitFirst p (pre ++ t :: post) = Some (pre, t, post).
Proof.
  intros F T. induction F as [|a rest Ha _ IH]; cbn [app splitFirst].
  - rewrite T. reflexivity.
  - rewrite Ha, IH. reflexivity.
Qed.

(** A bullet with life left that meets no live zombie or boss and whose
    first live obstacle has no more hp than the bullet's damage. *)
Lemma collideBullet_lethal (b : Bullet.t) (s : State)
    (pre post : list Obstacle.t) (o : Obstacle.t) :
  0 < Bullet.life b ->
  Forall (fun z => enemyHit b z = false) (zombies s) ->
  Forall (fun z => enemyHit b z = false) (bosses s) ->
  obstacles s = pre ++ o :: post ->
  Forall (fun q => obstacleHit b q = false) pre ->
  obstacleHit b o = true ->
  Obstacle.hp o <= Bullet.dmg b ->
  collideBullet b s
  = (Bullet.setLife 0 b,
     set_obstacles (pre ++ damageObstacle b o :: post)
       (set_items (items s ++ [itemFor o])
          (set_floaters (floaters s ++ [obstacleFloater b o]) s))).
Proof.
  intros L Z B O P H D.
  rewrite collideBullet_eq. unfold collideOutcome.
  apply leb_gt in L. rewrite L.
  rewrite (splitFirst_all_false _ _ Z), (splitFirst_all_false _ _ B).
  rewrite O, (splitFirst_first _ _ _ _ P H).
  cbv zeta.
  assert (K : (Obstacle.hp (damageObstacle b o) <=? 0) = true).
  { apply leb_le. unfold damageObstacle. cbn [Obstacle.hp Obstacle.setHp].
    revert D. generalize (Obstacle.hp o) (Bullet.dmg b). intros h d D.
    qc_lra. }
  rewrite K. reflexivity.
Qed.

Lemma collideBullets_drops (s : State) :
  Forall2 obsStep (obstacles s) (obstacles (collideBullets s))
  /\ exists new : list Item.t,
       items (collideBullets s) = items s ++ new
       /\ Permutation new (drops (obstacles s) (obstacles (collideBullets s))).
Proof.
  rewrite collideBullets_unfold.
  cbn [obstacles items set_bullets].
  destruct (forEach_collide_drops (bullets s) s) as (F & _ & new & I & P).
  split; [exact F|]. exists new. split; assumption.
Qed.

Lemma first_bullet_lethal (s : State) (b : Bullet.t) (rest : list Bullet.t)
    (pre post : list Obstacle.t) (o : Obstacle.t) :
  bullets s = b :: rest ->
  0 < Bullet.life b ->
  Forall (fun z => enemyHit b z = false) (zombies s) ->
  Forall (fun z => enemyHit b z = false) (bosses s) ->
  obstacles s = pre ++ o :: post ->
  Forall (fun q => obstacleHit b q = false) pre ->
  obstacleHit b o = true ->
  Obstacle.hp o <= Bullet.dmg b ->
  exists (more : list Item.t) (pre' post' : list Obstacle.t),
    items (collideBullets s) = items s ++ itemFor o :: more
    /\ obstacles (collideBullets s) = pre' ++ damageObstacle b o :: post'
    /\ List.length pre' = List.length pre
    /\ Obstacle.hp (damageObstacle b o) <= 0.
Proof.
  intros Hb L Z B O P H D.
  assert (K : Obstacle.hp (damageObstacle b o) <= 0).
  { unfold damageObstacle. cbn [Obstacle.hp Obstacle.setHp].
    revert D. generalize (Obstacle.hp o) (Bullet.dmg b). intros h d D.
    qc_lra. }
  rewrite collideBullets_unfold, Hb. cbn [forEach].
  rewrite (collideBullet_lethal b s pre post o L Z B O P H D).
  match goal with
  | |- context [forEach collideBullet rest ?s1] =>
      pose proof (forEach_collide_drops rest s1) as F;
      cbv zeta in F;
      destruct (forEach collideBullet rest s1) as [rest' s2]
  end.
  cbn [fst snd items obstacles set_bullets set_obstacles set_items
       set_floaters] in *.
  destruct F as (F & _ & new & I & _).
  apply Forall2_app_inv_l in F as (pre' & tail' & Fp & Ft & E).
  inversion Ft as [|x o' l post' Ho Fpost]; subst.
  destruct Ho as (_ & _ & Hdead). rewrite (Hdead K) in E.
  exists new, pre', post'.
  split; [rewrite I, <- app_assoc; reflexivity|].
  split; [exact E|]. split; [|exact K].
  symmetry. exact (Forall2_length Fp).
Qed.

Lemma simulate_split (dt : num) (s : State) :
  simulate dt s
  = advanceFloaters dt
      (collectItems dt (speed s * dt)
         (touchHazards (collideBullets (beforeCollisions dt s)))).
Proof. reflexivity. Qed.

Lemma beforeCollisions_items (dt : num) (s : State) :
  items (beforeCollisions dt s) = items s.
Proof.
  unfold beforeCollisions. cbv zeta.
  rewrite (bonusView_items _ _ (bothViews_bonusView _ _
                                  (advanceBullets_views _ _))).
  rewrite (bonusView_items _ _ (bothViews_bonusView _ _
                                  (shootAtNearest_views _ _))).
  rewrite (bonusView_items _ _ (bothViews_bonusView _ _
                                  (crossGates_views _))).
  rewrite (bonusView_items _ _ (scroll_bonusView _ _)).
  reflexivity.
Qed.

Lemma collectItem_fall dt dy (item : Item.t) (s : State) :
  Item.rect (fst (collectItem dt dy item s)) = Item.rect (fallItem dt dy item)
  /\ Item.vy (fst (collectItem dt dy item s)) = Item.vy item
  /\ Item.bonus (fst (collectItem dt dy item s)) = Item.bonus item.
Proof. unfold collectItem, fallItem. frame_cases; repeat split. Qed.

Lemma collectItems_fall dt dy (s : State) :
  map Item.rect (items (collectItems dt dy s))
  = map (fun i => Item.rect (fallItem dt dy i)) (items s)
  /\ map Item.vy (items (collectItems dt dy s)) = map Item.vy (items s)
  /\ map Item.bonus (items (collectItems dt dy s)) = map Item.bonus (items s).
Proof.
  rewrite collectItems_unfold. cbn [items set_items].
  split; [|split]; apply forEach_map; intros a s0; apply collectItem_fall.
Qed.

Lemma simulate_items (dt : num) (s : State) :
  exists new : list Item.t,
    Permutation new
      (drops (obstacles (beforeCollisions dt s))
             (obstacles (collideBullets (beforeCollisions dt s))))
    /\ map Item.rect (items (simulate dt s))
       = map (fun i => Item.rect (fallItem dt (speed s * dt) i))
             (items s ++ new)
    /\ map Item.vy (items (simulate dt s)) = map Item.vy (items s ++ new)
    /\ map Item.bonus (items (simulate dt s))
       = map Item.bonus (items s ++ new).
Proof.
  rewrite simulate_split.
  destruct (collideBullets_drops (beforeCollisions dt s))
    as (_ & new & I & P).
  rewrite beforeCollisions_items in I.
  exists new. split; [exact P|].
  rewrite (bonusView_items _ _ (bothViews_bonusView _ _
                                  (advanceFloaters_views _ _))).
  destruct (collectItems_fall dt (speed s * dt)
              (touchHazards (collideBullets (beforeCollisions dt s))))
    as (R & V & B).
  rewrite R, V, B.
  rewrite (bonusView_items _ _ (bothViews_bonusView _ _
                                  (touchHazards_views _))).
  rewrite I. repeat split.
Qed.

Lemma prune_items (s : State) :
  items (prune s) = filter keepItem (items s).
Proof. reflexivity. Qed.

Lemma update_items (rnd : nat -> num) (dt : num) (s : State) :
  alive s = true ->
  items (update rnd dt s) = filter keepItem (items (simulate dt s)).
Proof.
  intro A. rewrite (update_unfold rnd dt s A).
  rewrite (bonusView_items _ _ (bothViews_bonusView _ _
                                  (publishHud_views _ _))).
  rewrite (bonusView_items _ _ (ensureBossSpawn_bonusView rnd _)).
  rewrite (bonusView_items _ _ (ensureSpawns_bonusView rnd _)).
  apply prune_items.
Qed.

(** C7.  Over the bullet phase of a step no obstacle moves or changes
    [maxHp], and the items appended to [state.items] are, up to order,
    exactly one [itemFor o] per obstacle [o] whose hp went from above 0
    to 0 or less: never none, never two, however many bullets overlap
    it.  A hit that destroys does drop: when the first bullet of the
    phase has life left, meets no live zombie or boss, and the first live
    obstacle under it has no more hp than the bullet's damage, the phase
    appends [itemFor] of that obstacle and leaves the obstacle at hp 0 or
    less in its place.  That item is 22 wide and high, centred on the
    obstacle with its top on the obstacle's bottom edge, falls at 140 per
    second, is not collected, and carries [clamp (floor (maxHp / 30)) 1
    6].  The item phase moves every item, old or just dropped, by the
    lane scroll plus [vy * dt] and keeps its [vy] and bonus; and in a
    whole step of a living player the items before the final filter are
    the old items followed by the step's drops, each moved by
    [speed * dt + vy * dt], of which the filter keeps the uncollected
    ones above 720. *)
Theorem obstacle_drops_exactly_one_item (s : State) :
  let s' := collideBullets s in
  Forall2 obsStep (obstacles s) (obstacles s')
  /\ (exists new : list Item.t,
        items s' = items s ++ new
        /\ Permutation new (drops (obstacles s) (obstacles s')))
  /\ (forall (b : Bullet.t) (rest : list Bullet.t)
             (pre post : list Obstacle.t) (o : Obstacle.t),
        bullets s = b :: rest ->
        0 < Bullet.life b ->
        Forall (fun z => enemyHit b z = false) (zombies s) ->
        Forall (fun z => enemyHit b z = false) (bosses s) ->
        obstacles s = pre ++ o :: post ->
        Forall (fun q => obstacleHit b q = false) pre ->
        obstacleHit b o = true ->
        Obstacle.hp o <= Bullet.dmg b ->
        exists (more : list Item.t) (pre' post' : list Obstacle.t),
          items s' = items s ++ itemFor o :: more
          /\ obstacles s' = pre' ++ damageObstacle b o :: post'
          /\ List.length pre' = List.length pre
          /\ Obstacle.hp (damageObstacle b o) <= 0)
  /\ (forall o : Obstacle.t,
        let r := Obstacle.rect o in
        Item.rect (itemFor o)
        = Rect.make (Rect.x r + Rect.w r / #2 - #22 / #2)
                    (Rect.y r + Rect.h r) #22 #22
        /\ Item.vy (itemFor o) = #140
        /\ Item.collected (itemFor o) = false
        /\ Item.bonus (itemFor o)
           = clamp (floor (Obstacle.maxHp o / #30)) #1 #6)
  /\ (forall dt dy (item : Item.t) (s0 : State),
        Rect.y (Item.rect (fst (collectItem dt dy item s0)))
        = Rect.y (Item.rect item) + dy + Item.vy item * dt)
  /\ (forall dt dy : num,
        map (fun i => Rect.y (Item.rect i)) (items (collectItems dt dy s))
        = map (fun i => Rect.y (Item.rect i) + dy + Item.vy i * dt) (items s)
        /\ map Item.vy (items (collectItems dt dy s)) = map Item.vy (items s)
        /\ map Item.bonus (items (collectItems dt dy s))
           = map Item.bonus (items s))
  /\ (forall (rnd : nat -> num) (dt : num),
        alive s = true ->
        exists new : list Item.t,
          Permutation new
            (drops (obstacles (beforeCollisions dt s))
                   (obstacles (collideBullets (beforeCollisions dt s))))
          /\ map (fun i => Rect.y (Item.rect i)) (items (simulate dt s))
             = map (fun i => Rect.y (Item.rect i) + speed s * dt
                             + Item.vy i * dt)
                   (items s ++ new)
          /\ map Item.vy (items (simulate dt s)) = map Item.vy (items s ++ new)
          /\ map Item.bonus (items (simulate dt s))
             = map Item.bonus (items s ++ new)
          /\ items (update rnd dt s) = filter keepItem (items (simulate dt s))).
Proof.
  cbv zeta.
  assert (Y : forall (dt dy : num) (l : list Item.t),
             map Rect.y (map (fun i => Item.rect (fallItem dt dy i)) l)
             = map (fun i => Rect.y (Item.rect i) + dy + Item.vy i * dt) l).
  { intros dt dy l. rewrite map_map. apply map_ext. intro i.
    destruct i as [[ix iy iw ih] ity ivy ibonus icol]. reflexivity. }
  destruct (collideBullets_drops s) as (F & N).
  split; [exact F|]. split; [exact N|].
  split; [intros b rest pre post o; apply first_bullet_lethal|].
  split; [intro o; repeat split; apply Qc_is_canon; reflexivity|].
  split; [apply collectItem_y|].
  split.
  - intros dt dy. destruct (collectItems_fall dt dy s) as (R & V & B).
    split; [|split; assumption].
    rewrite <- Y, <- R, map_map. reflexivity.
  - intros rnd dt A.
    destruct (simulate_items dt s) as (new & P & R & V & B).
    exists new. split; [exact P|]. split; [|split; [exact V|split; [exact B|]]].
    + rewrite <- Y, <- R, map_map. reflexivity.
    + apply update_items. exact A.
Qed.

Lemma obstacle_drops_exactly_one_item_witness :
  exists (more : list Item.t) (pre' post' : list Obstacle.t),
    items (collideBullets worldOnObstacle)
    = items worldOnObstacle ++ itemFor obstacleNearEnd :: more
    /\ obstacles (collideBullets worldOnObstacle)
       = pre' ++ damageObstacle
                   (Bullet.make (Rect.make #170 #440 #6 #10) 0 #(-520) 1 #5)
                   obstacleNearEnd :: post'
    /\ List.length pre' = List.length (@nil Obstacle.t)
    /\ Obstacle.hp
         (damageObstacle
            (Bullet.make (Rect.make #170 #440 #6 #10) 0 #(-520) 1 #5)
            obstacleNearEnd) <= 0.
Proof.
  destruct (obstacle_drops_exactly_one_item worldOnObstacle)
    as (_ & _ & H & _).
  apply (H (Bullet.make (Rect.make #170 #440 #6 #10) 0 #(-520) 1 #5)
           [] [] [] obstacleNearEnd).
  - reflexivity.
  - vm_compute. reflexivity.
  - constructor.
  - constructor.
  - reflexivity.
  - constructor.
  - vm_compute. reflexivity.
  - vm_compute. discriminate.
Defined.

(** The last hit in a whole step: the bullet reaches the obstacle, the
    obstacle is destroyed and pruned, and its item, dropped at the
    obstacle's bottom edge (y = 459), has fallen by the scroll of 3 and by
    140/60 at the end of the step. *)
Example last_hit_in_a_step :
  let s' := update (fun _ => 0) (frac 1 60) worldLastHit in
  obstacles s' = []
  /\ map Item.rect (items s') = [Rect.make #167 (frac 1393 3) #22 #22]
  /\ map Item.bonus (items s') = [#1]
  /\ map Item.collected (items s') = [false].
Proof.
  cbv zeta. vm_compute. repeat split.
Qed.

(** * The step of zero length, collection by collection *)






















Section ZeroLists.

Variable rnd : nat -> num.


End ZeroLists.


